(** * The HTTP router of deepkit-framework (packages/framework/src/router.ts)

    A shallow embedding of [router.ts]: route configuration, the path
    template compiler [parseRoutePathToRegex], the parameter resolver
    [parseRouteControllerAction], the code generators [getRouteCode] and
    [getRouteUrlResolveCode], the two lazily built and cached functions of
    [Router], and the properties of dispatch and URL resolution.

    Modelling conventions.
    - A JavaScript string is a [string] whose characters are UTF-16 code
      units below 256 (Latin-1); a number is an integer, whose text is what
      [numberToString] of the [Platform] gives; of a value only the own
      properties of a plain object are modelled.
    - A JavaScript object used as a map ([parameterNames],
      [RouteConfig.parameters], [parameterRegularExpressions], the
      [parameters] argument of [resolveUrl]) is a [gmap string _] of its own
      properties.  Where [parseRoutePathToRegex] reads
      [parameterRegularExpressions] at the name of a token, the members the
      object inherits from [Object.prototype] are read too
      ([prototypeMember]).  Elsewhere a name of a member of
      [Object.prototype] is taken not to occur as a key or as a name that is
      looked up.
    - The router generates JavaScript text and evaluates it with
      [CompilerContext.build].  The generated text is represented by a small
      syntax tree ([RouteCode], [UrlCase]) with an interpreter.  A token is
      spliced into the URL resolver as the property access
      [parameters.name], which [buildUrlResolver] checks.  The other spliced
      strings are taken not to break the text around them: a path holds no
      line terminator, backtick, backslash or dollar sign before a brace; an
      HTTP method and a query path hold no quote, backslash or line
      terminator; the names of handler parameters and of class properties
      are identifier names.
    - What the router imports is abstract: the regular expression engine
      ([RegExpEngine]), Node's [path.join] and [querystring.parse]
      ([Platform]), the reflection, conversion and validation functions of
      [@deepkit/type] ([TypeSystem]) and what [httpClass._fetch] gives for a
      controller ([Decorators]).  A small regular expression engine, a POSIX
      [join], a small type system and a controller instantiate them for
      concrete runs.
    - [parseRouteControllerAction] sets [isOptional] on the property object
      the schema of the handler holds; the model gives each parsed route its
      own copy.  The two agree as long as the routes of one handler method
      carry the same parameter decorators, as the routes
      [addRouteForController] makes do.
    - [parseBody] wraps the callback of the form parser in a promise; it is
      represented by its outcome, the field [bodyFields] of the
      [Environment] a [parameters] function runs in. *)

From Stdlib Require Import String Ascii ZArith Lia Bool List.
From stdpp Require Import base option list strings gmap pretty.

Local Open Scope Z_scope.
#[local] Arguments String.append !s1 s2 : simpl nomatch.

(** ** JavaScript strings *)

Module JsString.

Definition char_code (c : ascii) : N := N_of_ascii c.

Definition in_range (lo hi : N) (c : ascii) : bool :=
  (lo <=? char_code c)%N && (char_code c <=? hi)%N.

Definition is_digit (c : ascii) : bool := in_range 48 57 c.
Definition is_upper (c : ascii) : bool := in_range 65 90 c.
Definition is_lower (c : ascii) : bool := in_range 97 122 c.

(** The class [\w] of a regular expression without the [u] and [i] flags. *)
Definition is_word (c : ascii) : bool :=
  is_digit c || is_upper c || is_lower c || Ascii.eqb c "_".

(** [String.prototype.toLowerCase] on one code unit below 256. *)
Definition lower_char (c : ascii) : ascii :=
  if is_upper c then ascii_of_N (char_code c + 32)
  else if in_range 192 222 c && negb (char_code c =? 215)%N
       then ascii_of_N (char_code c + 32)
       else c.

Fixpoint toLowerCase (s : string) : string :=
  match s with
  | EmptyString => EmptyString
  | String c s' => String (lower_char c) (toLowerCase s')
  end.

(** [s.startsWith(p)] *)
Fixpoint startsWith (s p : string) {struct p} : bool :=
  match p, s with
  | EmptyString, _ => true
  | String _ _, EmptyString => false
  | String a p', String b s' => Ascii.eqb a b && startsWith s' p'
  end.

(** [s.indexOf(c)] for a one-character needle; [-1] when absent. *)
Fixpoint indexOf (s : string) (c : ascii) : Z :=
  match s with
  | EmptyString => -1
  | String a s' =>
      if Ascii.eqb a c then 0
      else let i := indexOf s' c in if i =? -1 then -1 else i + 1
  end.

Fixpoint take (n : nat) (s : string) : string :=
  match n, s with
  | S n', String c s' => String c (take n' s')
  | _, _ => EmptyString
  end.

Fixpoint drop (n : nat) (s : string) : string :=
  match n, s with
  | S n', String _ s' => drop n' s'
  | _, _ => s
  end.

(** [s.substr(start, length)]: a negative [start] counts from the end, and
    [length] is clamped to what is left (a negative one gives ""). *)
Definition substr (s : string) (start len : Z) : string :=
  let size := Z.of_nat (String.length s) in
  let intStart := if start <? 0 then Z.max (size + start) 0 else Z.min start size in
  let intLength := Z.min (Z.max len 0) (size - intStart) in
  take (Z.to_nat intLength) (drop (Z.to_nat intStart) s).

(** [s.substr(start)] *)
Definition substr_from (s : string) (start : Z) : string :=
  substr s start (Z.of_nat (String.length s)).

(** [s.replace(pat, rep)] with a string pattern: the first occurrence only. *)
Fixpoint replace_first (pat rep s : string) : string :=
  if startsWith s pat then rep +:+ drop (String.length pat) s
  else match s with
       | EmptyString => EmptyString
       | String c s' => String c (replace_first pat rep s')
       end.

(** [s.replace(/\./g, rep)] *)
Fixpoint replace_dots (rep s : string) : string :=
  match s with
  | EmptyString => EmptyString
  | String c s' =>
      if Ascii.eqb c "." then rep +:+ replace_dots rep s'
      else String c (replace_dots rep s')
  end.

(** [s.split(sep)] for a one-character separator. *)
Fixpoint split_aux (sep : ascii) (cur : string) (s : string) : list string :=
  match s with
  | EmptyString => [cur]
  | String c s' =>
      if Ascii.eqb c sep then cur :: split_aux sep EmptyString s'
      else split_aux sep (cur +:+ String c EmptyString) s'
  end.

Definition split (sep : ascii) (s : string) : list string := split_aux sep EmptyString s.

Definition split_dots (s : string) : list string := split "." s.

(** [list.join(sep)] *)
Fixpoint join (sep : string) (l : list string) : string :=
  match l with
  | [] => EmptyString
  | [x] => x
  | x :: l' => x +:+ sep +:+ join sep l'
  end.

Definition hex_digit (n : N) : ascii :=
  if (n <? 10)%N then ascii_of_N (48 + n) else ascii_of_N (55 + n).

Definition percent_byte (n : N) : string :=
  String "%" (String (hex_digit (n / 16)) (String (hex_digit (n mod 16)) EmptyString)).

(** The characters [encodeURIComponent] leaves alone:
    [A-Z a-z 0-9 - _ . ! ~ * ' ( )]. *)
Definition uri_unreserved (c : ascii) : bool :=
  is_digit c || is_upper c || is_lower c
  || existsb (Ascii.eqb c) ["-"; "_"; "."; "!"; "~"; "*"; "'"; "("; ")"]%char.

(** The UTF-8 bytes of a code unit below 256, each percent-encoded. *)
Definition encode_char (c : ascii) : string :=
  if uri_unreserved c then String c EmptyString
  else let n := char_code c in
       if (n <? 128)%N then percent_byte n
       else percent_byte (192 + n / 64) +:+ percent_byte (128 + n mod 64).

Fixpoint encodeURIComponent (s : string) : string :=
  match s with
  | EmptyString => EmptyString
  | String c s' => encode_char c +:+ encodeURIComponent s'
  end.

Fixpoint contains_char (c : ascii) (s : string) : bool :=
  match s with
  | EmptyString => false
  | String a s' => Ascii.eqb a c || contains_char c s'
  end.

Fixpoint forallb_string (p : ascii -> bool) (s : string) : bool :=
  match s with
  | EmptyString => true
  | String a s' => p a && forallb_string p s'
  end.

End JsString.


(** ** Values, validation errors and what the router imports *)

(** A class (constructor function) is identified by its name. *)
Definition ClassType := string.

(** The marker class of the validation error sink. *)
Definition BodyValidation : ClassType := "BodyValidation".

(** [ValidationErrorItem] of [@deepkit/rpc]. *)
Record ValidationErrorItem := {
  item_path : string;
  item_code : string;
  item_message : string;
}.

(** The JavaScript values the router handles.  [VBodyValidation errors] is
    the object [new BodyValidation(errors)]; [VService c] is what an
    injector returns for the class [c]. *)
#[warnings="-register-all"]
Inductive value :=
| VUndefined
| VNull
| VBool (b : bool)
| VNumber (n : Z)
| VString (s : string)
| VObject (fields : list (string * value))
| VBodyValidation (errors : list ValidationErrorItem)
| VService (classType : ClassType).

Fixpoint assoc {A} (k : string) (l : list (string * A)) : option A :=
  match l with
  | [] => None
  | (k', v) :: l' => if String.eqb k k' then Some v else assoc k l'
  end.

(** [v !== undefined] *)
Definition is_defined (v : value) : bool :=
  match v with VUndefined => false | _ => true end.

(** [v[k]]: reading a property of [undefined] or [null] is a [TypeError]
    ([None]); only the own properties of plain objects are modelled. *)
Definition get_prop (v : value) (k : string) : option value :=
  match v with
  | VUndefined | VNull => None
  | VObject fields => Some (default VUndefined (assoc k fields))
  | _ => Some VUndefined
  end.

(** [v?.k] *)
Definition get_prop_opt (v : value) (k : string) : value :=
  default VUndefined (get_prop v k).

(** [v[k1][k2]...] *)
Fixpoint get_path (v : value) (keys : list string) : option value :=
  match keys with
  | [] => Some v
  | k :: keys' =>
      match get_prop v k with
      | Some v' => get_path v' keys'
      | None => None
      end
  end.

Module PropertySchema.
(** The fields of [PropertySchema] of [@deepkit/type] the router reads. *)
Record t := mk {
  name : string;
  type : string;
  classType : option ClassType;
  isOptional : bool;
}.

Definition set_isOptional (b : bool) (p : t) : t :=
  mk (name p) (type p) (classType p) b.
End PropertySchema.

(** JavaScript's [RegExp]: construction ([None] is a [SyntaxError]) and
    [String.prototype.match] with a regular expression without the [g]
    flag ([None] is [null]; the list is the match array: the whole match
    first, then the capture groups, [None] for a group that took no part). *)
Class RegExpEngine (RegExp : Type) := {
  RegExp_new : string -> option RegExp;
  RegExp_match : string -> RegExp -> option (list (option string));
}.

(** Node's [path.join] and [querystring.parse], and two facts of the
    JavaScript runtime: [numberToString n] is [String(n)], and
    [prototypeMember name] is [String(Object.prototype[name])] for the names
    [Object.prototype] has a member of (each of them is a function or an
    object, hence truthy). *)
Class Platform := {
  join : string -> string -> string;
  parseQueryString : string -> value;
  numberToString : Z -> string;
  prototypeMember : string -> option string;
}.

(** [String(v)], as a template literal and [encodeURIComponent] apply it. *)
Definition ToString `{P : Platform} (v : value) : string :=
  match v with
  | VUndefined => "undefined"
  | VNull => "null"
  | VBool true => "true"
  | VBool false => "false"
  | VNumber n => numberToString n
  | VString s => s
  | VObject _ | VBodyValidation _ | VService _ => "[object Object]"
  end.

(** ** Exceptions *)

(** What the router and the code it generates throw: [ValidationError],
    a [TypeError] of reading a property of [undefined], the rejection of
    [parseBody], the [SyntaxError] of [new RegExp], the [Error] of the URL
    resolver for an unknown name, an [Error] of imported code, and the
    [Error] of [CompilerContext.build] for text that is not JavaScript. *)
Inductive Exception :=
| ValidationError (errors : list ValidationErrorItem)
| TypeError
| BodyParseError
| RegExpSyntaxError (source : string)
| NoRouteForName (name : string)
| ImportedError (message : string)
| CouldNotBuildFunction.

Inductive outcome (A : Type) :=
| Return (a : A)
| Throw (e : Exception).
Arguments Return {A} a.
Arguments Throw {A} e.

(** [@deepkit/type]: the properties of a controller method's arguments, the
    properties of a class-typed property
    ([property.getResolvedClassSchema().getClassProperties()], taken to be
    there for a property of type [class]), [property.getResolvedClassType()],
    which throws for a property that has no class type, the converter
    [getPropertyXtoClassFunction(property, jsonSerializer)] and the validator
    [jitValidateProperty(property)], which is called as
    [validator(value, path, errors)] and appends to [errors].  Making a
    converter or a validator is taken not to fail. *)
Class TypeSystem := {
  getMethodProperties : ClassType -> string -> list PropertySchema.t;
  getClassProperties : PropertySchema.t -> list PropertySchema.t;
  getResolvedClassType : PropertySchema.t -> outcome ClassType;
  getPropertyXtoClassFunction : PropertySchema.t -> value -> value;
  jitValidateProperty :
    PropertySchema.t -> value -> option string -> list ValidationErrorItem;
}.

(** ** Route configuration *)

Record RouteControllerAction := {
  controller : ClassType;
  methodName : string;
}.

Inductive ParameterType := body | query.

Module RouteParameterConfig.
Record t := mk {
  type : option ParameterType;
  (** undefined = propertyName, '' === root, else given path *)
  typePath : option string;
  optional : bool;
  name : string;
}.
End RouteParameterConfig.

Module RouteConfig.
Record t := mk {
  name : string;
  httpMethod : string;
  path : string;
  action : RouteControllerAction;
  baseUrl : string;
  parameterRegularExpressions : gmap string string;
  description : string;
  groups : list string;
  category : string;
  parameters : gmap string RouteParameterConfig.t;
}.

(** The constructor, with the default values of the other fields. *)
Definition new (name httpMethod path : string) (action : RouteControllerAction) : t :=
  mk name httpMethod path action "" ∅ "" [] "" ∅.

Definition getFullPath `{P : Platform} (r : t) : string :=
  let path := if String.eqb (baseUrl r) "" then path r else join (baseUrl r) (path r) in
  if JsString.startsWith path "/" then path else "/" +:+ path.
End RouteConfig.

(** ** Path templates *)

(** The matches of [/:(\w+)/g] in a string, with the text between them. *)
Inductive piece :=
| PChar (c : ascii)
| PToken (name : string).

(** A token under construction: the [:] has been read, and [name] after it. *)
Definition flush (pending : option string) : list piece :=
  match pending with
  | None => []
  | Some EmptyString => [PChar ":"]
  | Some name => [PToken name]
  end.

Fixpoint scan_tokens (pending : option string) (s : string) : list piece :=
  match s with
  | EmptyString => flush pending
  | String c s' =>
      if match pending with Some _ => JsString.is_word c | None => false end
      then scan_tokens (option_map (fun name => name +:+ String c EmptyString) pending) s'
      else flush pending ++
           (if Ascii.eqb c ":" then scan_tokens (Some EmptyString) s'
            else PChar c :: scan_tokens None s')
  end.

Definition tokens (s : string) : list piece := scan_tokens None s.

(** [s.replace(/:(\w+)/g, (a, name) => cb(name))] with a callback that
    updates a state: called once per match, from left to right. *)
Fixpoint replace_pieces {S} (cb : S -> string -> S * string) (st : S) (ps : list piece)
  : S * string :=
  match ps with
  | [] => (st, EmptyString)
  | PChar c :: ps' =>
      let '(st', out) := replace_pieces cb st ps' in (st', String c out)
  | PToken name :: ps' =>
      let '(st1, r) := cb st name in
      let '(st2, out) := replace_pieces cb st1 ps' in (st2, r +:+ out)
  end.

Definition replace_tokens {S} (cb : S -> string -> S * string) (st : S) (s : string)
  : S * string :=
  replace_pieces cb st (tokens s).

Record ParsedPath := {
  parsed_regex : string;
  parameterNames : gmap string nat;
}.

(** The fragment a token is replaced by:
    [parameterRegularExpressions[name] ? '(' + parameterRegularExpressions[name] + ')' : '([^/]+)'].
    An own entry is kept as its text, the empty text for a falsy one; a name
    without an own entry reads what the object inherits. *)
Definition token_regex `{P : Platform} (routeConfig : RouteConfig.t) (name : string)
  : string :=
  match RouteConfig.parameterRegularExpressions routeConfig !! name with
  | Some r => if String.eqb r "" then "([^/]+)" else "(" +:+ r +:+ ")"
  | None =>
      match prototypeMember name with
      | Some text => "(" +:+ text +:+ ")"
      | None => "([^/]+)"
      end
  end.

Definition parseRoutePathToRegex `{P : Platform} (routeConfig : RouteConfig.t) : ParsedPath :=
  let path := RouteConfig.getFullPath routeConfig in
  let '((parameterNames, argumentIndex), path') :=
    replace_tokens
      (fun '(parameterNames, argumentIndex) name =>
         ((<[name := argumentIndex]> parameterNames, S argumentIndex),
          token_regex routeConfig name))
      ((∅ : gmap string nat), 0%nat) path in
  {| parsed_regex := path'; parameterNames := parameterNames |}.

Record ParsedRouteParameter := {
  property : PropertySchema.t;
  config : option RouteParameterConfig.t;
  regexPosition : option nat;
}.

Definition is_body (p : ParsedRouteParameter) : bool :=
  match config p with
  | Some c => match RouteParameterConfig.type c with Some body => true | _ => false end
  | None => false
  end.

Definition is_query (p : ParsedRouteParameter) : bool :=
  match config p with
  | Some c => match RouteParameterConfig.type c with Some query => true | _ => false end
  | None => false
  end.

Definition typePath (p : ParsedRouteParameter) : option string :=
  match config p with
  | Some c => RouteParameterConfig.typePath c
  | None => None
  end.

Definition getName (p : ParsedRouteParameter) : string :=
  PropertySchema.name (property p).

Definition isPartOfPath (p : ParsedRouteParameter) : bool :=
  match regexPosition p with Some _ => true | None => false end.

(** [customValidationErrorHandling] refers to one of the objects in
    [parameters]: it is kept as that object's index. *)
Record ParsedRoute := {
  routeConfig : RouteConfig.t;
  regex : string;
  customValidationErrorHandling : option nat;
  getParameters : list ParsedRouteParameter;
}.

Definition is_sink_type (p : PropertySchema.t) : bool :=
  String.eqb (PropertySchema.type p) "class"
  && match PropertySchema.classType p with
     | Some c => String.eqb c BodyValidation
     | None => false
     end.

Definition parseRouteControllerAction `{P : Platform} `{T : TypeSystem}
    (routeConfig : RouteConfig.t) : ParsedRoute :=
  let methodArgumentProperties :=
    getMethodProperties (controller (RouteConfig.action routeConfig))
                        (methodName (RouteConfig.action routeConfig)) in
  let parsedPath := parseRoutePathToRegex routeConfig in
  fold_left
    (fun parsedRoute property =>
       let decoratorData :=
         RouteConfig.parameters routeConfig !! PropertySchema.name property in
       let property :=
         match decoratorData with
         | Some d => if RouteParameterConfig.optional d
                     then PropertySchema.set_isOptional true property else property
         | None => property
         end in
       let parsedParameter :=
         {| property := property; config := decoratorData;
            regexPosition := parameterNames parsedPath !! PropertySchema.name property |} in
       {| routeConfig := routeConfig;
          regex := regex parsedRoute;
          customValidationErrorHandling :=
            if is_sink_type property
            then Some (length (getParameters parsedRoute))
            else customValidationErrorHandling parsedRoute;
          getParameters := getParameters parsedRoute ++ [parsedParameter] |})
    methodArgumentProperties
    {| routeConfig := routeConfig; regex := parsed_regex parsedPath;
       customValidationErrorHandling := None; getParameters := [] |}.

(** [dotToUrlPath]: [a.b.c] becomes [a[b][c]]. *)
Definition dotToUrlPath (dotPath : string) : string :=
  if JsString.indexOf dotPath "." =? -1 then dotPath
  else JsString.replace_first "][" "[" (JsString.replace_dots "][" dotPath) +:+ "]".

(** ** The generated code *)

(** [CompilerContext] of [@deepkit/core], as far as the router uses it: a
    supply of fresh variable names. *)
Record CompilerContext := { reserved : nat }.

Definition reserveVariable (compiler : CompilerContext) : nat * CompilerContext :=
  (reserved compiler, {| reserved := S (reserved compiler) |}).

(** The function kept in an [argumentConverter] variable. *)
Inductive Converter :=
| ConvertIdentity
| ConvertXtoClass (p : PropertySchema.t).

(** The function kept in an [argumentValidator] variable. *)
Inductive Validator :=
| ValidateNothing
| ValidateJit (p : PropertySchema.t).

(** [_match[1 + regexPosition]] or [_query['k1']['k2']...]. *)
Inductive Source :=
| FromMatch (regexPosition : nat)
| FromQuery (accessor : list string).

(** One entry of [parameterValidator]:
    [validator(source, path, validationErrors);] or
    [bodyVar = converter(bodyFields); validator(bodyVar, path, bodyErrors);]. *)
Inductive Statement :=
| ValidateArgument (validator : Validator) (source : Source) (path : option string)
| ValidateBody (bodyVar : nat) (converter : Converter) (validator : Validator) (path : string).

(** One entry of [setParameters]. *)
Inductive Argument :=
| ConvertArgument (converter : Converter) (source : Source)
| NewBodyValidation
| BodyVar (bodyVar : nat)
| InjectorGet (p : PropertySchema.t).

Record CodeParts := {
  setParameters : list Argument;
  parameterValidator : list Statement;
  bodyValidationErrorHandling : bool;
  enableParseBody : bool;
}.

(** The function [parameters] of a resolved route. *)
Record ParametersFunction := {
  requiresAsyncParameters : bool;
  parameters_code : CodeParts;
}.

(** The condition on [_path] of a generated [if]. *)
Inductive Matcher (RegExp : Type) :=
| ExactPath (path : string)
| PrefixAndRegex (prefix : string) (regexVar : RegExp).
Arguments ExactPath {RegExp} path.
Arguments PrefixAndRegex {RegExp} prefix regexVar.

(** [if (_method === method && matcher) return {routeConfig, parameters};] *)
Record RouteCode (RegExp : Type) := {
  code_method : string;
  code_matcher : Matcher RegExp;
  code_routeConfig : RouteConfig.t;
  code_parameters : option ParametersFunction;
}.
Arguments code_method {RegExp} r.
Arguments code_matcher {RegExp} r.
Arguments code_routeConfig {RegExp} r.
Arguments code_parameters {RegExp} r.

Definition converter_of (p : PropertySchema.t) : Converter :=
  if String.eqb (PropertySchema.type p) "any" then ConvertIdentity else ConvertXtoClass p.

Definition validator_of (p : PropertySchema.t) : Validator :=
  if String.eqb (PropertySchema.type p) "any" then ValidateNothing else ValidateJit p.

Definition push_code (a : Argument) (s : list Statement) (parts : CodeParts) : CodeParts :=
  {| setParameters := setParameters parts ++ [a];
     parameterValidator := parameterValidator parts ++ s;
     bodyValidationErrorHandling := bodyValidationErrorHandling parts;
     enableParseBody := enableParseBody parts |}.

(** The path a query-bound parameter is read from. *)
Definition queryPath (parameter : ParsedRouteParameter) : string :=
  match typePath parameter with
  | None => getName parameter
  | Some p => p
  end.

(** The body of the loop over the parameters in [getRouteCode], for the
    parameter at index [i].  The last branch resolves the class type of the
    parameter, which throws for a property without one, before it reserves
    the variable that holds it; [InjectorGet] keeps the property the class
    type was resolved from. *)
Definition parameter_code `{T : TypeSystem} (custom : option nat) (i : nat)
    (parameter : ParsedRouteParameter) (st : CompilerContext * CodeParts)
  : outcome (CompilerContext * CodeParts) :=
  let '(compiler, parts) := st in
  match regexPosition parameter with
  | Some position =>
      let '(converterVar, compiler) := reserveVariable compiler in
      let '(validatorVar, compiler) := reserveVariable compiler in
      Return
        (compiler,
         push_code
           (ConvertArgument (converter_of (property parameter)) (FromMatch position))
           [ValidateArgument (validator_of (property parameter)) (FromMatch position)
                             (Some (getName parameter))]
           parts)
  | None =>
      if decide (custom = Some i) then
        Return
          (compiler,
           {| setParameters := setParameters parts ++ [NewBodyValidation];
              parameterValidator := parameterValidator parts;
              bodyValidationErrorHandling := false;
              enableParseBody := enableParseBody parts |})
      else if is_body parameter then
        let '(bodyVar, compiler) := reserveVariable compiler in
        let '(validatorVar, compiler) := reserveVariable compiler in
        let '(converterVar, compiler) := reserveVariable compiler in
        Return
          (compiler,
           {| setParameters := setParameters parts ++ [BodyVar bodyVar];
              parameterValidator :=
                parameterValidator parts ++
                [ValidateBody bodyVar (ConvertXtoClass (property parameter))
                              (ValidateJit (property parameter))
                              (default "" (typePath parameter))];
              bodyValidationErrorHandling := bodyValidationErrorHandling parts;
              enableParseBody := true |})
      else if is_query parameter then
        let '(converterVar, compiler) := reserveVariable compiler in
        let '(validatorVar, compiler) := reserveVariable compiler in
        let accessor :=
          if String.eqb (queryPath parameter) "" then []
          else JsString.split_dots (queryPath parameter) in
        Return
          (compiler,
           push_code
             (ConvertArgument (converter_of (property parameter)) (FromQuery accessor))
             [ValidateArgument (validator_of (property parameter)) (FromQuery accessor)
                               (typePath parameter)]
             parts)
      else
        match getResolvedClassType (property parameter) with
        | Throw e => Throw e
        | Return _ =>
            let '(classType, compiler) := reserveVariable compiler in
            Return (compiler, push_code (InjectorGet (property parameter)) [] parts)
        end
  end.

Fixpoint parameters_loop `{T : TypeSystem} (custom : option nat) (i : nat)
    (parameters : list ParsedRouteParameter) (st : CompilerContext * CodeParts)
  : outcome (CompilerContext * CodeParts) :=
  match parameters with
  | [] => Return st
  | parameter :: rest =>
      match parameter_code custom i parameter st with
      | Throw e => Throw e
      | Return st' => parameters_loop custom (S i) rest st'
      end
  end.

Definition initial_parts : CodeParts :=
  {| setParameters := []; parameterValidator := [];
     bodyValidationErrorHandling := true; enableParseBody := false |}.

Definition getRouteCode {RegExp : Type} `{E : RegExpEngine RegExp} `{P : Platform} `{T : TypeSystem}
    (compiler : CompilerContext) (routeConfig : RouteConfig.t)
  : outcome (RouteCode RegExp * CompilerContext) :=
  let '(routeConfigVar, compiler) := reserveVariable compiler in
  let parsedRoute := parseRouteControllerAction routeConfig in
  let path := RouteConfig.getFullPath routeConfig in
  let prefix := JsString.substr path 0 (JsString.indexOf path ":") in
  match RegExp_new ("^" +:+ regex parsedRoute +:+ "$") with
  | None => Throw (RegExpSyntaxError ("^" +:+ regex parsedRoute +:+ "$"))
  | Some re =>
      let '(regexVar, compiler) := reserveVariable compiler in
      let hasParameters := (0 <? length (getParameters parsedRoute))%nat in
      match parameters_loop (customValidationErrorHandling parsedRoute) 0%nat
                            (getParameters parsedRoute) (compiler, initial_parts) with
      | Throw e => Throw e
      | Return (compiler, parts) =>
          let compiler :=
            if enableParseBody parts
            then snd (reserveVariable (snd (reserveVariable compiler)))
            else compiler in
          let requiresAsyncParameters := enableParseBody parts in
          let matcher :=
            if hasParameters then PrefixAndRegex prefix re else ExactPath path in
          let parameters :=
            match setParameters parts with
            | [] => None
            | _ => Some {| requiresAsyncParameters := requiresAsyncParameters;
                           parameters_code := parts |}
            end in
          Return ({| code_method := JsString.toLowerCase (RouteConfig.httpMethod routeConfig);
                     code_matcher := matcher;
                     code_routeConfig := routeConfig;
                     code_parameters := parameters |}, compiler)
      end
  end.

(** ** Running the generated dispatch code *)

Record HttpRequest := {
  getMethod : string;
  getUrl : string;
}.

(** What the function [parameters] of a resolved route reads when it is
    called: the match and the query of the dispatch that created it, the
    injector it is given, and the fields of the parsed body ([None] when
    [parseBody] rejects). *)
Record Environment := {
  _match : list (option string);
  _query : value;
  _injector : PropertySchema.t -> value;
  bodyFields : option value;
}.

Record ExecState := {
  validationErrors : list ValidationErrorItem;
  bodyErrors : list ValidationErrorItem;
  variables : gmap nat value;
}.

Definition read_source (env : Environment) (s : Source) : option value :=
  match s with
  | FromMatch position =>
      Some match _match env !! S position with
           | Some (Some s) => VString s
           | _ => VUndefined
           end
  | FromQuery accessor => get_path (_query env) accessor
  end.

Definition apply_converter `{T : TypeSystem} (c : Converter) (v : value) : value :=
  match c with
  | ConvertIdentity => v
  | ConvertXtoClass p => getPropertyXtoClassFunction p v
  end.

Definition apply_validator `{T : TypeSystem} (f : Validator) (v : value) (path : option string)
  : list ValidationErrorItem :=
  match f with
  | ValidateNothing => []
  | ValidateJit p => jitValidateProperty p v path
  end.

Definition run_statement `{T : TypeSystem} (env : Environment) (fields : value)
    (s : Statement) (st : ExecState) : outcome ExecState :=
  match s with
  | ValidateArgument validator source path =>
      match read_source env source with
      | None => Throw TypeError
      | Some v =>
          Return {| validationErrors := validationErrors st ++ apply_validator validator v path;
                    bodyErrors := bodyErrors st;
                    variables := variables st |}
      end
  | ValidateBody bodyVar converter validator path =>
      let v := apply_converter converter fields in
      Return {| validationErrors := validationErrors st;
                bodyErrors := bodyErrors st ++ apply_validator validator v (Some path);
                variables := <[bodyVar := v]> (variables st) |}
  end.

Fixpoint run_statements `{T : TypeSystem} (env : Environment) (fields : value)
    (l : list Statement) (st : ExecState) : outcome ExecState :=
  match l with
  | [] => Return st
  | s :: l' =>
      match run_statement env fields s st with
      | Return st' => run_statements env fields l' st'
      | Throw e => Throw e
      end
  end.

Definition eval_argument `{T : TypeSystem} (env : Environment) (st : ExecState)
    (a : Argument) : outcome value :=
  match a with
  | ConvertArgument converter source =>
      match read_source env source with
      | None => Throw TypeError
      | Some v => Return (apply_converter converter v)
      end
  | NewBodyValidation => Return (VBodyValidation (bodyErrors st))
  | BodyVar bodyVar => Return (default VUndefined (variables st !! bodyVar))
  | InjectorGet p => Return (_injector env p)
  end.

Fixpoint eval_arguments `{T : TypeSystem} (env : Environment) (st : ExecState)
    (l : list Argument) : outcome (list value) :=
  match l with
  | [] => Return []
  | a :: l' =>
      match eval_argument env st a with
      | Throw e => Throw e
      | Return v =>
          match eval_arguments env st l' with
          | Throw e => Throw e
          | Return vs => Return (v :: vs)
          end
      end
  end.

Definition initial_state : ExecState :=
  {| validationErrors := []; bodyErrors := []; variables := ∅ |}.

(** Calling the generated function [parameters]. *)
Definition call_parameters `{T : TypeSystem} (f : ParametersFunction) (env : Environment)
  : outcome (list value) :=
  let parts := parameters_code f in
  match (if enableParseBody parts then bodyFields env else Some VUndefined) with
  | None => Throw BodyParseError
  | Some fields =>
      match run_statements env fields (parameterValidator parts) initial_state with
      | Throw e => Throw e
      | Return st =>
          if bodyValidationErrorHandling parts && (0 <? length (bodyErrors st))%nat
          then Throw (ValidationError (bodyErrors st))
          else if (0 <? length (validationErrors st))%nat
          then Throw (ValidationError (validationErrors st))
          else eval_arguments env st (setParameters parts)
      end
  end.

(** [{routeConfig, parameters}]: the function [parameters] reads the
    [_match] and the [_query] of its dispatch.  ([_match] is a variable of
    the compiler context, shared by all dispatches: [parameters] is taken to
    be called before the next request is dispatched.) *)
Record ResolvedController := {
  resolved_routeConfig : RouteConfig.t;
  resolved_parameters : option ParametersFunction;
  resolved_match : list (option string);
  resolved_query : value;
}.

Definition run_matcher {RegExp : Type} `{E : RegExpEngine RegExp} (m : Matcher RegExp) (_path : string)
  : option (list (option string)) :=
  match m with
  | ExactPath path => if String.eqb _path path then Some [] else None
  | PrefixAndRegex prefix regexVar =>
      if JsString.startsWith _path prefix then RegExp_match _path regexVar else None
  end.

Definition run_route {RegExp : Type} `{E : RegExpEngine RegExp} (code : RouteCode RegExp) (_method _path : string)
  : option (list (option string)) :=
  if String.eqb _method (code_method code) then run_matcher (code_matcher code) _path
  else None.

Fixpoint run_routes {RegExp : Type} `{E : RegExpEngine RegExp} (codes : list (RouteCode RegExp))
    (_method _path : string) (_query : value) : option ResolvedController :=
  match codes with
  | [] => None
  | code :: codes' =>
      match run_route code _method _path with
      | Some m =>
          Some {| resolved_routeConfig := code_routeConfig code;
                  resolved_parameters := code_parameters code;
                  resolved_match := m;
                  resolved_query := _query |}
      | None => run_routes codes' _method _path _query
      end
  end.

Definition url_path (_url : string) : string :=
  let _qPosition := JsString.indexOf _url "?" in
  if _qPosition =? -1 then _url else JsString.substr _url 0 _qPosition.

Definition url_query `{P : Platform} (_url : string) : value :=
  let _qPosition := JsString.indexOf _url "?" in
  if _qPosition =? -1 then VObject []
  else parseQueryString (JsString.substr_from _url (_qPosition + 1)).

(** The function [Router.build] returns, applied to a request. *)
Definition run_fn {RegExp : Type} `{E : RegExpEngine RegExp} `{P : Platform} (codes : list (RouteCode RegExp))
    (request : HttpRequest) : option ResolvedController :=
  let _method := JsString.toLowerCase (getMethod request) in
  let _url := getUrl request in
  run_routes codes _method (url_path _url) (url_query _url).

(** Calling [parameters(injector)] on a resolved route, with the outcome of
    parsing the request body. *)
Definition materialize `{T : TypeSystem} (r : ResolvedController)
    (injector : PropertySchema.t -> value) (fields : option value)
  : option (outcome (list value)) :=
  match resolved_parameters r with
  | None => None
  | Some f =>
      Some (call_parameters f {| _match := resolved_match r; _query := resolved_query r;
                                 _injector := injector; bodyFields := fields |})
  end.

(** ** The generated URL resolver *)

(** [parameters.name] or [parameters.name?.field]. *)
Inductive Accessor :=
| ReadParameter (name : string)
| ReadField (name field : string).

(** One entry of [modify]:
    [accessor !== undefined && query.push(key + '=' + encodeURIComponent(accessor))]. *)
Record QueryPush := {
  push_accessor : Accessor;
  push_key : string;
}.

(** [case name: { let url = `...`; let query = []; modify; return ...; }]:
    in the template literal a token [:x] stands for [${parameters.x}]. *)
Record UrlCase := {
  case_name : string;
  case_url : list piece;
  case_modify : list QueryPush;
}.

Definition parameter_modify `{T : TypeSystem} (parameter : ParsedRouteParameter)
  : list QueryPush :=
  if is_query parameter then
    let queryPath := queryPath parameter in
    if String.eqb (PropertySchema.type (property parameter)) "class" then
      map (fun property' =>
             let thisPath :=
               if String.eqb queryPath "" then PropertySchema.name property'
               else queryPath +:+ "." +:+ PropertySchema.name property' in
             {| push_accessor :=
                  ReadField (getName parameter) (PropertySchema.name property');
                push_key := dotToUrlPath thisPath |})
          (getClassProperties (property parameter))
    else
      [{| push_accessor := ReadParameter (getName parameter);
          push_key := dotToUrlPath queryPath |}]
  else [].

Fixpoint modify_loop `{T : TypeSystem} (parameters : list ParsedRouteParameter)
    (modify : list QueryPush) : list QueryPush :=
  match parameters with
  | [] => modify
  | parameter :: rest => modify_loop rest (modify ++ parameter_modify parameter)
  end.

Definition getRouteUrlResolveCode `{P : Platform} `{T : TypeSystem}
    (routeConfig : RouteConfig.t) : UrlCase :=
  let parsedRoute := parseRouteControllerAction routeConfig in
  let url := tokens (RouteConfig.getFullPath routeConfig) in
  {| case_name := RouteConfig.name routeConfig;
     case_url := url;
     case_modify := modify_loop (getParameters parsedRoute) [] |}.

Definition read_parameter (parameters : gmap string value) (name : string) : value :=
  default VUndefined (parameters !! name).

Definition read_accessor (parameters : gmap string value) (a : Accessor) : value :=
  match a with
  | ReadParameter name => read_parameter parameters name
  | ReadField name field => get_prop_opt (read_parameter parameters name) field
  end.

Fixpoint eval_template `{P : Platform} (parameters : gmap string value) (url : list piece)
  : string :=
  match url with
  | [] => EmptyString
  | PChar c :: url' => String c (eval_template parameters url')
  | PToken name :: url' =>
      ToString (read_parameter parameters name) +:+ eval_template parameters url'
  end.

Fixpoint run_modify `{P : Platform} (parameters : gmap string value) (modify : list QueryPush)
    (query : list string) : list string :=
  match modify with
  | [] => query
  | m :: modify' =>
      let v := read_accessor parameters (push_accessor m) in
      run_modify parameters modify'
        (if is_defined v
         then query ++ [push_key m +:+ "=" +:+ JsString.encodeURIComponent (ToString v)]
         else query)
  end.

Definition run_case `{P : Platform} (c : UrlCase) (parameters : gmap string value) : string :=
  let url := eval_template parameters (case_url c) in
  let query := run_modify parameters (case_modify c) [] in
  url +:+ (if (0 <? length query)%nat then "?" +:+ JsString.join "&" query else "").

(** The function [Router.buildUrlResolver] returns: a [switch] on the name. *)
Fixpoint run_resolveFn `{P : Platform} (cases : list UrlCase) (name : string)
    (parameters : gmap string value) : outcome string :=
  match cases with
  | [] => Throw (NoRouteForName name)
  | c :: cases' =>
      if String.eqb name (case_name c) then Return (run_case c parameters)
      else run_resolveFn cases' name parameters
  end.

(** ** The router *)

Fixpoint build_loop {RegExp : Type} `{E : RegExpEngine RegExp} `{P : Platform} `{T : TypeSystem}
    (compiler : CompilerContext) (routes : list RouteConfig.t)
  : outcome (list (RouteCode RegExp)) :=
  match routes with
  | [] => Return []
  | route :: routes' =>
      match getRouteCode compiler route with
      | Throw e => Throw e
      | Return (code, compiler') =>
          match build_loop compiler' routes' with
          | Throw e => Throw e
          | Return codes => Return (code :: codes)
          end
      end
  end.

Definition build {RegExp : Type} `{E : RegExpEngine RegExp} `{P : Platform} `{T : TypeSystem}
    (routes : list RouteConfig.t) : outcome (list (RouteCode RegExp)) :=
  build_loop {| reserved := 0 |} routes.

(** [parameters.name] is JavaScript when [name], a match of [\w+], does not
    start with a digit. *)
Definition is_property_name (name : string) : bool :=
  match name with
  | EmptyString => false
  | String c _ => negb (JsString.is_digit c)
  end.

(** Whether the template literal of a case is JavaScript. *)
Definition well_formed_case (c : UrlCase) : bool :=
  forallb (fun p => match p with PToken name => is_property_name name | PChar _ => true end)
          (case_url c).

(** [Router.buildUrlResolver]: the cases of all routes, in registration
    order, are compiled by [CompilerContext.build], which throws when the
    text is not JavaScript. *)
Definition buildUrlResolver `{P : Platform} `{T : TypeSystem}
    (routes : list RouteConfig.t) : outcome (list UrlCase) :=
  let code := map getRouteUrlResolveCode routes in
  if forallb well_formed_case code then Return code else Throw CouldNotBuildFunction.

Record Router (RegExp : Type) := {
  fn : option (list (RouteCode RegExp));
  resolveFn : option (list UrlCase);
  routes : list RouteConfig.t;
}.
Arguments fn {RegExp} r.
Arguments resolveFn {RegExp} r.
Arguments routes {RegExp} r.

Section Router.
Context {RegExp : Type} `{E : RegExpEngine RegExp} `{P : Platform} `{T : TypeSystem}.

(** A router without controllers. *)
Definition empty_router : Router RegExp :=
  {| fn := None; resolveFn := None; routes := [] |}.

Definition getRoutes (r : Router RegExp) : list RouteConfig.t := routes r.

Definition addRoute (routeConfig : RouteConfig.t) (r : Router RegExp) : Router RegExp :=
  {| fn := None; resolveFn := resolveFn r; routes := routes r ++ [routeConfig] |}.

Definition resolveUrl (routeName : string) (parameters : gmap string value)
    (r : Router RegExp) : Router RegExp * outcome string :=
  match resolveFn r with
  | Some cases => (r, run_resolveFn cases routeName parameters)
  | None =>
      match buildUrlResolver (routes r) with
      | Throw e => (r, Throw e)
      | Return cases =>
          ({| fn := fn r; resolveFn := Some cases; routes := routes r |},
           run_resolveFn cases routeName parameters)
      end
  end.

Definition resolveRequest (request : HttpRequest) (r : Router RegExp)
  : Router RegExp * outcome (option ResolvedController) :=
  match fn r with
  | Some codes => (r, Return (run_fn codes request))
  | None =>
      match build (routes r) with
      | Throw e => (r, Throw e)
      | Return codes =>
          ({| fn := Some codes; resolveFn := resolveFn r; routes := routes r |},
           Return (run_fn codes request))
      end
  end.

Definition resolve (method url : string) (r : Router RegExp)
  : Router RegExp * outcome (option ResolvedController) :=
  resolveRequest {| getMethod := method; getUrl := url |} r.

End Router.

(** ** A regular expression engine

    A backtracking matcher for a fragment of JavaScript's regular
    expressions: characters, [.], classes [[...]] and [[^...]] with ranges,
    the escapes [\d \w \s \D \W \S \n \t \r \f \v \0] and escaped
    punctuation, groups [(...)] and [(?:...)], alternation, the greedy
    quantifiers [* + ?] and the anchors [^ $].  A source outside the fragment
    (lazy quantifiers, braces, back references, look-around, named groups) is
    refused like a syntax error. *)

Module MiniRegExp.

Inductive token :=
| TChar (c : ascii)
| TAny
| TSet (neg : bool) (ranges : list (ascii * ascii))
| TOpen (capturing : bool)
| TClose
| TBar
| TStar
| TPlus
| TQuest
| TBol
| TEol.

(** What a class has read last: nothing that can start a range, a
    character, or a character and a dash. *)
Inductive pending :=
| PendNone
| PendChar (c : ascii)
| PendDash (c : ascii).

Inductive mode :=
| LNormal
| LEscape
| LParen
| LParenQuest
| LSetStart
| LSet (neg : bool) (ranges : list (ascii * ascii)) (p : pending)
| LSetEscape (neg : bool) (ranges : list (ascii * ascii)) (p : pending).

Definition digit_ranges : list (ascii * ascii) := [("0", "9")]%char.
Definition word_ranges : list (ascii * ascii) :=
  [("a", "z"); ("A", "Z"); ("0", "9"); ("_", "_")]%char.
Definition space_ranges : list (ascii * ascii) :=
  [(" ", " "); ("009", "013"); ("160", "160")]%char.

(** An escaped letter that stands for a class. *)
Definition class_escape (c : ascii) : option (bool * list (ascii * ascii)) :=
  if Ascii.eqb c "d" then Some (false, digit_ranges)
  else if Ascii.eqb c "D" then Some (true, digit_ranges)
  else if Ascii.eqb c "w" then Some (false, word_ranges)
  else if Ascii.eqb c "W" then Some (true, word_ranges)
  else if Ascii.eqb c "s" then Some (false, space_ranges)
  else if Ascii.eqb c "S" then Some (true, space_ranges)
  else None.

(** An escaped character that stands for one character. *)
Definition char_escape (c : ascii) : option ascii :=
  if Ascii.eqb c "n" then Some "010"%char
  else if Ascii.eqb c "t" then Some "009"%char
  else if Ascii.eqb c "r" then Some "013"%char
  else if Ascii.eqb c "f" then Some "012"%char
  else if Ascii.eqb c "v" then Some "011"%char
  else if Ascii.eqb c "0" then Some "000"%char
  else if JsString.is_word c then None
  else Some c.

Definition flush_pending (p : pending) (ranges : list (ascii * ascii))
  : list (ascii * ascii) :=
  match p with
  | PendNone => ranges
  | PendChar c => ranges ++ [(c, c)]
  | PendDash c => ranges ++ [(c, c); ("-", "-")%char]
  end.

(** A character of a class, after what was read last. *)
Definition set_char (neg : bool) (ranges : list (ascii * ascii)) (p : pending)
    (c : ascii) : option mode :=
  match p with
  | PendNone => Some (LSet neg ranges (PendChar c))
  | PendChar a => Some (LSet neg (ranges ++ [(a, a)]) (PendChar c))
  | PendDash a =>
      if (JsString.char_code a <=? JsString.char_code c)%N
      then Some (LSet neg (ranges ++ [(a, c)]) PendNone)
      else None
  end.

Definition normal_step (c : ascii) : option (list token * mode) :=
  if Ascii.eqb c "\" then Some ([], LEscape)
  else if Ascii.eqb c "(" then Some ([], LParen)
  else if Ascii.eqb c ")" then Some ([TClose], LNormal)
  else if Ascii.eqb c "[" then Some ([], LSetStart)
  else if Ascii.eqb c "|" then Some ([TBar], LNormal)
  else if Ascii.eqb c "*" then Some ([TStar], LNormal)
  else if Ascii.eqb c "+" then Some ([TPlus], LNormal)
  else if Ascii.eqb c "?" then Some ([TQuest], LNormal)
  else if Ascii.eqb c "^" then Some ([TBol], LNormal)
  else if Ascii.eqb c "$" then Some ([TEol], LNormal)
  else if Ascii.eqb c "." then Some ([TAny], LNormal)
  else if Ascii.eqb c "{" || Ascii.eqb c "}" then None
  else Some ([TChar c], LNormal).

Definition lex_step (m : mode) (c : ascii) : option (list token * mode) :=
  match m with
  | LNormal => normal_step c
  | LEscape =>
      match class_escape c with
      | Some (neg, ranges) => Some ([TSet neg ranges], LNormal)
      | None =>
          match char_escape c with
          | Some a => Some ([TChar a], LNormal)
          | None => None
          end
      end
  | LParen =>
      if Ascii.eqb c "?" then Some ([], LParenQuest)
      else match normal_step c with
           | Some (ts, m') => Some (TOpen true :: ts, m')
           | None => None
           end
  | LParenQuest =>
      if Ascii.eqb c ":" then Some ([TOpen false], LNormal) else None
  | LSetStart =>
      if Ascii.eqb c "^" then Some ([], LSet true [] PendNone)
      else if Ascii.eqb c "]" then Some ([TSet false []], LNormal)
      else if Ascii.eqb c "\" then Some ([], LSetEscape false [] PendNone)
      else Some ([], LSet false [] (PendChar c))
  | LSet neg ranges p =>
      if Ascii.eqb c "]" then Some ([TSet neg (flush_pending p ranges)], LNormal)
      else if Ascii.eqb c "\" then Some ([], LSetEscape neg ranges p)
      else if Ascii.eqb c "-" then
        match p with
        | PendChar a => Some ([], LSet neg ranges (PendDash a))
        | _ => option_map (fun m' => ([], m')) (set_char neg ranges p c)
        end
      else option_map (fun m' => ([], m')) (set_char neg ranges p c)
  | LSetEscape neg ranges p =>
      match class_escape c with
      | Some (false, rs) => Some ([], LSet neg (flush_pending p ranges ++ rs) PendNone)
      | Some (true, _) => None
      | None =>
          match char_escape c with
          | Some a => option_map (fun m' => ([], m')) (set_char neg ranges p a)
          | None => None
          end
      end
  end.

Definition lex_end (m : mode) : option (list token) :=
  match m with
  | LNormal => Some []
  | LParen => Some [TOpen true]
  | _ => None
  end.

Fixpoint lex (m : mode) (s : string) : option (list token) :=
  match s with
  | EmptyString => lex_end m
  | String c s' =>
      match lex_step m c with
      | None => None
      | Some (ts, m') => option_map (app ts) (lex m' s')
      end
  end.

Inductive re :=
| RChar (c : ascii)
| RAny
| RSet (neg : bool) (ranges : list (ascii * ascii))
| RBol
| REol
| REmpty
| RSeq (r1 r2 : re)
| RAlt (r1 r2 : re)
| RStar (r : re)
| RPlus (r : re)
| ROpt (r : re)
| RGroup (index : nat) (r : re).

(** A group being parsed: its capture index if it captures, the
    alternatives completed so far and the atoms of the current one (both
    latest first), and whether a quantifier may follow. *)
Record frame := {
  f_index : option nat;
  f_alts : list re;
  f_atoms : list re;
  f_quantifiable : bool;
}.

Definition sequence (atoms : list re) : re :=
  fold_left (fun acc r => RSeq r acc) atoms REmpty.

Definition close_frame (f : frame) : re :=
  let body := fold_left (fun acc r => RAlt r acc) (f_alts f) (sequence (f_atoms f)) in
  match f_index f with
  | Some index => RGroup index body
  | None => body
  end.

Definition push_atom (quantifiable : bool) (r : re) (f : frame) : frame :=
  {| f_index := f_index f; f_alts := f_alts f; f_atoms := r :: f_atoms f;
     f_quantifiable := quantifiable |}.

Definition quantify (q : re -> re) (f : frame) : option frame :=
  if f_quantifiable f then
    match f_atoms f with
    | r :: atoms =>
        Some {| f_index := f_index f; f_alts := f_alts f; f_atoms := q r :: atoms;
                f_quantifiable := false |}
    | [] => None
    end
  else None.

Record parser := {
  p_stack : list frame;
  p_frame : frame;
  p_groups : nat;
}.

Definition new_frame (index : option nat) : frame :=
  {| f_index := index; f_alts := []; f_atoms := []; f_quantifiable := false |}.

Definition with_frame (p : parser) (f : frame) : parser :=
  {| p_stack := p_stack p; p_frame := f; p_groups := p_groups p |}.

Definition parse_step (p : parser) (t : token) : option parser :=
  match t with
  | TChar c => Some (with_frame p (push_atom true (RChar c) (p_frame p)))
  | TAny => Some (with_frame p (push_atom true RAny (p_frame p)))
  | TSet neg ranges => Some (with_frame p (push_atom true (RSet neg ranges) (p_frame p)))
  | TBol => Some (with_frame p (push_atom false RBol (p_frame p)))
  | TEol => Some (with_frame p (push_atom false REol (p_frame p)))
  | TOpen true =>
      Some {| p_stack := p_frame p :: p_stack p;
              p_frame := new_frame (Some (S (p_groups p)));
              p_groups := S (p_groups p) |}
  | TOpen false =>
      Some {| p_stack := p_frame p :: p_stack p;
              p_frame := new_frame None;
              p_groups := p_groups p |}
  | TClose =>
      match p_stack p with
      | [] => None
      | parent :: stack =>
          Some {| p_stack := stack;
                  p_frame := push_atom true (close_frame (p_frame p)) parent;
                  p_groups := p_groups p |}
      end
  | TBar =>
      Some (with_frame p
              {| f_index := f_index (p_frame p);
                 f_alts := sequence (f_atoms (p_frame p)) :: f_alts (p_frame p);
                 f_atoms := [];
                 f_quantifiable := false |})
  | TStar => option_map (with_frame p) (quantify RStar (p_frame p))
  | TPlus => option_map (with_frame p) (quantify RPlus (p_frame p))
  | TQuest => option_map (with_frame p) (quantify ROpt (p_frame p))
  end.

Fixpoint parse (p : parser) (ts : list token) : option (re * nat) :=
  match ts with
  | [] =>
      match p_stack p with
      | [] => Some (close_frame (p_frame p), p_groups p)
      | _ => None
      end
  | t :: ts' =>
      match parse_step p t with
      | Some p' => parse p' ts'
      | None => None
      end
  end.

Definition compile (source : string) : option (re * nat) :=
  match lex LNormal source with
  | Some ts => parse {| p_stack := []; p_frame := new_frame None; p_groups := 0 |} ts
  | None => None
  end.

Definition in_ranges (ranges : list (ascii * ascii)) (c : ascii) : bool :=
  existsb (fun '(lo, hi) => JsString.in_range (JsString.char_code lo) (JsString.char_code hi) c)
          ranges.

Definition line_terminator (c : ascii) : bool :=
  Ascii.eqb c "010" || Ascii.eqb c "013".

(** A position in the input: the index, what is left, and the captures. *)
Definition position : Type := nat * string * list (option string).

Definition one_char (p : ascii -> bool) (i : nat) (s : string)
    (caps : list (option string)) : list position :=
  match s with
  | String c s' => if p c then [(S i, s', caps)] else []
  | EmptyString => []
  end.

(** Greedy iteration: an iteration that consumes nothing is dropped. *)
Fixpoint star (step : nat -> string -> list (option string) -> list position)
    (fuel : nat) (i : nat) (s : string) (caps : list (option string)) : list position :=
  match fuel with
  | O => [(i, s, caps)]
  | S fuel' =>
      flat_map (fun '(i', s', caps') =>
                  if (i <? i')%nat then star step fuel' i' s' caps' else [])
               (step i s caps)
      ++ [(i, s, caps)]
  end.

(** All the ways [r] matches at a position, in backtracking order. *)
Fixpoint matches (r : re) (i : nat) (s : string) (caps : list (option string))
  : list position :=
  match r with
  | RChar c => one_char (Ascii.eqb c) i s caps
  | RAny => one_char (fun c => negb (line_terminator c)) i s caps
  | RSet neg ranges => one_char (fun c => xorb neg (in_ranges ranges c)) i s caps
  | RBol => if (i =? 0)%nat then [(i, s, caps)] else []
  | REol => match s with EmptyString => [(i, s, caps)] | _ => [] end
  | REmpty => [(i, s, caps)]
  | RSeq r1 r2 =>
      flat_map (fun '(i', s', caps') => matches r2 i' s' caps') (matches r1 i s caps)
  | RAlt r1 r2 => matches r1 i s caps ++ matches r2 i s caps
  | RStar r' => star (matches r') (String.length s) i s caps
  | RPlus r' =>
      flat_map (fun '(i', s', caps') => star (matches r') (String.length s') i' s' caps')
               (matches r' i s caps)
  | ROpt r' => matches r' i s caps ++ [(i, s, caps)]
  | RGroup index r' =>
      map (fun '(i', s', caps') =>
             (i', s', <[index := Some (JsString.take (i' - i) s)]> caps'))
          (matches r' i s caps)
  end.

(** The first match, trying every start index from [i] on. *)
Fixpoint search (r : re) (groups : nat) (i : nat) (s : string)
  : option (list (option string)) :=
  match matches r i s (replicate (S groups) None) with
  | (i', _, caps) :: _ => Some (<[0%nat := Some (JsString.take (i' - i) s)]> caps)
  | [] =>
      match s with
      | EmptyString => None
      | String _ s' => search r groups (S i) s'
      end
  end.

Definition exec (s : string) (r : re * nat) : option (list (option string)) :=
  search (fst r) (snd r) 0 s.

End MiniRegExp.

Definition mini_regexp : RegExpEngine (MiniRegExp.re * nat) :=
  {| RegExp_new := MiniRegExp.compile;
     RegExp_match := MiniRegExp.exec |}.

(** ** A platform and a type system for concrete runs *)

Module Posix.

(** [normalizeString] of Node's [path]: drops empty and [.] segments and
    resolves [..]; [res] holds the segments kept so far, latest first. *)
Fixpoint normalize_segments (allowAboveRoot : bool) (segments res : list string)
  : list string :=
  match segments with
  | [] => rev res
  | seg :: segments' =>
      if String.eqb seg "" || String.eqb seg "." then
        normalize_segments allowAboveRoot segments' res
      else if String.eqb seg ".." then
        match res with
        | last :: res' =>
            if String.eqb last ".."
            then normalize_segments allowAboveRoot segments'
                   (if allowAboveRoot then ".." :: res else res)
            else normalize_segments allowAboveRoot segments' res'
        | [] =>
            normalize_segments allowAboveRoot segments'
              (if allowAboveRoot then [".."] else [])
        end
      else normalize_segments allowAboveRoot segments' (seg :: res)
  end.

Fixpoint ends_with_slash (s : string) : bool :=
  match s with
  | EmptyString => false
  | String c EmptyString => Ascii.eqb c "/"
  | String _ s' => ends_with_slash s'
  end.

Definition normalize (path : string) : string :=
  if String.eqb path "" then "."
  else
    let isAbsolute := JsString.startsWith path "/" in
    let trailingSeparator := ends_with_slash path in
    let path' :=
      JsString.join "/" (normalize_segments (negb isAbsolute) (JsString.split "/" path) []) in
    if String.eqb path' "" then
      if isAbsolute then "/" else if trailingSeparator then "./" else "."
    else
      let path' := if trailingSeparator then path' +:+ "/" else path' in
      if isAbsolute then "/" +:+ path' else path'.

(** [path.join(a, b)] *)
Definition join (a b : string) : string :=
  let joined :=
    if String.eqb a "" then b
    else if String.eqb b "" then a
    else a +:+ "/" +:+ b in
  normalize joined.

Fixpoint split_pair (key : string) (s : string) : string * string :=
  match s with
  | EmptyString => (key, EmptyString)
  | String c s' =>
      if Ascii.eqb c "=" then (key, s')
      else split_pair (key +:+ String c EmptyString) s'
  end.

(** [querystring.parse] on a query without percent-escapes, [+] and
    repeated keys: one string field per [key=value] pair. *)
Definition parseQueryString (s : string) : value :=
  VObject
    (map (fun pair => let '(k, v) := split_pair "" pair in (k, VString v))
         (filter (fun pair => pair <> "") (JsString.split "&" s))).

End Posix.

(** The text of the members of [Object.prototype], as V8 prints them. *)
Definition native_function (name : string) : string :=
  "function " +:+ name +:+ "() { [native code] }".

Definition object_prototype : list (string * string) :=
  [("constructor", native_function "Object");
   ("__defineGetter__", native_function "__defineGetter__");
   ("__defineSetter__", native_function "__defineSetter__");
   ("hasOwnProperty", native_function "hasOwnProperty");
   ("__lookupGetter__", native_function "__lookupGetter__");
   ("__lookupSetter__", native_function "__lookupSetter__");
   ("isPrototypeOf", native_function "isPrototypeOf");
   ("propertyIsEnumerable", native_function "propertyIsEnumerable");
   ("toString", native_function "toString");
   ("valueOf", native_function "valueOf");
   ("toLocaleString", native_function "toLocaleString");
   ("__proto__", "[object Object]")].

(** Node on a POSIX system; integers print in decimal, which is
    [String(n)] below [10^21]. *)
Definition posix : Platform :=
  {| join := Posix.join; parseQueryString := Posix.parseQueryString;
     numberToString := pretty;
     prototypeMember := fun name => assoc name object_prototype |}.

Module DemoTypes.

(** The arguments of the methods of a demonstration controller. *)
Definition any_property (name : string) : PropertySchema.t :=
  PropertySchema.mk name "any" None false.
Definition number_property (name : string) : PropertySchema.t :=
  PropertySchema.mk name "number" None false.
Definition string_property (name : string) : PropertySchema.t :=
  PropertySchema.mk name "string" None false.
Definition class_property (name : string) (c : ClassType) : PropertySchema.t :=
  PropertySchema.mk name "class" (Some c) false.

Definition methods : list (string * list PropertySchema.t) :=
  [("none", []);
   ("any_x", [any_property "x"]);
   ("user", [number_property "id"]);
   ("user_errors", [number_property "id"; class_property "validation" BodyValidation]);
   ("service", [class_property "logger" "Logger"]);
   ("item", [number_property "id"; class_property "item" "Item"]);
   ("search", [class_property "filter" "Filter"; string_property "page"]);
   ("any_zx", [any_property "z"; any_property "x"]);
   ("file", [string_property "name"])].

(** The properties of the demonstration classes. *)
Definition class_properties (c : ClassType) : list PropertySchema.t :=
  if String.eqb c "Item" then [string_property "name"]
  else if String.eqb c "Filter" then [string_property "a"; string_property "b"]
  else [].

Definition item (path : option string) (code message : string) : ValidationErrorItem :=
  {| item_path := default "" path; item_code := code; item_message := message |}.

(** Validation of a value against a primitive type, in the manner of the
    [number] and [string] validators of [@deepkit/type]. *)
Definition validate_primitive (p : PropertySchema.t) (v : value) (path : option string)
  : list ValidationErrorItem :=
  match v with
  | VUndefined =>
      if PropertySchema.isOptional p then []
      else [item path "required" "Required value is undefined"]
  | _ =>
      if String.eqb (PropertySchema.type p) "number" then
        match v with
        | VNumber _ => []
        | _ => [item path "invalid_number" "No number given"]
        end
      else if String.eqb (PropertySchema.type p) "string" then
        match v with
        | VString _ => []
        | _ => [item path "invalid_string" "No string given"]
        end
      else []
  end.

Definition field_path (path : option string) (name : string) : option string :=
  match path with
  | Some EmptyString | None => Some name
  | Some p => Some (p +:+ "." +:+ name)
  end.

Definition validate (p : PropertySchema.t) (v : value) (path : option string)
  : list ValidationErrorItem :=
  if String.eqb (PropertySchema.type p) "class" then
    match v with
    | VObject _ =>
        flat_map (fun p' =>
                    validate_primitive p' (get_prop_opt v (PropertySchema.name p'))
                                       (field_path path (PropertySchema.name p')))
                 (class_properties (default "" (PropertySchema.classType p)))
    | VUndefined =>
        if PropertySchema.isOptional p then []
        else [item path "required" "Required value is undefined"]
    | _ => []
    end
  else validate_primitive p v path.

Fixpoint digits_value (acc : Z) (s : string) : option Z :=
  match s with
  | EmptyString => Some acc
  | String c s' =>
      if JsString.is_digit c
      then digits_value (10 * acc + Z.of_N (JsString.char_code c) - 48) s'
      else None
  end.

(** Conversion to a property's type: a string of digits becomes a number
    for a [number] property; every other value is passed on. *)
Definition convert (p : PropertySchema.t) (v : value) : value :=
  if String.eqb (PropertySchema.type p) "number" then
    match v with
    | VString (String c s) =>
        match digits_value 0 (String c s) with
        | Some n => VNumber n
        | None => v
        end
    | _ => v
    end
  else v.

(** [getResolvedClassType]: the class of a class-typed property. *)
Definition resolved_class_type (p : PropertySchema.t) : outcome ClassType :=
  match PropertySchema.classType p with
  | Some c => Return c
  | None => Throw (ImportedError ("No ClassType given for field " +:+ PropertySchema.name p))
  end.

End DemoTypes.

Definition demo_types : TypeSystem :=
  {| getMethodProperties := fun _ methodName =>
       default [] (assoc methodName DemoTypes.methods);
     getClassProperties := fun p =>
       DemoTypes.class_properties (default "" (PropertySchema.classType p));
     getResolvedClassType := DemoTypes.resolved_class_type;
     getPropertyXtoClassFunction := DemoTypes.convert;
     jitValidateProperty := DemoTypes.validate |}.

(** The routes of the demonstrations: [demo_route name method path methodName]
    is a route of the controller [Demo]. *)
Definition demo_route (name httpMethod path methodName : string) : RouteConfig.t :=
  RouteConfig.new name httpMethod path {| controller := "Demo"; methodName := methodName |}.


(** ** Definitions used in the statements *)

(** [take_before c s]: the text of [s] before the first [c], all of it when
    there is none. *)
Fixpoint take_before (c : ascii) (s : string) : string :=
  match s with
  | EmptyString => EmptyString
  | String a s' => if Ascii.eqb a c then EmptyString else String a (take_before c s')
  end.

(** What a resolution holds apart from the query: the route, its
    [parameters] function and the match. *)
Definition selection (r : ResolvedController)
  : RouteConfig.t * option ParametersFunction * list (option string) :=
  (resolved_routeConfig r, resolved_parameters r, resolved_match r).

(** The resolution the generated [if] of a route returns. *)
Definition resolution {RegExp : Type} `{E : RegExpEngine RegExp} (code : RouteCode RegExp) (m : list (option string))
    (_query : value) : ResolvedController :=
  {| resolved_routeConfig := code_routeConfig code;
     resolved_parameters := code_parameters code;
     resolved_match := m;
     resolved_query := _query |}.

(** The route a call of [resolveRequest] selects, if it returns. *)
Definition selected (o : outcome (option ResolvedController))
  : outcome (option (RouteConfig.t * option ParametersFunction * list (option string))) :=
  match o with
  | Return r => Return (option_map selection r)
  | Throw e => Throw e
  end.

(** The cached dispatch function of a router, when there is one, was built
    from the router's routes. *)
Definition fn_consistent {RegExp : Type} `{E : RegExpEngine RegExp} `{P : Platform} `{T : TypeSystem} (r : Router RegExp) : Prop :=
  forall codes, fn r = Some codes -> build (routes r) = Return codes.

(** The literal prefix [getRouteCode] keeps for a route. *)
Definition route_prefix `{P : Platform} (routeConfig : RouteConfig.t) : string :=
  let path := RouteConfig.getFullPath routeConfig in
  JsString.substr path 0 (JsString.indexOf path ":").

(** The source of the regular expression [getRouteCode] compiles. *)
Definition route_regex_source `{P : Platform} `{T : TypeSystem} (routeConfig : RouteConfig.t)
  : string :=
  "^" +:+ regex (parseRouteControllerAction routeConfig) +:+ "$".

(** What the body of the loop of [getRouteCode] makes of the compiler
    state and the code parts when it does not throw: [parameter_code]
    without the resolution of the class type. *)
Definition parameter_parts (custom : option nat) (i : nat)
    (parameter : ParsedRouteParameter) (st : CompilerContext * CodeParts)
  : CompilerContext * CodeParts :=
  let '(compiler, parts) := st in
  match regexPosition parameter with
  | Some position =>
      let '(converterVar, compiler) := reserveVariable compiler in
      let '(validatorVar, compiler) := reserveVariable compiler in
      (compiler,
       push_code
         (ConvertArgument (converter_of (property parameter)) (FromMatch position))
         [ValidateArgument (validator_of (property parameter)) (FromMatch position)
                           (Some (getName parameter))]
         parts)
  | None =>
      if decide (custom = Some i) then
        (compiler,
         {| setParameters := setParameters parts ++ [NewBodyValidation];
            parameterValidator := parameterValidator parts;
            bodyValidationErrorHandling := false;
            enableParseBody := enableParseBody parts |})
      else if is_body parameter then
        let '(bodyVar, compiler) := reserveVariable compiler in
        let '(validatorVar, compiler) := reserveVariable compiler in
        let '(converterVar, compiler) := reserveVariable compiler in
        (compiler,
         {| setParameters := setParameters parts ++ [BodyVar bodyVar];
            parameterValidator :=
              parameterValidator parts ++
              [ValidateBody bodyVar (ConvertXtoClass (property parameter))
                            (ValidateJit (property parameter))
                            (default "" (typePath parameter))];
            bodyValidationErrorHandling := bodyValidationErrorHandling parts;
            enableParseBody := true |})
      else if is_query parameter then
        let '(converterVar, compiler) := reserveVariable compiler in
        let '(validatorVar, compiler) := reserveVariable compiler in
        let accessor :=
          if String.eqb (queryPath parameter) "" then []
          else JsString.split_dots (queryPath parameter) in
        (compiler,
         push_code
           (ConvertArgument (converter_of (property parameter)) (FromQuery accessor))
           [ValidateArgument (validator_of (property parameter)) (FromQuery accessor)
                             (typePath parameter)]
           parts)
      else
        let '(classType, compiler) := reserveVariable compiler in
        (compiler, push_code (InjectorGet (property parameter)) [] parts)
  end.

Fixpoint parts_loop (custom : option nat) (i : nat)
    (parameters : list ParsedRouteParameter) (st : CompilerContext * CodeParts)
  : CompilerContext * CodeParts :=
  match parameters with
  | [] => st
  | parameter :: rest => parts_loop custom (S i) rest (parameter_parts custom i parameter st)
  end.

(** The code parts the loop of [getRouteCode] produces from a compiler
    state, when it returns. *)
Definition route_parts `{P : Platform} `{T : TypeSystem} (compiler : CompilerContext)
    (routeConfig : RouteConfig.t) : CodeParts :=
  let parsedRoute := parseRouteControllerAction routeConfig in
  snd (parts_loop (customValidationErrorHandling parsedRoute) 0%nat
         (getParameters parsedRoute)
         (snd (reserveVariable (snd (reserveVariable compiler))), initial_parts)).

(** ** Routers of the demonstrations *)

Definition router_of {RegExp : Type} (routes : list RouteConfig.t) : Router RegExp :=
  {| fn := None; resolveFn := None; routes := routes |}.

(** A router on the small regular expression engine. *)
Definition demo_router (routes : list RouteConfig.t) : Router (MiniRegExp.re * nat) :=
  router_of routes.

(** [GET /health], [GET /users/:x] and [GET /users/me], in this order. *)
Definition overlapping_routes : list RouteConfig.t :=
  [demo_route "health" "GET" "/health" "none";
   demo_route "user" "GET" "/users/:x" "any_x";
   demo_route "me" "get" "/users/me" "none"].

(** The calls a router receives. *)
Inductive operation :=
| AddRoute (routeConfig : RouteConfig.t)
| ResolveUrl (routeName : string) (parameters : gmap string value)
| ResolveRequest (request : HttpRequest).

Definition apply_operation {RegExp : Type} `{E : RegExpEngine RegExp} `{P : Platform} `{T : TypeSystem}
    (r : Router RegExp) (o : operation) : Router RegExp :=
  match o with
  | AddRoute routeConfig => addRoute routeConfig r
  | ResolveUrl routeName parameters => fst (resolveUrl routeName parameters r)
  | ResolveRequest request => fst (resolveRequest request r)
  end.

Definition apply_operations {RegExp : Type} `{E : RegExpEngine RegExp} `{P : Platform} `{T : TypeSystem}
    (ops : list operation) (r : Router RegExp) : Router RegExp :=
  fold_left apply_operation ops r.

(** The routes a sequence of calls registers. *)
Definition added_routes (ops : list operation) : list RouteConfig.t :=
  flat_map (fun o => match o with AddRoute routeConfig => [routeConfig] | _ => [] end) ops.

(** Two routes registered under the same name. *)
Definition same_name_routes : list RouteConfig.t :=
  [demo_route "page" "GET" "/first" "none";
   demo_route "page" "GET" "/second" "none"].

(** ** Parsed routes, in closed form *)

(** The names of the tokens of a template, from left to right. *)
Fixpoint token_names (ps : list piece) : list string :=
  match ps with
  | [] => []
  | PChar _ :: ps' => token_names ps'
  | PToken name :: ps' => name :: token_names ps'
  end.

(** Whether a path template contains a [:name] token. *)
Definition has_tokens (template : string) : bool :=
  (0 <? length (token_names (tokens template)))%nat.

(** The parsed parameter [parseRouteControllerAction] makes of a property. *)
Definition parsed_parameter `{P : Platform} (routeConfig : RouteConfig.t)
    (property : PropertySchema.t) : ParsedRouteParameter :=
  let decoratorData := RouteConfig.parameters routeConfig !! PropertySchema.name property in
  let property :=
    match decoratorData with
    | Some d => if RouteParameterConfig.optional d
                then PropertySchema.set_isOptional true property else property
    | None => property
    end in
  {| property := property;
     config := decoratorData;
     regexPosition :=
       parameterNames (parseRoutePathToRegex routeConfig) !! PropertySchema.name property |}.

(** The index of the last parameter of the marker type [BodyValidation]. *)
Fixpoint last_sink (i : nat) (parameters : list ParsedRouteParameter) (found : option nat)
  : option nat :=
  match parameters with
  | [] => found
  | p :: rest =>
      last_sink (S i) rest (if is_sink_type (property p) then Some i else found)
  end.

(** The properties of the arguments of a route's handler. *)
Definition handler_properties `{T : TypeSystem} (routeConfig : RouteConfig.t)
  : list PropertySchema.t :=
  getMethodProperties (controller (RouteConfig.action routeConfig))
                      (methodName (RouteConfig.action routeConfig)).

(** A route without tokens whose handler takes an injected service. *)
Definition dotted_route : RouteConfig.t := demo_route "file" "GET" "/a.b" "service".

(** The index of the last occurrence of a name in a list of names. *)
Fixpoint last_index (name : string) (names : list string) : option nat :=
  match names with
  | [] => None
  | n :: rest =>
      match last_index name rest with
      | Some k => Some (S k)
      | None => if String.eqb n name then Some 0%nat else None
      end
  end.

(** A template with each token replaced by what [f] gives for its name. *)
Fixpoint render (f : string -> string) (ps : list piece) : string :=
  match ps with
  | [] => EmptyString
  | PChar c :: ps' => String c (render f ps')
  | PToken name :: ps' => f name +:+ render f ps'
  end.

(** A route whose template names [x] twice. *)
Definition twice_route : RouteConfig.t := demo_route "pair" "GET" "/a/:x/:x" "any_x".

(** ** The query string, as the specification words it *)

(** For each query-bound parameter, in declaration order, its key and its
    value; for a class-typed one, the key and the value of each field. *)
Definition query_bindings `{T : TypeSystem} (parsed : list ParsedRouteParameter)
    (parameters : gmap string value) : list (string * value) :=
  flat_map
    (fun p =>
       if is_query p then
         if String.eqb (PropertySchema.type (property p)) "class" then
           map (fun field =>
                  (dotToUrlPath
                     (if String.eqb (queryPath p) "" then PropertySchema.name field
                      else queryPath p +:+ "." +:+ PropertySchema.name field),
                   get_prop_opt (read_parameter parameters (getName p))
                                (PropertySchema.name field)))
               (getClassProperties (property p))
         else [(dotToUrlPath (queryPath p), read_parameter parameters (getName p))]
       else [])
    parsed.

(** The key and the value a [modify] entry reads. *)
Definition push_binding (parameters : gmap string value) (m : QueryPush) : string * value :=
  (push_key m, read_accessor parameters (push_accessor m)).

Definition query_pair `{P : Platform} (binding : string * value) : string :=
  fst binding +:+ "=" +:+ JsString.encodeURIComponent (ToString (snd binding)).

(** One [key=value] pair per binding whose value is defined, joined by [&]
    after a [?]; nothing when no value is defined. *)
Definition query_string `{P : Platform} (bindings : list (string * value)) : string :=
  match List.filter (fun b => is_defined (snd b)) bindings with
  | [] => ""
  | defined => "?" +:+ JsString.join "&" (map query_pair defined)
  end.

Fixpoint append_all (l : list string) : string :=
  match l with
  | [] => EmptyString
  | s :: l' => s +:+ append_all l'
  end.

(** [a.b.c] as a first segment and the segments after it. *)
Definition dotted (first : string) (rest : list string) : string :=
  first +:+ append_all (map (fun s => "." +:+ s) rest).

(** [a[b][c]] likewise. *)
Definition bracketed (first : string) (rest : list string) : string :=
  first +:+ append_all (map (fun s => "[" +:+ s +:+ "]") rest).

(** A character [encodeURIComponent] can produce. *)
Definition uri_safe (c : ascii) : bool := JsString.uri_unreserved c || Ascii.eqb c "%".

(** A search route: a class-typed query parameter [filter] with the fields
    [a] and [b], read from the path [value], and a query parameter [page]. *)
Definition search_route : RouteConfig.t :=
  let r := demo_route "search" "GET" "/search" "search" in
  RouteConfig.mk (RouteConfig.name r) (RouteConfig.httpMethod r) (RouteConfig.path r)
    (RouteConfig.action r) (RouteConfig.baseUrl r)
    (RouteConfig.parameterRegularExpressions r) (RouteConfig.description r)
    (RouteConfig.groups r) (RouteConfig.category r)
    (<["filter" := RouteParameterConfig.mk (Some query) (Some "value") false "filter"]>
       (<["page" := RouteParameterConfig.mk (Some query) None true "page"]> ∅)).

(** ** Validation errors, as the specification words them *)

(** The index of the parameter that receives the errors: the last one of
    the marker type, unless it is bound to a path token. *)
Definition sink_index (custom : option nat) (parsed : list ParsedRouteParameter)
  : option nat :=
  match custom with
  | Some k =>
      match parsed !! k with
      | Some p => if isPartOfPath p then None else Some k
      | None => None
      end
  | None => None
  end.

(** The keys a query-bound parameter is read through. *)
Definition query_accessor (p : ParsedRouteParameter) : list string :=
  if String.eqb (queryPath p) "" then [] else JsString.split_dots (queryPath p).

(** The path or query errors of the parameter at index [i]: [None] when
    reading the query raises a [TypeError]. *)
Definition parameter_errors `{T : TypeSystem} (custom : option nat) (env : Environment)
    (i : nat) (p : ParsedRouteParameter) : option (list ValidationErrorItem) :=
  match regexPosition p with
  | Some position =>
      option_map (fun v => apply_validator (validator_of (property p)) v (Some (getName p)))
                 (read_source env (FromMatch position))
  | None =>
      if decide (custom = Some i) then Some []
      else if is_body p then Some []
      else if is_query p then
        option_map (fun v => apply_validator (validator_of (property p)) v (typePath p))
                   (read_source env (FromQuery (query_accessor p)))
      else Some []
  end.

(** The path and query errors of the parameters from index [i] on, in
    declaration order. *)
Fixpoint path_query_errors `{T : TypeSystem} (custom : option nat) (env : Environment)
    (i : nat) (parsed : list ParsedRouteParameter) : option (list ValidationErrorItem) :=
  match parsed with
  | [] => Some []
  | p :: rest =>
      match parameter_errors custom env i p, path_query_errors custom env (S i) rest with
      | Some e, Some es => Some (e ++ es)
      | _, _ => None
      end
  end.

(** The body errors of the parameter at index [i]. *)
Definition parameter_body_errors `{T : TypeSystem} (custom : option nat) (fields : value)
    (i : nat) (p : ParsedRouteParameter) : list ValidationErrorItem :=
  match regexPosition p with
  | Some _ => []
  | None =>
      if decide (custom = Some i) then []
      else if is_body p then
        jitValidateProperty (property p) (getPropertyXtoClassFunction (property p) fields)
                            (Some (default "" (typePath p)))
      else []
  end.

(** The body errors of the parameters from index [i] on. *)
Fixpoint body_errors `{T : TypeSystem} (custom : option nat) (fields : value)
    (i : nat) (parsed : list ParsedRouteParameter) : list ValidationErrorItem :=
  match parsed with
  | [] => []
  | p :: rest =>
      parameter_body_errors custom fields i p ++ body_errors custom fields (S i) rest
  end.

(** [GET /users/:id] with a number [id] and a [BodyValidation] parameter. *)
Definition sink_route : RouteConfig.t := demo_route "user" "GET" "/users/:id" "user_errors".

(** [POST /items/:id] with a number [id] and a body-bound [Item]. *)
Definition item_route : RouteConfig.t :=
  let r := demo_route "item" "POST" "/items/:id" "item" in
  RouteConfig.mk (RouteConfig.name r) (RouteConfig.httpMethod r) (RouteConfig.path r)
    (RouteConfig.action r) (RouteConfig.baseUrl r)
    (RouteConfig.parameterRegularExpressions r) (RouteConfig.description r)
    (RouteConfig.groups r) (RouteConfig.category r)
    (<["item" := RouteParameterConfig.mk (Some body) None false "item"]> ∅).

(** Whether one of the parameters from index [i] on receives the errors. *)
Fixpoint has_sink (custom : option nat) (i : nat) (parsed : list ParsedRouteParameter)
  : bool :=
  match parsed with
  | [] => false
  | p :: rest =>
      bool_decide (regexPosition p = None /\ custom = Some i) || has_sink custom (S i) rest
  end.

(** What the [parameters] function of the demonstrations is run in: the
    match of [/users/abc] against [/users/:id], an empty query, no body. *)
Definition abc_environment : Environment :=
  {| _match := [Some "/users/abc"; Some "abc"];
     _query := VObject [];
     _injector := fun _ => VUndefined;
     bodyFields := Some VUndefined |}.

(** ** Plain templates *)

(** The characters with a meaning of their own in a regular expression. *)
Definition regex_special (c : ascii) : bool :=
  existsb (Ascii.eqb c)
          ["\"; "^"; "$"; "."; "|"; "?"; "*"; "+"; "("; ")"; "["; "]"; "{"; "}"]%char.

Definition plain_piece (p : piece) : bool :=
  match p with
  | PChar c => negb (regex_special c)
  | PToken _ => true
  end.

(** The fragment a token is replaced by when the route gives none. *)
Definition default_group : string := "([^/]+)".

(** A route's template is plain when its text outside the tokens has no
    special character and every token gets the default fragment. *)
Definition plain_template `{P : Platform} (routeConfig : RouteConfig.t) : bool :=
  let ps := tokens (RouteConfig.getFullPath routeConfig) in
  forallb plain_piece ps
  && forallb (fun name => String.eqb (token_regex routeConfig name) default_group)
             (token_names ps).

(** The text of a token under construction. *)
Definition pending_text (pending : option string) : string :=
  match pending with
  | None => ""
  | Some name => ":" +:+ name
  end.

(** A template with its tokens replaced, from left to right, by the given
    strings: [None] unless there is one string per token. *)
Fixpoint fill (ps : list piece) (captures : list string) : option string :=
  match ps with
  | [] => match captures with [] => Some EmptyString | _ => None end
  | PChar c :: ps' => option_map (String c) (fill ps' captures)
  | PToken _ :: ps' =>
      match captures with
      | capture :: captures' => option_map (String.append capture) (fill ps' captures')
      | [] => None
      end
  end.

(** What the router needs of the regular expression engine on plain
    templates: the anchored pattern of a template matches a string only as
    the template with its tokens filled in, and then every group captures
    what fills its token. *)
Definition plain_sound {RegExp : Type} (E : RegExpEngine RegExp) : Prop :=
  forall (ps : list piece) (re : RegExp) (s : string) (m : list (option string)),
    forallb plain_piece ps = true ->
    RegExp_new ("^" +:+ render (fun _ => default_group) ps +:+ "$") = Some re ->
    RegExp_match s re = Some m ->
    exists captures, m = Some s :: map Some captures /\ fill ps captures = Some s.

(** The [parameters] object made of the arguments a dispatch extracted,
    under the names of the handler's parameters. *)
Definition named_arguments `{T : TypeSystem} (routeConfig : RouteConfig.t)
    (args : list value) : gmap string value :=
  list_to_map (zip (map PropertySchema.name (handler_properties routeConfig)) args).

(** [GET /v1.0/:x]: a dot in the literal prefix. *)
Definition versioned_route : RouteConfig.t := demo_route "v1" "GET" "/v1.0/:x" "any_x".


(** ** The small engine on plain templates *)

(** The tokens of a piece of a plain pattern. *)
Definition piece_tokens (p : piece) : list MiniRegExp.token :=
  match p with
  | PChar c => [MiniRegExp.TChar c]
  | PToken _ =>
      [MiniRegExp.TOpen true; MiniRegExp.TSet true [("/", "/")%char];
       MiniRegExp.TPlus; MiniRegExp.TClose]
  end.

Definition not_slash_group (index : nat) : MiniRegExp.re :=
  MiniRegExp.RGroup index
    (MiniRegExp.RSeq (MiniRegExp.RPlus (MiniRegExp.RSet true [("/", "/")%char]))
                     MiniRegExp.REmpty).

(** The atoms of a plain pattern, when [g] groups precede it. *)
Fixpoint piece_atoms (g : nat) (ps : list piece) : list MiniRegExp.re :=
  match ps with
  | [] => []
  | PChar c :: ps' => MiniRegExp.RChar c :: piece_atoms g ps'
  | PToken _ :: ps' => not_slash_group (S g) :: piece_atoms (S g) ps'
  end.

(** The captures after the groups [g + 1], [g + 2], ... have matched. *)
Fixpoint set_groups (g : nat) (captures : list string) (caps : list (option string))
  : list (option string) :=
  match captures with
  | [] => caps
  | c :: captures' => set_groups (S g) captures' (<[S g := Some c]> caps)
  end.

(** The frame of the pattern outside every group. *)
Definition top_frame (atoms : list MiniRegExp.re) (q : bool) : MiniRegExp.frame :=
  {| MiniRegExp.f_index := None; MiniRegExp.f_alts := [];
     MiniRegExp.f_atoms := atoms; MiniRegExp.f_quantifiable := q |}.

(** [GET /users/:x], a route with a plain template. *)
Definition user_route : RouteConfig.t := demo_route "user" "GET" "/users/:x" "any_x".

(** ** Routes with only path parameters *)

(** The value [_match[1 + position]]. *)
Definition capture_value (m : list (option string)) (position : nat) : value :=
  match m !! S position with
  | Some (Some s) => VString s
  | _ => VUndefined
  end.







(** ** The class [BodyValidation]

    The methods of the object a handler receives for its [BodyValidation]
    parameter, on its field [errors].  An optional argument is [None] when
    it is left out. *)

(** [getErrors(prefix)]: [if (prefix)] holds for a string that is not empty. *)
Definition getErrors (errors : list ValidationErrorItem) (prefix : option string)
  : list ValidationErrorItem :=
  match prefix with
  | None => errors
  | Some p =>
      if String.eqb p "" then errors
      else List.filter (fun v => JsString.startsWith (item_path v) p) errors
  end.

Definition hasErrors (errors : list ValidationErrorItem) (prefix : option string) : bool :=
  (0 <? length (getErrors errors prefix))%nat.

Definition getErrorsForPath (errors : list ValidationErrorItem) (path : string)
  : list ValidationErrorItem :=
  List.filter (fun v => String.eqb (item_path v) path) errors.

Definition getErrorMessageForPath (errors : list ValidationErrorItem) (path : string)
  : string :=
  JsString.join ", " (map item_message (getErrorsForPath errors path)).

(** ** Looking up the parameters of a parsed route *)

(** [ParsedRoute.addParameter]: the new parameter has no [regexPosition]
    yet. *)
Definition addParameter (property : PropertySchema.t)
    (config : option RouteParameterConfig.t) (parsedRoute : ParsedRoute)
  : ParsedRoute * ParsedRouteParameter :=
  let parameter := {| property := property; config := config; regexPosition := None |} in
  ({| routeConfig := routeConfig parsedRoute;
      regex := regex parsedRoute;
      customValidationErrorHandling := customValidationErrorHandling parsedRoute;
      getParameters := getParameters parsedRoute ++ [parameter] |},
   parameter).

(** The loop of [ParsedRoute.getParameter]; [inr message] is the [Error]
    thrown after it. *)
Fixpoint getParameter_loop (name : string) (parameters : list ParsedRouteParameter)
  : ParsedRouteParameter + string :=
  match parameters with
  | [] => inr ("No route parameter with name " +:+ name +:+ " defined.")
  | parameter :: rest =>
      if String.eqb (getName parameter) name then inl parameter
      else getParameter_loop name rest
  end.

Definition getParameter (parsedRoute : ParsedRoute) (name : string)
  : ParsedRouteParameter + string :=
  getParameter_loop name (getParameters parsedRoute).

(** ** Routers made of controllers *)

(** An action of a controller, as the decorators record it; the router
    reads these fields of it.  ([throws] is copied to the route and read by
    no function of the router: it is left out, as in [RouteConfig.t].) *)
Module HttpAction.
Record t := mk {
  name : string;
  httpMethod : string;
  path : string;
  methodName : string;
  parameterRegularExpressions : gmap string string;
  description : string;
  category : string;
  groups : list string;
  parameters : gmap string RouteParameterConfig.t;
}.
End HttpAction.

(** What [httpClass._fetch] returns for a decorated controller. *)
Module HttpController.
Record t := mk {
  baseUrl : string;
  getActions : list HttpAction.t;
}.
End HttpController.

(** [httpClass._fetch]: [None] for a class without the decorator. *)
Class Decorators := {
  httpClass_fetch : ClassType -> option HttpController.t;
}.

Module HttpControllers.
Record t := mk { controllers : list ClassType }.

Definition add (controller : ClassType) (c : t) : t :=
  mk (controllers c ++ [controller]).
End HttpControllers.

Section RouterOfControllers.
Context {RegExp : Type} `{E : RegExpEngine RegExp} `{P : Platform} `{T : TypeSystem}
        `{D : Decorators}.

(** The route [addRouteForController] makes of an action. *)
Definition action_route (controller : ClassType) (data : HttpController.t)
    (action : HttpAction.t) : RouteConfig.t :=
  let routeConfig :=
    RouteConfig.new (HttpAction.name action) (HttpAction.httpMethod action)
                    (HttpAction.path action)
                    {| controller := controller;
                       methodName := HttpAction.methodName action |} in
  RouteConfig.mk (RouteConfig.name routeConfig) (RouteConfig.httpMethod routeConfig)
    (RouteConfig.path routeConfig) (RouteConfig.action routeConfig)
    (HttpController.baseUrl data)
    (HttpAction.parameterRegularExpressions action)
    (HttpAction.description action)
    (HttpAction.groups action)
    (HttpAction.category action)
    (HttpAction.parameters action).

Definition addRouteForController (controller : ClassType) (r : Router RegExp)
  : Router RegExp :=
  match httpClass_fetch controller with
  | None => r
  | Some data =>
      fold_left (fun r action => addRoute (action_route controller data action) r)
                (HttpController.getActions data) r
  end.

(** The constructor of [Router]. *)
Definition new_Router (controllers : HttpControllers.t) : Router RegExp :=
  fold_left (fun r controller => addRouteForController controller r)
            (HttpControllers.controllers controllers) empty_router.

Definition forControllers (controllers : list ClassType) : Router RegExp :=
  new_Router (HttpControllers.mk controllers).

End RouterOfControllers.

(** ** Definitions used in the statements on controllers and dispatch *)

(** The routes [addRouteForController] registers for a controller. *)
Definition controller_routes `{D : Decorators} (controller : ClassType)
  : list RouteConfig.t :=
  match httpClass_fetch controller with
  | None => []
  | Some data => map (action_route controller data) (HttpController.getActions data)
  end.

(** The decorators of the demonstrations: the controller [Users] with the
    base URL [/users] and two actions, and nothing else. *)
Definition demo_decorators : Decorators :=
  {| httpClass_fetch := fun c =>
       if String.eqb c "Users" then
         Some (HttpController.mk "/users"
                 [HttpAction.mk "list" "GET" "" "none" ∅ "" "" [] ∅;
                  HttpAction.mk "detail" "GET" ":x" "any_x" ∅ "" "" [] ∅])
       else None |}.


(** ** The bindings of the parameters, in closed form *)

(** Where the argument of a parameter comes from: the tests of the loop of
    [getRouteCode], in their order. *)
Inductive Binding :=
| PathBound (position : nat)
| ErrorSink
| BodyBound
| QueryBound
| Injected.

Definition binding_of (custom : option nat) (i : nat) (p : ParsedRouteParameter)
  : Binding :=
  match regexPosition p with
  | Some position => PathBound position
  | None =>
      if decide (custom = Some i) then ErrorSink
      else if is_body p then BodyBound
      else if is_query p then QueryBound
      else Injected
  end.

Definition is_body_bound (b : Binding) : bool :=
  match b with BodyBound => true | _ => false end.

Definition is_error_sink (b : Binding) : bool :=
  match b with ErrorSink => true | _ => false end.

(** Whether one of the parameters from index [i] on is bound to the body. *)
Fixpoint has_body (custom : option nat) (i : nat) (parsed : list ParsedRouteParameter)
  : bool :=
  match parsed with
  | [] => false
  | p :: rest => is_body_bound (binding_of custom i p) || has_body custom (S i) rest
  end.

(** The number of variables the loop reserves for a parameter. *)
Definition reserved_variables (b : Binding) : nat :=
  match b with
  | PathBound _ => 2
  | ErrorSink => 0
  | BodyBound => 3
  | QueryBound => 2
  | Injected => 1
  end.

(** The entry of [setParameters] for a parameter, when [n] variables are
    reserved before it. *)
Definition binding_argument (n : nat) (p : ParsedRouteParameter) (b : Binding) : Argument :=
  match b with
  | PathBound position => ConvertArgument (converter_of (property p)) (FromMatch position)
  | ErrorSink => NewBodyValidation
  | BodyBound => BodyVar n
  | QueryBound => ConvertArgument (converter_of (property p)) (FromQuery (query_accessor p))
  | Injected => InjectorGet (property p)
  end.

(** The entries of [parameterValidator] for a parameter. *)
Definition binding_statements (n : nat) (p : ParsedRouteParameter) (b : Binding)
  : list Statement :=
  match b with
  | PathBound position =>
      [ValidateArgument (validator_of (property p)) (FromMatch position) (Some (getName p))]
  | ErrorSink => []
  | BodyBound =>
      [ValidateBody n (ConvertXtoClass (property p)) (ValidateJit (property p))
                    (default "" (typePath p))]
  | QueryBound =>
      [ValidateArgument (validator_of (property p)) (FromQuery (query_accessor p))
                        (typePath p)]
  | Injected => []
  end.

Fixpoint loop_arguments (custom : option nat) (i n : nat)
    (parsed : list ParsedRouteParameter) : list Argument :=
  match parsed with
  | [] => []
  | p :: rest =>
      binding_argument n p (binding_of custom i p)
      :: loop_arguments custom (S i) (n + reserved_variables (binding_of custom i p)) rest
  end.

Fixpoint loop_statements (custom : option nat) (i n : nat)
    (parsed : list ParsedRouteParameter) : list Statement :=
  match parsed with
  | [] => []
  | p :: rest =>
      binding_statements n p (binding_of custom i p)
      ++ loop_statements custom (S i) (n + reserved_variables (binding_of custom i p)) rest
  end.

Fixpoint loop_variables (custom : option nat) (i n : nat)
    (parsed : list ParsedRouteParameter) : nat :=
  match parsed with
  | [] => n
  | p :: rest =>
      loop_variables custom (S i) (n + reserved_variables (binding_of custom i p)) rest
  end.

(** The argument a handler receives for a parameter: the converted capture
    of a path parameter, the [BodyValidation] of the body errors for the
    sink, the converted fields of the body for a body parameter, the
    converted value under its path in the query for a query parameter
    ([None] when that path cannot be read), and what the injector gives for
    the parameter's class otherwise. *)
Definition argument_value `{T : TypeSystem} (env : Environment) (fields : value)
    (errors : list ValidationErrorItem) (p : ParsedRouteParameter) (b : Binding)
  : option value :=
  match b with
  | PathBound position =>
      Some (apply_converter (converter_of (property p))
                            (capture_value (_match env) position))
  | ErrorSink => Some (VBodyValidation errors)
  | BodyBound => Some (getPropertyXtoClassFunction (property p) fields)
  | QueryBound =>
      option_map (apply_converter (converter_of (property p)))
                 (get_path (_query env) (query_accessor p))
  | Injected => Some (_injector env (property p))
  end.

(** An environment with another outcome of parsing the body. *)
Definition with_bodyFields (env : Environment) (fields : option value) : Environment :=
  {| _match := _match env; _query := _query env; _injector := _injector env;
     bodyFields := fields |}.

(** What the [parameters] function of [item_route] is run in for
    [POST /items/7] with the body [{name: 'pen'}]. *)
Definition item_environment : Environment :=
  {| _match := [Some "/items/7"; Some "7"];
     _query := VObject [];
     _injector := fun _ => VUndefined;
     bodyFields := Some (VObject [("name", VString "pen")]) |}.

(** A search route whose [filter] is read from the path [q.filter] of the
    query. *)
Definition nested_query_route : RouteConfig.t :=
  let r := demo_route "search" "GET" "/search" "search" in
  RouteConfig.mk (RouteConfig.name r) (RouteConfig.httpMethod r) (RouteConfig.path r)
    (RouteConfig.action r) (RouteConfig.baseUrl r)
    (RouteConfig.parameterRegularExpressions r) (RouteConfig.description r)
    (RouteConfig.groups r) (RouteConfig.category r)
    (<["filter" := RouteParameterConfig.mk (Some query) (Some "q.filter") true "filter"]>
       (<["page" := RouteParameterConfig.mk (Some query) None true "page"]> ∅)).

(** [search_route] with the page in the path: [GET /search/:page]. *)
Definition paged_search_route : RouteConfig.t :=
  RouteConfig.mk (RouteConfig.name search_route) (RouteConfig.httpMethod search_route)
    "/search/:page"
    (RouteConfig.action search_route) (RouteConfig.baseUrl search_route)
    (RouteConfig.parameterRegularExpressions search_route)
    (RouteConfig.description search_route)
    (RouteConfig.groups search_route) (RouteConfig.category search_route)
    (RouteConfig.parameters search_route).

(** What the [parameters] function of [paged_search_route] is run in for
    [GET /search/2?value=x]. *)
Definition search_environment : Environment :=
  {| _match := [Some "/search/2"; Some "2"];
     _query := url_query (P := posix) "/search/2?value=x";
     _injector := fun _ => VUndefined;
     bodyFields := None |}.

(** The names [resolveUrl] reads in its [parameters] for a route: the names
    of the tokens of the template and the names of the query parameters. *)
Definition resolver_names `{P : Platform} `{T : TypeSystem} (routeConfig : RouteConfig.t)
  : list string :=
  token_names (tokens (RouteConfig.getFullPath routeConfig))
  ++ map getName (List.filter is_query (getParameters (parseRouteControllerAction routeConfig))).

(** [search_route] with an optional [filter]. *)
Definition optional_search_route : RouteConfig.t :=
  RouteConfig.mk (RouteConfig.name search_route) (RouteConfig.httpMethod search_route)
    (RouteConfig.path search_route)
    (RouteConfig.action search_route) (RouteConfig.baseUrl search_route)
    (RouteConfig.parameterRegularExpressions search_route)
    (RouteConfig.description search_route)
    (RouteConfig.groups search_route) (RouteConfig.category search_route)
    (<["filter" := RouteParameterConfig.mk (Some query) (Some "value") true "filter"]>
       (RouteConfig.parameters search_route)).

(** ** The failures of compiling a route, in closed form *)

(** What the loop of [getRouteCode] throws from index [i] on: the exception
    of the first injected parameter whose class type does not resolve. *)
Fixpoint class_error `{T : TypeSystem} (custom : option nat) (i : nat)
    (parsed : list ParsedRouteParameter) : option Exception :=
  match parsed with
  | [] => None
  | p :: rest =>
      match binding_of custom i p, getResolvedClassType (property p) with
      | Injected, Throw e => Some e
      | _, _ => class_error custom (S i) rest
      end
  end.

Definition route_class_error `{P : Platform} `{T : TypeSystem} (routeConfig : RouteConfig.t)
  : option Exception :=
  let parsedRoute := parseRouteControllerAction routeConfig in
  class_error (customValidationErrorHandling parsedRoute) 0%nat (getParameters parsedRoute).

(** What [getRouteCode] throws for a route: the [SyntaxError] of the pattern
    the engine rejects, else the exception of an injected parameter. *)
Definition route_error {RegExp : Type} `{E : RegExpEngine RegExp} `{P : Platform}
    `{T : TypeSystem} (routeConfig : RouteConfig.t) : option Exception :=
  match RegExp_new (route_regex_source routeConfig) with
  | None => Some (RegExpSyntaxError (route_regex_source routeConfig))
  | Some _ => route_class_error routeConfig
  end.


(** ** The routes the URL resolver knows *)

(** The calls of a sequence before its first [resolveUrl]. *)
Fixpoint before_resolveUrl (ops : list operation) : list operation :=
  match ops with
  | [] => []
  | ResolveUrl _ _ :: _ => []
  | o :: ops' => o :: before_resolveUrl ops'
  end.

(** The routes registered when [resolveUrl] is first called, on a router
    that starts with the routes [rs] and receives the calls [ops] before the
    call of [resolveUrl] at hand. *)
Definition resolver_routes (rs : list RouteConfig.t) (ops : list operation)
  : list RouteConfig.t :=
  rs ++ added_routes (before_resolveUrl ops).

(** The first route registered under a name. *)
Definition first_named (routeName : string) (rs : list RouteConfig.t)
  : option RouteConfig.t :=
  List.find (fun rc => String.eqb routeName (RouteConfig.name rc)) rs.

(** Whether [buildUrlResolver] accepts a route: no token of its template
    starts with a digit. *)
Definition resolvable `{P : Platform} (routeConfig : RouteConfig.t) : bool :=
  forallb is_property_name (token_names (tokens (RouteConfig.getFullPath routeConfig))).

(** A route whose token is a number. *)
Definition numbered_route : RouteConfig.t := demo_route "numbered" "GET" "/a/:1" "none".

(** ** Routes on which the round trip fails *)

(** A template with a quantifier in its text. *)
Definition quantified_route : RouteConfig.t := demo_route "many" "GET" "/:x/a+" "any_x".

(** A template that names [x] twice, after a token [z]. *)
Definition repeated_route : RouteConfig.t := demo_route "pair" "GET" "/:z-:x/:x" "any_zx".

(** A template with a token [u] the handler has no parameter for. *)
Definition unbound_route : RouteConfig.t := demo_route "loose" "GET" "/:x:u" "any_x".

(** A route with a parameter of type [string]. *)
Definition file_route : RouteConfig.t := demo_route "file" "GET" "/files/:name" "file".

(** The demonstration type system with a converter that decodes the escape
    of the slash in a string, as a converter that decodes URI components
    does. *)
Definition decoding_types : TypeSystem :=
  {| getMethodProperties := getMethodProperties (TypeSystem := demo_types);
     getClassProperties := getClassProperties (TypeSystem := demo_types);
     getResolvedClassType := getResolvedClassType (TypeSystem := demo_types);
     getPropertyXtoClassFunction := fun _ v =>
       match v with
       | VString s => VString (JsString.replace_first "%2F" "/" s)
       | _ => v
       end;
     jitValidateProperty := jitValidateProperty (TypeSystem := demo_types) |}.

(** What [GET url] gives on a router of the demonstrations: the path of the
    route selected and the arguments extracted. *)
Definition dispatched `{T : TypeSystem} (r : Router (MiniRegExp.re * nat)) (url : string)
  : option (string * option (outcome (list value))) :=
  match snd (resolve (E := mini_regexp) (P := posix) "GET" url r) with
  | Return (Some res) =>
      Some (RouteConfig.path (resolved_routeConfig res),
            materialize res (fun _ => VUndefined) None)
  | _ => None
  end.
(** * Properties *)

(** ** Strings *)

Lemma startsWith_app (p s : string) : JsString.startsWith (p +:+ s) p = true.
Proof.
  induction p as [|c p IH]; simpl; [reflexivity|].
  rewrite Ascii.eqb_refl. exact IH.
Qed.

Lemma startsWith_inv (s p : string) :
  JsString.startsWith s p = true -> exists r, s = p +:+ r.
Proof.
  revert s. induction p as [|c p IH]; intros s Hs; simpl in *.
  - exists s. reflexivity.
  - destruct s as [|b s]; [discriminate|].
    apply andb_prop in Hs as [Hc Hs]. apply Ascii.eqb_eq in Hc. subst b.
    destruct (IH _ Hs) as [r ->]. exists r. reflexivity.
Qed.

Lemma startsWith_empty (s : string) : JsString.startsWith s "" = true.
Proof. destruct s; reflexivity. Qed.

Lemma string_app_assoc (a b c : string) : (a +:+ b) +:+ c = a +:+ (b +:+ c).
Proof. induction a as [|x a IH]; simpl; congruence. Qed.

Lemma string_app_empty_r (a : string) : a +:+ "" = a.
Proof. induction a as [|x a IH]; simpl; congruence. Qed.

Lemma indexOf_ge (s : string) (c : ascii) : -1 <= JsString.indexOf s c.
Proof.
  induction s as [|a s IH]; simpl; [lia|].
  destruct (Ascii.eqb a c); [lia|].
  destruct (Z.eqb_spec (JsString.indexOf s c) (-1)); lia.
Qed.

Lemma indexOf_absent (s : string) (c : ascii) :
  JsString.indexOf s c = -1 <-> JsString.contains_char c s = false.
Proof.
  induction s as [|a s IH]; simpl; [tauto|].
  destruct (Ascii.eqb a c); simpl.
  - split; [lia|discriminate].
  - pose proof (indexOf_ge s c).
    destruct (Z.eqb_spec (JsString.indexOf s c) (-1)) as [E|E].
    + split; intros _; [apply IH; exact E|reflexivity].
    + split; [lia|]. intros Hc. apply IH in Hc. contradiction.
Qed.

Lemma take_length (s r : string) : JsString.take (String.length s) (s +:+ r) = s.
Proof. induction s as [|a s IH]; simpl; [destruct r; reflexivity|]. rewrite IH. reflexivity. Qed.

Lemma take_all (s : string) (n : nat) :
  (String.length s <= n)%nat -> JsString.take n s = s.
Proof.
  revert n. induction s as [|a s IH]; intros n Hn; destruct n; simpl in *;
    try reflexivity; try lia.
  rewrite IH by lia. reflexivity.
Qed.

Lemma indexOf_le_length (s : string) (c : ascii) :
  JsString.indexOf s c <= Z.of_nat (String.length s).
Proof.
  induction s as [|a s IH]; simpl String.length; simpl JsString.indexOf; [lia|].
  destruct (Ascii.eqb a c); [lia|].
  destruct (Z.eqb_spec (JsString.indexOf s c) (-1)); lia.
Qed.

Lemma take_indexOf (s : string) (c : ascii) :
  JsString.indexOf s c <> -1 ->
  JsString.take (Z.to_nat (JsString.indexOf s c)) s = take_before c s.
Proof.
  induction s as [|a s IH]; simpl; [reflexivity|].
  destruct (Ascii.eqb a c); [reflexivity|].
  pose proof (indexOf_ge s c).
  destruct (Z.eqb_spec (JsString.indexOf s c) (-1)) as [E|E]; [lia|].
  intros _. replace (Z.to_nat (JsString.indexOf s c + 1)) with (S (Z.to_nat (JsString.indexOf s c))) by lia.
  simpl. rewrite IH by assumption. reflexivity.
Qed.

Lemma substr_indexOf (s : string) (c : ascii) :
  JsString.indexOf s c <> -1 ->
  JsString.substr s 0 (JsString.indexOf s c) = take_before c s.
Proof.
  intros Hi. unfold JsString.substr.
  pose proof (indexOf_ge s c). pose proof (indexOf_le_length s c).
  change (0 <? 0) with false. cbv iota.
  rewrite (Z.min_l 0) by lia. change (Z.to_nat 0) with 0%nat.
  replace (JsString.drop 0 s) with s by (destruct s; reflexivity).
  replace (Z.min _ _) with (JsString.indexOf s c) by lia.
  apply take_indexOf. exact Hi.
Qed.

Lemma substr_absent (s : string) : JsString.substr s 0 (-1) = "".
Proof.
  unfold JsString.substr. change (0 <? 0) with false. cbv iota.
  change (Z.max (-1) 0) with 0.
  replace (Z.min 0 (Z.of_nat (String.length s) - _)) with 0 by lia.
  reflexivity.
Qed.





(** ** Dispatch *)

Section Dispatch.
Context {RegExp : Type} `{E : RegExpEngine RegExp} `{P : Platform} `{T : TypeSystem}.

Lemma run_routes_selection (codes : list (RouteCode RegExp)) (_method _path : string)
    (q1 q2 : value) :
  option_map selection (run_routes codes _method _path q1)
  = option_map selection (run_routes codes _method _path q2).
Proof.
  induction codes as [|code codes IH]; simpl; [reflexivity|].
  destruct (run_route code _method _path); [reflexivity|exact IH].
Qed.


Lemma run_routes_some (codes : list (RouteCode RegExp)) (_method _path : string)
    (_query : value) (r : ResolvedController) :
  run_routes codes _method _path _query = Some r ->
  exists i code m,
    codes !! i = Some code /\ run_route code _method _path = Some m /\
    (forall j c, (j < i)%nat -> codes !! j = Some c -> run_route c _method _path = None) /\
    r = resolution code m _query.
Proof.
  induction codes as [|c0 codes IH]; simpl; [discriminate|].
  destruct (run_route c0 _method _path) as [m|] eqn:E0.
  - intros [= <-]. exists 0%nat, c0, m. repeat split; try assumption.
    intros j c Hj. lia.
  - intros Hr. destruct (IH Hr) as (i & code & m & Hi & Hm & Hb & ->).
    exists (S i), code, m. repeat split; try assumption.
    intros [|j] c Hj Hc; simpl in Hc.
    + injection Hc as <-. exact E0.
    + apply (Hb j c); [lia|exact Hc].
Qed.

Lemma run_routes_none (codes : list (RouteCode RegExp)) (_method _path : string) (_query : value) :
  run_routes codes _method _path _query = None <->
  Forall (fun c => run_route c _method _path = None) codes.
Proof.
  induction codes as [|c0 codes IH]; simpl.
  - split; [constructor|reflexivity].
  - destruct (run_route c0 _method _path) eqn:E0.
    + split; [discriminate|]. intros HF. inversion HF; congruence.
    + rewrite IH. split; [intros HF; constructor; assumption|intros HF; inversion HF; assumption].
Qed.

End Dispatch.

Section Compilation.
Context {RegExp : Type} `{E : RegExpEngine RegExp} `{P : Platform} `{T : TypeSystem}.

Lemma parameters_loop_throws (custom : option nat) (ps : list ParsedRouteParameter)
    (i : nat) (st : CompilerContext * CodeParts) :
  parameters_loop custom i ps st =
    match class_error custom i ps with
    | Some e => Throw e
    | None => Return (parts_loop custom i ps st)
    end.
Proof.
  revert i st. induction ps as [|p ps IH]; intros i [compiler parts]; [reflexivity|].
  cbn [parameters_loop class_error parts_loop].
  unfold parameter_code, parameter_parts, binding_of, reserveVariable.
  destruct (regexPosition p) as [position|]; [apply IH|].
  destruct (decide (custom = Some i)); [apply IH|].
  destruct (is_body p); [apply IH|].
  destruct (is_query p); [apply IH|].
  destruct (getResolvedClassType (property p)) as [c|e]; [apply IH|reflexivity].
Qed.

Lemma getRouteCode_inv (compiler compiler' : CompilerContext)
    (routeConfig : RouteConfig.t) (code : RouteCode RegExp) :
  getRouteCode compiler routeConfig = Return (code, compiler') ->
  exists re,
    RegExp_new (route_regex_source routeConfig) = Some re /\
    code_method code = JsString.toLowerCase (RouteConfig.httpMethod routeConfig) /\
    code_routeConfig code = routeConfig /\
    code_matcher code =
      (if (0 <? length (getParameters (parseRouteControllerAction routeConfig)))%nat
       then PrefixAndRegex (route_prefix routeConfig) re
       else ExactPath (RouteConfig.getFullPath routeConfig)) /\
    code_parameters code =
      match setParameters (route_parts compiler routeConfig) with
      | [] => None
      | _ => Some {| requiresAsyncParameters := enableParseBody (route_parts compiler routeConfig);
                     parameters_code := route_parts compiler routeConfig |}
      end.
Proof.
  unfold getRouteCode, route_regex_source, route_parts, route_prefix, reserveVariable.
  simpl snd.
  destruct (RegExp_new _) as [re|]; [|discriminate].
  rewrite parameters_loop_throws.
  destruct (class_error _ _ _); [discriminate|].
  destruct (parts_loop _ _ _ _) as [c3 parts] eqn:E3. simpl snd.
  intros [= <- _]. exists re. simpl. repeat split; reflexivity.
Qed.

Lemma getRouteCode_fails (compiler : CompilerContext) (routeConfig : RouteConfig.t)
    (e : Exception) :
  getRouteCode compiler routeConfig = Throw e <-> route_error routeConfig = Some e.
Proof.
  unfold getRouteCode, route_error, route_class_error, route_regex_source, reserveVariable.
  destruct (RegExp_new _) as [re|].
  - rewrite parameters_loop_throws.
    destruct (class_error _ _ _) as [e'|].
    + split; intros [= <-]; reflexivity.
    + destruct (parts_loop _ _ _ _) as [c3 parts]. split; discriminate.
  - split; intros [= <-]; reflexivity.
Qed.

Lemma getRouteCode_succeeds (compiler : CompilerContext) (rc : RouteConfig.t) :
  route_error rc = None <->
  exists code compiler', getRouteCode compiler rc = Return (code, compiler').
Proof.
  destruct (getRouteCode compiler rc) as [[code c']|e] eqn:Hc.
  - split; [intros _; eexists _, _; reflexivity|]. intros _.
    destruct (route_error rc) as [e|] eqn:He; [|reflexivity].
    apply getRouteCode_fails with (compiler := compiler) in He. congruence.
  - apply getRouteCode_fails in Hc. rewrite Hc. split; [discriminate|].
    intros (code & c' & H). discriminate H.
Qed.



(** Each compiled route is [getRouteCode] of the route at the same index. *)
Lemma build_loop_lookup (compiler : CompilerContext) (routes : list RouteConfig.t)
    (codes : list (RouteCode RegExp)) (i : nat) (code : RouteCode RegExp) :
  build_loop compiler routes = Return codes ->
  codes !! i = Some code ->
  exists c c', routes !! i = Some (code_routeConfig code) /\
               getRouteCode c (code_routeConfig code) = Return (code, c').
Proof.
  revert compiler codes i. induction routes as [|rc routes IH]; intros compiler codes i; simpl.
  - intros [= <-]. discriminate.
  - destruct (getRouteCode compiler rc) as [[code0 c']|] eqn:Ec; [|discriminate].
    destruct (build_loop c' routes) as [codes'|] eqn:Eb; [|discriminate].
    intros [= <-]. destruct i as [|i]; simpl.
    + intros [= <-]. exists compiler, c'.
      destruct (getRouteCode_inv _ _ _ _ Ec) as (re & _ & _ & Hrc & _).
      rewrite Hrc. split; [reflexivity|exact Ec].
    + intros Hi. exact (IH _ _ _ Eb Hi).
Qed.

Lemma fn_consistent_empty : fn_consistent empty_router.
Proof. intros codes. discriminate. Qed.

Lemma fn_consistent_addRoute (rc : RouteConfig.t) (r : Router RegExp) :
  fn_consistent (addRoute rc r).
Proof. intros codes. discriminate. Qed.

Lemma fn_consistent_resolveRequest (request : HttpRequest) (r : Router RegExp) :
  fn_consistent r -> fn_consistent (fst (resolveRequest request r)).
Proof.
  intros Hr. unfold resolveRequest.
  destruct (fn r) as [codes|] eqn:Ef; [exact Hr|].
  destruct (build (routes r)) as [codes|] eqn:Eb; [|exact Hr].
  intros codes' [= <-]. exact Eb.
Qed.

Lemma fn_consistent_resolveUrl (name : string) (parameters : gmap string value) (r : Router RegExp) :
  fn_consistent r -> fn_consistent (fst (resolveUrl name parameters r)).
Proof.
  intros Hr. unfold resolveUrl.
  destruct (resolveFn r); [exact Hr|]. destruct (buildUrlResolver (routes r)); exact Hr.
Qed.

Lemma resolveUrl_routes (name : string) (parameters : gmap string value) (r : Router RegExp) :
  routes (fst (resolveUrl name parameters r)) = routes r.
Proof.
  unfold resolveUrl. destruct (resolveFn r); [reflexivity|].
  destruct (buildUrlResolver (routes r)); reflexivity.
Qed.

(** On a consistent router [resolveRequest] runs the code built from the
    current routes. *)
Lemma resolveRequest_build (request : HttpRequest) (r : Router RegExp) :
  fn_consistent r ->
  snd (resolveRequest request r) =
    match build (routes r) with
    | Return codes => Return (run_fn codes request)
    | Throw e => Throw e
    end.
Proof.
  intros Hr. unfold resolveRequest.
  destruct (fn r) as [codes|] eqn:Ef.
  - rewrite (Hr codes Ef). reflexivity.
  - destruct (build (routes r)); reflexivity.
Qed.

End Compilation.

(** ** Precedence and the query string *)

Section Precedence.
Context {RegExp : Type} `{E : RegExpEngine RegExp} `{P : Platform} `{T : TypeSystem}.


(** C10. Two requests with the same method whose URLs agree before the
    first [?] select the same route, with the same [parameters] function and
    the same match (or are both unmatched, or both fail to build); the
    router is left in the same state. *)
Theorem selection_ignores_query (r : Router RegExp) (method url1 url2 : string) :
  url_path url1 = url_path url2 ->
  selected (snd (resolve method url1 r)) = selected (snd (resolve method url2 r)) /\
  fst (resolve method url1 r) = fst (resolve method url2 r).
Proof.
  intros Hp. unfold resolve, resolveRequest.
  destruct (fn r) as [codes|].
  - simpl. split; [|reflexivity]. f_equal. unfold run_fn. simpl. rewrite Hp.
    apply run_routes_selection.
  - destruct (build (routes r)) as [codes|e]; simpl; [|split; reflexivity].
    split; [|reflexivity]. f_equal. unfold run_fn. simpl. rewrite Hp.
    apply run_routes_selection.
Qed.

End Precedence.

Section PrecedenceWitnesses.
#[local] Existing Instances mini_regexp posix demo_types.


Lemma selection_ignores_query_witness :
  selected (snd (resolve "GET" "/users/me?tab=posts" (demo_router overlapping_routes)))
  = selected (snd (resolve "GET" "/users/me" (demo_router overlapping_routes))).
Proof.
  apply (selection_ignores_query (demo_router overlapping_routes)). vm_compute. reflexivity.
Defined.

End PrecedenceWitnesses.

(** ** URL resolution by name, and the two caches *)

Section UrlResolution.
Context {RegExp : Type} `{E : RegExpEngine RegExp} `{P : Platform} `{T : TypeSystem}.

Lemma well_formed_case_resolvable (rc : RouteConfig.t) :
  well_formed_case (getRouteUrlResolveCode rc) = resolvable rc.
Proof.
  unfold well_formed_case, resolvable, getRouteUrlResolveCode. cbn [case_url].
  induction (tokens (RouteConfig.getFullPath rc)) as [|[c|n] ps IH]; simpl;
    [reflexivity|exact IH|rewrite IH; reflexivity].
Qed.

Lemma buildUrlResolver_spec (rs : list RouteConfig.t) :
  buildUrlResolver rs =
    if forallb resolvable rs then Return (map getRouteUrlResolveCode rs)
    else Throw CouldNotBuildFunction.
Proof.
  unfold buildUrlResolver.
  assert (H : forallb well_formed_case (map getRouteUrlResolveCode rs) = forallb resolvable rs).
  { induction rs as [|rc rs IH]; [reflexivity|].
    simpl. rewrite well_formed_case_resolvable, IH. reflexivity. }
  rewrite H. reflexivity.
Qed.

Lemma buildUrlResolver_inv (rs : list RouteConfig.t) (cases : list UrlCase) :
  buildUrlResolver rs = Return cases -> cases = map getRouteUrlResolveCode rs.
Proof.
  rewrite buildUrlResolver_spec. destruct (forallb resolvable rs); [|discriminate].
  intros [= <-]. reflexivity.
Qed.

(** A resolver that cannot be built cannot be built after more routes are
    registered. *)
Lemma buildUrlResolver_app_fails (rs more : list RouteConfig.t) (e : Exception) :
  buildUrlResolver rs = Throw e -> buildUrlResolver (rs ++ more) = Throw e.
Proof.
  rewrite !buildUrlResolver_spec, forallb_app.
  destruct (forallb resolvable rs); [discriminate|]. intros H. exact H.
Qed.

Lemma run_resolveFn_first_named (rs : list RouteConfig.t) (name : string)
    (parameters : gmap string value) :
  run_resolveFn (map getRouteUrlResolveCode rs) name parameters =
    match first_named name rs with
    | Some rc => Return (run_case (getRouteUrlResolveCode rc) parameters)
    | None => Throw (NoRouteForName name)
    end.
Proof.
  unfold first_named. induction rs as [|rc rs IH]; simpl; [reflexivity|].
  destruct (String.eqb name (RouteConfig.name rc)); [reflexivity|exact IH].
Qed.

Lemma first_named_first (pre post : list RouteConfig.t) (rc : RouteConfig.t) :
  Forall (fun rc' => RouteConfig.name rc' <> RouteConfig.name rc) pre ->
  first_named (RouteConfig.name rc) (pre ++ rc :: post) = Some rc.
Proof.
  unfold first_named. induction 1 as [|rc' pre Hne _ IH]; simpl.
  - rewrite String.eqb_refl. reflexivity.
  - destruct (String.eqb_spec (RouteConfig.name rc) (RouteConfig.name rc')) as [Heq|_];
      [|exact IH]. symmetry in Heq. contradiction.
Qed.

Lemma first_named_none (name : string) (rs : list RouteConfig.t) :
  Forall (fun rc => RouteConfig.name rc <> name) rs -> first_named name rs = None.
Proof.
  unfold first_named. induction 1 as [|rc rs Hne _ IH]; simpl; [reflexivity|].
  destruct (String.eqb_spec name (RouteConfig.name rc)) as [Heq|_]; [|exact IH].
  symmetry in Heq. contradiction.
Qed.

(** Calls on a router that holds a resolver keep it, and add their routes. *)
Lemma apply_operations_resolveFn (ops : list operation) (r : Router RegExp)
    (cases : list UrlCase) :
  resolveFn r = Some cases ->
  resolveFn (apply_operations ops r) = Some cases /\
  routes (apply_operations ops r) = routes r ++ added_routes ops.
Proof.
  revert r. induction ops as [|o ops IH]; intros r Hr; simpl.
  - split; [exact Hr|]. symmetry. apply app_nil_r.
  - destruct o as [rc|n p|q]; simpl.
    + destruct (IH (addRoute rc r)) as [H1 H2]; [exact Hr|].
      split; [exact H1|]. rewrite H2. simpl. rewrite <- app_assoc. reflexivity.
    + destruct (IH (fst (resolveUrl n p r))) as [H1 H2].
      { unfold resolveUrl. rewrite Hr. exact Hr. }
      split; [exact H1|]. rewrite H2, resolveUrl_routes. reflexivity.
    + destruct (IH (fst (resolveRequest q r))) as [H1 H2].
      { unfold resolveRequest. destruct (fn r); [exact Hr|].
        destruct (build (routes r)); exact Hr. }
      split; [exact H1|]. rewrite H2. f_equal.
      unfold resolveRequest. destruct (fn r); [reflexivity|].
      destruct (build (routes r)); reflexivity.
Qed.

Lemma apply_operations_consistent (ops : list operation) (r : Router RegExp) :
  fn_consistent r -> fn_consistent (apply_operations ops r).
Proof.
  revert r. induction ops as [|o ops IH]; intros r Hr; simpl; [exact Hr|].
  apply IH. destruct o as [rc|n p|q]; simpl.
  - apply fn_consistent_addRoute.
  - apply (fn_consistent_resolveUrl n p r Hr).
  - apply (fn_consistent_resolveRequest q r Hr).
Qed.

Lemma resolveRequest_resolveFn (request : HttpRequest) (r : Router RegExp) :
  resolveFn (fst (resolveRequest request r)) = resolveFn r /\
  routes (fst (resolveRequest request r)) = routes r.
Proof.
  unfold resolveRequest. destruct (fn r); [split; reflexivity|].
  destruct (build (routes r)); split; reflexivity.
Qed.

Lemma apply_operations_routes (ops : list operation) (r : Router RegExp) :
  routes (apply_operations ops r) = routes r ++ added_routes ops.
Proof.
  revert r. induction ops as [|o ops IH]; intros r; simpl.
  - symmetry. apply app_nil_r.
  - rewrite IH. destruct o as [rc|n p|q]; simpl.
    + rewrite <- app_assoc. reflexivity.
    + rewrite resolveUrl_routes. reflexivity.
    + rewrite (proj2 (resolveRequest_resolveFn q r)). reflexivity.
Qed.

(** The resolver is built by the first [resolveUrl], from the routes
    registered by then, and kept; when it cannot be built, no later call
    can build it. *)
Lemma resolveUrl_after (ops : list operation) (r : Router RegExp) (name : string)
    (parameters : gmap string value) :
  resolveFn r = None ->
  snd (resolveUrl name parameters (apply_operations ops r)) =
    match buildUrlResolver (resolver_routes (routes r) ops) with
    | Return cases => run_resolveFn cases name parameters
    | Throw e => Throw e
    end.
Proof.
  unfold resolver_routes. revert r. induction ops as [|o ops IH]; intros r Hr.
  - simpl. rewrite app_nil_r. unfold resolveUrl. rewrite Hr.
    destruct (buildUrlResolver (routes r)); reflexivity.
  - destruct o as [rc|n p|q]; cbn [apply_operations fold_left apply_operation before_resolveUrl].
    + change (fold_left apply_operation ops (addRoute rc r))
        with (apply_operations ops (addRoute rc r)).
      rewrite (IH (addRoute rc r) Hr). simpl. rewrite <- app_assoc. reflexivity.
    + change (fold_left apply_operation ops (fst (resolveUrl n p r)))
        with (apply_operations ops (fst (resolveUrl n p r))).
      simpl added_routes. rewrite app_nil_r.
      destruct (buildUrlResolver (routes r)) as [cases|e] eqn:Hb.
      * assert (H1 : resolveFn (fst (resolveUrl n p r)) = Some cases).
        { unfold resolveUrl. rewrite Hr, Hb. reflexivity. }
        destruct (apply_operations_resolveFn ops _ _ H1) as [H2 _].
        unfold resolveUrl at 1. rewrite H2. reflexivity.
      * assert (H1 : fst (resolveUrl n p r) = r).
        { unfold resolveUrl. rewrite Hr, Hb. reflexivity. }
        rewrite H1, (IH r Hr).
        rewrite (buildUrlResolver_app_fails _ _ _ Hb). reflexivity.
    + change (fold_left apply_operation ops (fst (resolveRequest q r)))
        with (apply_operations ops (fst (resolveRequest q r))).
      destruct (resolveRequest_resolveFn q r) as [H1 H2].
      rewrite (IH (fst (resolveRequest q r))) by (rewrite H1; exact Hr).
      rewrite H2. reflexivity.
Qed.

(** C2, as the code has it. [resolveUrl] builds its resolver on the first
    call, from the routes registered by then, and keeps it.  On every router
    (one that starts with the routes [rs] and no resolver and has received
    the calls [ops]) [resolveUrl] resolves a name against the route
    registered first under that name among the routes the resolver was
    built from, not against the one registered last; a name none of them
    carries is not found, and a resolver that cannot be built makes every
    call throw. *)
Theorem resolveUrl_first_registered (rs : list RouteConfig.t) (ops : list operation)
    (routeName : string) (parameters : gmap string value) :
  snd (resolveUrl routeName parameters (apply_operations ops (router_of (RegExp := RegExp) rs)))
    = match buildUrlResolver (resolver_routes rs ops) with
      | Throw e => Throw e
      | Return _ =>
          match first_named routeName (resolver_routes rs ops) with
          | Some rc => Return (run_case (getRouteUrlResolveCode rc) parameters)
          | None => Throw (NoRouteForName routeName)
          end
      end.
Proof.
  rewrite (resolveUrl_after ops (router_of rs) routeName parameters eq_refl).
  cbn [router_of routes].
  destruct (buildUrlResolver (resolver_routes rs ops)) as [cases|e] eqn:Hb; [|reflexivity].
  apply buildUrlResolver_inv in Hb as ->. apply run_resolveFn_first_named.
Qed.

(** C9. [addRoute] clears [fn] and keeps [resolveFn].  Once [resolveUrl] has
    built the resolver, every later [resolveUrl], after any calls of
    [addRoute], [resolveUrl] and [resolveRequest], resolves against the
    routes of that first call: a name only routes added later carry is not
    found, while [resolveRequest] dispatches on all the routes.  (A resolver
    that cannot be built is not kept; then no later call can build it.) *)
Theorem addRoute_keeps_url_resolver (r : Router RegExp) (routeName : string)
    (parameters : gmap string value) (ops : list operation)
    (routeName' : string) (parameters' : gmap string value) (request : HttpRequest) :
  resolveFn r = None ->
  fn_consistent r ->
  let r1 := fst (resolveUrl routeName parameters r) in
  let r2 := apply_operations ops r1 in
  (forall rc (r' : Router RegExp), fn (addRoute rc r') = None /\ resolveFn (addRoute rc r') = resolveFn r') /\
  routes r2 = routes r ++ added_routes ops /\
  snd (resolveUrl routeName' parameters' r2)
    = match buildUrlResolver (routes r) with
      | Return cases => run_resolveFn cases routeName' parameters'
      | Throw e => Throw e
      end /\
  (Forall (fun rc => RouteConfig.name rc <> routeName') (routes r) ->
   snd (resolveUrl routeName' parameters' r2)
     = match buildUrlResolver (routes r) with
       | Return _ => Throw (NoRouteForName routeName')
       | Throw e => Throw e
       end) /\
  snd (resolveRequest request r2)
    = match build (routes r ++ added_routes ops) with
      | Return codes => Return (run_fn codes request)
      | Throw e => Throw e
      end.
Proof.
  intros Hfn Hcons r1 r2.
  assert (Hops : r2 = apply_operations (ResolveUrl routeName parameters :: ops) r)
    by reflexivity.
  assert (Hurl : snd (resolveUrl routeName' parameters' r2)
                 = match buildUrlResolver (routes r) with
                   | Return cases => run_resolveFn cases routeName' parameters'
                   | Throw e => Throw e
                   end).
  { rewrite Hops, (resolveUrl_after _ r _ _ Hfn). unfold resolver_routes. simpl.
    rewrite app_nil_r. reflexivity. }
  assert (H3 : routes r2 = routes r ++ added_routes ops).
  { unfold r2. rewrite apply_operations_routes. unfold r1.
    rewrite resolveUrl_routes. reflexivity. }
  split; [intros rc r'; split; reflexivity|].
  split; [exact H3|]. split; [exact Hurl|]. split.
  - intros Hnames. rewrite Hurl.
    destruct (buildUrlResolver (routes r)) as [cases|e] eqn:Hb; [|reflexivity].
    apply buildUrlResolver_inv in Hb as ->.
    rewrite run_resolveFn_first_named, (first_named_none _ _ Hnames). reflexivity.
  - rewrite resolveRequest_build.
    + rewrite H3. reflexivity.
    + apply apply_operations_consistent.
      apply (fn_consistent_resolveUrl routeName parameters r Hcons).
Qed.

End UrlResolution.

Section UrlResolutionWitnesses.
#[local] Existing Instances mini_regexp posix demo_types.

(** C2 fails as stated: of two routes named [page], registered for [/first]
    and then for [/second], [resolveUrl] answers with the first, not with
    the one registered last; and when both are registered after the first
    [resolveUrl], it knows neither. *)
Lemma resolveUrl_last_registered_counterexample :
  snd (resolveUrl "page" ∅ (demo_router same_name_routes)) = Return "/first" /\
  last same_name_routes = Some (demo_route "page" "GET" "/second" "none") /\
  snd (resolveUrl "page" ∅ (demo_router same_name_routes))
    <> Return (run_case (getRouteUrlResolveCode (demo_route "page" "GET" "/second" "none")) ∅) /\
  snd (resolveUrl "page" ∅
         (apply_operations
            [ResolveUrl "home" ∅;
             AddRoute (demo_route "page" "GET" "/first" "none");
             AddRoute (demo_route "page" "GET" "/second" "none")]
            (demo_router [])))
    = Throw (NoRouteForName "page").
Proof.
  split; [vm_compute; reflexivity|]. split; [reflexivity|]. split.
  - vm_compute. intros H. discriminate H.
  - vm_compute. reflexivity.
Qed.

Lemma resolveUrl_first_registered_witness :
  snd (resolveUrl "page" ∅
         (apply_operations
            [AddRoute (demo_route "page" "GET" "/third" "none");
             ResolveUrl "page" ∅;
             AddRoute (demo_route "late" "GET" "/late" "none")]
            (demo_router same_name_routes)))
    = Return "/first" /\
  snd (resolveUrl "late" ∅
         (apply_operations
            [AddRoute (demo_route "page" "GET" "/third" "none");
             ResolveUrl "page" ∅;
             AddRoute (demo_route "late" "GET" "/late" "none")]
            (demo_router same_name_routes)))
    = Throw (NoRouteForName "late").
Proof.
  split.
  - rewrite (resolveUrl_first_registered (RegExp := MiniRegExp.re * nat) same_name_routes
               [AddRoute (demo_route "page" "GET" "/third" "none");
                ResolveUrl "page" ∅;
                AddRoute (demo_route "late" "GET" "/late" "none")] "page" ∅).
    vm_compute. reflexivity.
  - rewrite (resolveUrl_first_registered (RegExp := MiniRegExp.re * nat) same_name_routes
               [AddRoute (demo_route "page" "GET" "/third" "none");
                ResolveUrl "page" ∅;
                AddRoute (demo_route "late" "GET" "/late" "none")] "late" ∅).
    vm_compute. reflexivity.
Defined.
Lemma addRoute_keeps_url_resolver_witness :
  snd (resolveUrl "me" ∅
         (apply_operations [AddRoute (demo_route "me" "GET" "/me" "none")]
            (fst (resolveUrl "page" ∅ (demo_router same_name_routes)))))
    = Throw (NoRouteForName "me") /\
  selected (snd (resolveRequest {| getMethod := "GET"; getUrl := "/me" |}
         (apply_operations [AddRoute (demo_route "me" "GET" "/me" "none")]
            (fst (resolveUrl "page" ∅ (demo_router same_name_routes))))))
    = Return (Some (demo_route "me" "GET" "/me" "none", None, [])).
Proof.
  pose proof (addRoute_keeps_url_resolver (demo_router same_name_routes) "page" ∅
                [AddRoute (demo_route "me" "GET" "/me" "none")] "me" ∅
                {| getMethod := "GET"; getUrl := "/me" |} eq_refl
                (fun codes Hc => ltac:(discriminate Hc))) as (_ & _ & _ & Hgone & Hreq).
  split.
  - refine (eq_trans (Hgone _) _).
    + repeat constructor; vm_compute; intros H; discriminate H.
    + vm_compute. reflexivity.
  - rewrite Hreq. vm_compute. reflexivity.
Defined.

End UrlResolutionWitnesses.

(** ** Parsed routes *)

Section ParsedRoutes.
Context {RegExp : Type} `{E : RegExpEngine RegExp} `{P : Platform} `{T : TypeSystem}.

Lemma parseRouteControllerAction_fold (rc : RouteConfig.t)
    (props : list PropertySchema.t) (init : ParsedRoute) :
  let step := fun (parsedRoute : ParsedRoute) (property : PropertySchema.t) =>
    let decoratorData := RouteConfig.parameters rc !! PropertySchema.name property in
    let property :=
      match decoratorData with
      | Some d => if RouteParameterConfig.optional d
                  then PropertySchema.set_isOptional true property else property
      | None => property
      end in
    let parsedParameter :=
      {| property := property; config := decoratorData;
         regexPosition :=
           parameterNames (parseRoutePathToRegex rc) !! PropertySchema.name property |} in
    {| routeConfig := rc;
       regex := regex parsedRoute;
       customValidationErrorHandling :=
         if is_sink_type property
         then Some (length (getParameters parsedRoute))
         else customValidationErrorHandling parsedRoute;
       getParameters := getParameters parsedRoute ++ [parsedParameter] |} in
  let result := fold_left step props init in
  getParameters result = getParameters init ++ map (parsed_parameter rc) props /\
  regex result = regex init /\
  customValidationErrorHandling result
    = last_sink (length (getParameters init)) (map (parsed_parameter rc) props)
                (customValidationErrorHandling init).
Proof.
  intros step. revert init. induction props as [|p props IH]; intros init; simpl.
  - split; [symmetry; apply app_nil_r|]. split; reflexivity.
  - destruct (IH (step init p)) as (H1 & H2 & H3).
    split; [|split].
    + rewrite H1. unfold step at 1. simpl. rewrite <- app_assoc. reflexivity.
    + rewrite H2. reflexivity.
    + rewrite H3. unfold step. simpl. rewrite length_app. simpl.
      replace (length (getParameters init) + 1)%nat with (S (length (getParameters init))) by lia.
      reflexivity.
Qed.

Lemma parseRouteControllerAction_parameters (rc : RouteConfig.t) :
  getParameters (parseRouteControllerAction rc)
    = map (parsed_parameter rc) (handler_properties rc).
Proof.
  unfold parseRouteControllerAction, handler_properties.
  apply (parseRouteControllerAction_fold rc _
           {| routeConfig := rc; regex := parsed_regex (parseRoutePathToRegex rc);
              customValidationErrorHandling := None; getParameters := [] |}).
Qed.

Lemma parseRouteControllerAction_regex (rc : RouteConfig.t) :
  regex (parseRouteControllerAction rc) = parsed_regex (parseRoutePathToRegex rc).
Proof.
  unfold parseRouteControllerAction.
  apply (parseRouteControllerAction_fold rc _
           {| routeConfig := rc; regex := parsed_regex (parseRoutePathToRegex rc);
              customValidationErrorHandling := None; getParameters := [] |}).
Qed.

Lemma parseRouteControllerAction_custom (rc : RouteConfig.t) :
  customValidationErrorHandling (parseRouteControllerAction rc)
    = last_sink 0 (map (parsed_parameter rc) (handler_properties rc)) None.
Proof.
  unfold parseRouteControllerAction, handler_properties.
  apply (parseRouteControllerAction_fold rc _
           {| routeConfig := rc; regex := parsed_regex (parseRoutePathToRegex rc);
              customValidationErrorHandling := None; getParameters := [] |}).
Qed.

Lemma parts_loop_length (custom : option nat) (ps : list ParsedRouteParameter)
    (i : nat) (st : CompilerContext * CodeParts) :
  length (setParameters (snd (parts_loop custom i ps st)))
    = (length (setParameters (snd st)) + length ps)%nat.
Proof.
  revert i st. induction ps as [|p ps IH]; intros i st; simpl; [lia|].
  rewrite IH. destruct st as [c parts]. unfold parameter_parts.
  destruct (regexPosition p); [simpl; rewrite length_app; simpl; lia|].
  destruct (decide (custom = Some i)); [simpl; rewrite length_app; simpl; lia|].
  destruct (is_body p); [simpl; rewrite length_app; simpl; lia|].
  destruct (is_query p); simpl; rewrite length_app; simpl; lia.
Qed.

Lemma lower_method_matches (code : RouteCode RegExp) (method _path : string) :
  run_route code (JsString.toLowerCase method) _path
    = if String.eqb (JsString.toLowerCase method) (code_method code)
      then run_matcher (code_matcher code) _path else None.
Proof. reflexivity. Qed.

(** C3, as the code has it. What selects the exact comparison is that the
    handler declares no parameters, not that the template has no tokens: a
    route whose handler has no parameters is matched by comparing the path
    with the full path, and matches exactly when the paths are equal and the
    methods are equal up to case; a route whose handler has parameters is
    matched by prefix and regular expression. *)
Theorem exact_match_without_parameters (compiler compiler' : CompilerContext)
    (rc : RouteConfig.t) (code : RouteCode RegExp) :
  getRouteCode compiler rc = Return (code, compiler') ->
  (handler_properties rc = [] ->
   code_matcher code = ExactPath (RouteConfig.getFullPath rc) /\
   code_parameters code = None /\
   forall method _path,
     is_Some (run_route code (JsString.toLowerCase method) _path) <->
     _path = RouteConfig.getFullPath rc /\
     JsString.toLowerCase method = JsString.toLowerCase (RouteConfig.httpMethod rc)) /\
  (handler_properties rc <> [] ->
   exists re, code_matcher code = PrefixAndRegex (route_prefix rc) re).
Proof.
  intros Hc. destruct (getRouteCode_inv _ _ _ _ Hc) as (re & _ & Hm & _ & Hmat & Hpar).
  rewrite parseRouteControllerAction_parameters, length_map in Hmat.
  split.
  - intros Hnil. rewrite Hnil in Hmat. simpl in Hmat.
    assert (Hset : setParameters (route_parts compiler rc) = []).
    { apply length_zero_iff_nil. unfold route_parts.
      rewrite parts_loop_length, parseRouteControllerAction_parameters, Hnil.
      reflexivity. }
    rewrite Hset in Hpar. split; [exact Hmat|]. split; [exact Hpar|].
    intros method _path. rewrite lower_method_matches, Hm, Hmat. simpl.
    destruct (String.eqb_spec (JsString.toLowerCase method)
                (JsString.toLowerCase (RouteConfig.httpMethod rc))) as [Heq|Hne].
    + destruct (String.eqb_spec _path (RouteConfig.getFullPath rc)) as [Hp|Hp].
      * split; [intros _; split; assumption|intros _; eexists; reflexivity].
      * split; [intros [x Hx]; discriminate|intros [Hp' _]; contradiction].
    + split; [intros [x Hx]; discriminate|intros [_ Hm']; contradiction].
  - intros Hne. exists re. rewrite Hmat.
    destruct (handler_properties rc); [contradiction|reflexivity].
Qed.

End ParsedRoutes.

Section ExactMatchWitnesses.
#[local] Existing Instances mini_regexp posix demo_types.

(** C3 fails as stated: the template [/a.b] has no token, yet the route is
    compiled to a regular expression, because its handler has a parameter;
    it matches the path [/aXb], which is not its full path. *)
Lemma exact_match_counterexample :
  has_tokens (RouteConfig.getFullPath dotted_route) = false /\
  exists code compiler' re,
    getRouteCode {| reserved := 0 |} dotted_route = Return (code, compiler') /\
    code_matcher code = PrefixAndRegex "" re /\
    run_route code (JsString.toLowerCase "GET") "/aXb" = Some [Some "/aXb"] /\
    "/aXb" <> RouteConfig.getFullPath dotted_route.
Proof.
  split; [reflexivity|].
  eexists _, _, _. split; [vm_compute; reflexivity|].
  split; [reflexivity|]. split; [vm_compute; reflexivity|].
  vm_compute. intros H. discriminate H.
Qed.

Lemma exact_match_without_parameters_witness :
  exists code compiler',
    getRouteCode {| reserved := 0 |} (demo_route "me" "get" "/users/me" "none")
      = Return (code, compiler') /\
    code_matcher (RegExp := MiniRegExp.re * nat) code = ExactPath "/users/me" /\
    is_Some (run_route code (JsString.toLowerCase "GET") "/users/me").
Proof.
  eexists _, _.
  assert (Hc : getRouteCode {| reserved := 0 |} (demo_route "me" "get" "/users/me" "none")
               = Return (_, _)) by (vm_compute; reflexivity).
  split; [exact Hc|].
  destruct (exact_match_without_parameters _ _ _ _ Hc) as [Hexact _].
  destruct (Hexact eq_refl) as (Hm & _ & Hiff).
  split; [exact Hm|]. apply Hiff. split; reflexivity.
Defined.

End ExactMatchWitnesses.

(** ** The path template compiler *)

Lemma last_index_lookup (name : string) (names : list string) (k : nat) :
  last_index name names = Some k -> names !! k = Some name.
Proof.
  revert k. induction names as [|n names IH]; intros k; simpl; [discriminate|].
  destruct (last_index name names) as [k'|].
  - intros [= <-]. simpl. apply IH. reflexivity.
  - destruct (String.eqb_spec n name) as [->|_]; [|discriminate].
    intros [= <-]. reflexivity.
Qed.

Lemma last_index_none (name : string) (names : list string) :
  last_index name names = None <-> forall j, names !! j <> Some name.
Proof.
  induction names as [|n names IH]; simpl.
  - split; [intros _ j; discriminate|reflexivity].
  - destruct (last_index name names) as [k'|] eqn:El.
    + split; [discriminate|]. intros H. exfalso.
      apply (H (S k')). simpl. apply last_index_lookup. exact El.
    + destruct (String.eqb_spec n name) as [->|Hne].
      * split; [discriminate|]. intros H. exfalso. apply (H 0%nat). reflexivity.
      * split; [|reflexivity]. intros _ [|j]; simpl.
        -- congruence.
        -- apply IH. reflexivity.
Qed.

Lemma last_index_last (name : string) (names : list string) (k j : nat) :
  last_index name names = Some k -> (k < j)%nat -> names !! j <> Some name.
Proof.
  revert k j. induction names as [|n names IH]; intros k j; simpl; [discriminate|].
  destruct (last_index name names) as [k'|] eqn:El.
  - intros [= <-] Hj. destruct j as [|j]; [lia|]. simpl. apply (IH k'); [reflexivity|lia].
  - destruct (String.eqb_spec n name) as [->|_]; [|discriminate].
    intros [= <-] Hj. destruct j as [|j]; [lia|]. simpl.
    apply last_index_none. exact El.
Qed.

Lemma last_index_spec (name : string) (names : list string) (k : nat) :
  last_index name names = Some k <->
  names !! k = Some name /\ forall j, (k < j)%nat -> names !! j <> Some name.
Proof.
  split.
  - intros H. split; [apply last_index_lookup, H|]. intros j. apply last_index_last, H.
  - intros [H1 H2]. destruct (last_index name names) as [k2|] eqn:El.
    + f_equal. destruct (Nat.lt_trichotomy k k2) as [Hlt|[Heq|Hgt]]; [|congruence|].
      * exfalso. apply (H2 k2 Hlt). apply last_index_lookup, El.
      * exfalso. apply (last_index_last _ _ _ _ El Hgt). exact H1.
    + exfalso. apply (proj1 (last_index_none _ _) El k). exact H1.
Qed.

Section TemplateCompiler.
Context {RegExp : Type} `{E : RegExpEngine RegExp} `{P : Platform} `{T : TypeSystem}.

(** The callback of [parseRoutePathToRegex], run over the pieces of a
    template from the names and the index reached so far. *)
Lemma replace_pieces_names (rc : RouteConfig.t) (ps : list piece)
    (names : gmap string nat) (index : nat) :
  let cb := fun '(parameterNames, argumentIndex) name =>
    ((<[name := argumentIndex]> parameterNames, S argumentIndex), token_regex rc name) in
  let '((names', index'), out) := replace_pieces cb (names, index) ps in
  out = render (token_regex rc) ps /\
  index' = (index + length (token_names ps))%nat /\
  forall name,
    names' !! name =
      match last_index name (token_names ps) with
      | Some k => Some (index + k)%nat
      | None => names !! name
      end.
Proof.
  intros cb. revert names index. induction ps as [|[c|n] ps IH]; intros names index; simpl.
  - split; [reflexivity|]. split; [lia|]. reflexivity.
  - specialize (IH names index).
    destruct (replace_pieces cb (names, index) ps) as [[names' index'] out].
    destruct IH as (H1 & H2 & H3). split; [rewrite H1; reflexivity|]. split; assumption.
  - specialize (IH (<[n := index]> names) (S index)).
    destruct (replace_pieces cb (<[n := index]> names, S index) ps) as [[names' index'] out].
    destruct IH as (H1 & H2 & H3). split; [rewrite H1; reflexivity|]. split; [lia|].
    intros name. rewrite H3.
    destruct (last_index name (token_names ps)) as [k|]; [f_equal; lia|].
    destruct (String.eqb_spec n name) as [->|Hne].
    + rewrite lookup_insert_eq. f_equal. lia.
    + rewrite lookup_insert_ne by exact Hne. reflexivity.
Qed.

Lemma parseRoutePathToRegex_regex (rc : RouteConfig.t) :
  parsed_regex (parseRoutePathToRegex rc)
    = render (token_regex rc) (tokens (RouteConfig.getFullPath rc)).
Proof.
  unfold parseRoutePathToRegex, replace_tokens.
  pose proof (replace_pieces_names rc (tokens (RouteConfig.getFullPath rc)) ∅ 0) as H.
  simpl in H.
  destruct (replace_pieces _ _ _) as [[names' index'] out]. simpl. apply H.
Qed.

Lemma parseRoutePathToRegex_names (rc : RouteConfig.t) (name : string) :
  parameterNames (parseRoutePathToRegex rc) !! name
    = last_index name (token_names (tokens (RouteConfig.getFullPath rc))).
Proof.
  unfold parseRoutePathToRegex, replace_tokens.
  pose proof (replace_pieces_names rc (tokens (RouteConfig.getFullPath rc)) ∅ 0) as H.
  simpl in H.
  destruct (replace_pieces _ _ _) as [[names' index'] out]. simpl.
  destruct H as (_ & _ & H). rewrite H.
  destruct (last_index _ _); [reflexivity|apply lookup_empty].
Qed.

(** The build stops at the first route whose compilation throws. *)
Lemma build_loop_fails (compiler : CompilerContext) (pre post : list RouteConfig.t)
    (rc : RouteConfig.t) (e : Exception) :
  Forall (fun rc' => route_error rc' = None) pre ->
  route_error rc = Some e ->
  build_loop compiler (pre ++ rc :: post) = Throw e.
Proof.
  intros Hpre Hrc. revert compiler.
  induction Hpre as [|rc' pre Hrc' _ IH]; intros compiler; simpl.
  - apply (getRouteCode_fails compiler) in Hrc. rewrite Hrc. reflexivity.
  - apply (getRouteCode_succeeds compiler) in Hrc' as (code & c' & Hc).
    rewrite Hc, IH. reflexivity.
Qed.

Lemma class_error_none (custom : option nat) (ps : list ParsedRouteParameter) (i : nat) :
  class_error custom i ps = None <->
  forall k p, ps !! k = Some p -> binding_of custom (i + k) p = Injected ->
              exists c, getResolvedClassType (property p) = Return c.
Proof.
  revert i. induction ps as [|p ps IH]; intros i; simpl.
  - split; [intros _ k p Hk; discriminate Hk|reflexivity].
  - split.
    + intros H [|k] q Hk Hb; simpl in Hk.
      * injection Hk as <-. rewrite Nat.add_0_r in Hb. rewrite Hb in H.
        destruct (getResolvedClassType (property p)) as [c|e]; [|discriminate].
        exists c. reflexivity.
      * assert (H' : class_error custom (S i) ps = None).
        { destruct (binding_of custom i p); try exact H.
          destruct (getResolvedClassType (property p)); [exact H|discriminate]. }
        apply (proj1 (IH (S i)) H' k q Hk).
        replace (S i + k)%nat with (i + S k)%nat by lia. exact Hb.
    + intros H.
      assert (H' : class_error custom (S i) ps = None).
      { apply IH. intros k q Hk Hb. apply (H (S k) q Hk).
        replace (i + S k)%nat with (S i + k)%nat by lia. exact Hb. }
      destruct (binding_of custom i p) eqn:Hb; try exact H'.
      destruct (H 0%nat p eq_refl) as [c Hc]; [rewrite Nat.add_0_r; exact Hb|].
      rewrite Hc. exact H'.
Qed.

(** C4, as the code has it. [parseRoutePathToRegex] checks nothing and
    never fails: the pattern has one group per token, and a name is mapped
    to the position of its last occurrence, so a name that occurs twice
    silently yields a pattern.  (The name [__proto__] is left out: an
    assignment to it does not make a key.)  Compiling a route throws in two
    cases only: the [RegExp] constructor rejects the pattern, or the class
    type of an injected parameter does not resolve.  [addRoute] compiles
    nothing, so either failure comes out of the first [resolveRequest] that
    builds the dispatch function. *)
Theorem parseRoutePathToRegex_total (rc : RouteConfig.t) :
  let names := token_names (tokens (RouteConfig.getFullPath rc)) in
  let parsedRoute := parseRouteControllerAction rc in
  parsed_regex (parseRoutePathToRegex rc)
    = render (token_regex rc) (tokens (RouteConfig.getFullPath rc)) /\
  (forall name k,
     name <> "__proto__" ->
     parameterNames (parseRoutePathToRegex rc) !! name = Some k <->
     names !! k = Some name /\ forall j, (k < j)%nat -> names !! j <> Some name) /\
  (forall compiler,
     (exists code compiler', getRouteCode compiler rc = Return (code, compiler')) <->
     is_Some (RegExp_new (route_regex_source rc)) /\
     forall k p, getParameters parsedRoute !! k = Some p ->
                 binding_of (customValidationErrorHandling parsedRoute) k p = Injected ->
                 exists c, getResolvedClassType (property p) = Return c) /\
  (forall compiler e,
     getRouteCode compiler rc = Throw e <->
     RegExp_new (route_regex_source rc) = None /\
     e = RegExpSyntaxError (route_regex_source rc) \/
     is_Some (RegExp_new (route_regex_source rc)) /\ route_class_error rc = Some e) /\
  (forall (r : Router RegExp) pre post request e,
     fn r = None ->
     routes r = pre ++ rc :: post ->
     Forall (fun rc' => route_error rc' = None) pre ->
     route_error rc = Some e ->
     snd (resolveRequest request r) = Throw e).
Proof.
  intros names parsedRoute. split; [apply parseRoutePathToRegex_regex|].
  split; [|split; [|split]].
  - intros name k _. rewrite parseRoutePathToRegex_names. apply last_index_spec.
  - intros compiler. rewrite <- getRouteCode_succeeds.
    unfold route_error, parsedRoute.
    rewrite <- (class_error_none _ _ 0). fold (route_class_error rc).
    destruct (RegExp_new (route_regex_source rc)) as [re|]; split.
    + intros H. split; [eexists; reflexivity|exact H].
    + intros [_ H]. exact H.
    + discriminate.
    + intros [[re Hre] _]. discriminate Hre.
  - intros compiler e. rewrite getRouteCode_fails. unfold route_error.
    destruct (RegExp_new (route_regex_source rc)) as [re|]; split.
    + intros H. right. split; [eexists; reflexivity|exact H].
    + intros [[H _]|[_ H]]; [discriminate H|exact H].
    + intros [= <-]. left. split; reflexivity.
    + intros [[_ ->]|[[re Hre] _]]; [reflexivity|discriminate Hre].
  - intros r pre post request e Hfn Hroutes Hpre Hrc. unfold resolveRequest.
    rewrite Hfn. unfold build. rewrite Hroutes, (build_loop_fails _ pre post rc e Hpre Hrc).
    reflexivity.
Qed.

End TemplateCompiler.

Section TemplateCompilerWitnesses.
#[local] Existing Instances mini_regexp posix demo_types.

(** C4 fails as stated: the template [/a/:x/:x] names [x] twice and
    compiles; the pattern has two groups, [x] is bound to the second, and
    the route dispatches. *)
Lemma duplicate_name_counterexample :
  token_names (tokens (RouteConfig.getFullPath twice_route)) = ["x"; "x"] /\
  parsed_regex (parseRoutePathToRegex twice_route) = "/a/([^/]+)/([^/]+)" /\
  parameterNames (parseRoutePathToRegex twice_route) !! "x" = Some 1%nat /\
  (exists code compiler',
     getRouteCode (RegExp := MiniRegExp.re * nat) {| reserved := 0 |} twice_route
       = Return (code, compiler')) /\
  exists r,
    snd (resolve "GET" "/a/1/2" (demo_router [twice_route])) = Return (Some r) /\
    materialize r (fun _ => VUndefined) None = Some (Return [VString "2"]).
Proof.
  split; [reflexivity|]. split; [vm_compute; reflexivity|].
  split; [vm_compute; reflexivity|]. split.
  - eexists _, _. vm_compute. reflexivity.
  - eexists. split; vm_compute; reflexivity.
Qed.

End TemplateCompilerWitnesses.

(** ** The query string of a resolved URL *)

Lemma encode_char_safe (c : ascii) :
  JsString.forallb_string uri_safe (JsString.encode_char c) = true.
Proof. destruct c as [[] [] [] [] [] [] [] []]; reflexivity. Qed.

Lemma forallb_string_app (p : ascii -> bool) (a b : string) :
  JsString.forallb_string p (a +:+ b)
    = JsString.forallb_string p a && JsString.forallb_string p b.
Proof.
  induction a as [|c a IH]; simpl; [reflexivity|].
  rewrite IH. apply andb_assoc.
Qed.

Lemma encodeURIComponent_safe (s : string) :
  JsString.forallb_string uri_safe (JsString.encodeURIComponent s) = true.
Proof.
  induction s as [|c s IH]; simpl; [reflexivity|].
  rewrite forallb_string_app, encode_char_safe, IH. reflexivity.
Qed.

Lemma replace_dots_free (rep s : string) :
  JsString.contains_char "." s = false -> JsString.replace_dots rep s = s.
Proof.
  induction s as [|c s IH]; simpl; [reflexivity|].
  destruct (Ascii.eqb c "."); simpl; [discriminate|].
  intros H. rewrite IH by exact H. reflexivity.
Qed.

Lemma replace_dots_app (rep a b : string) :
  JsString.replace_dots rep (a +:+ b)
    = JsString.replace_dots rep a +:+ JsString.replace_dots rep b.
Proof.
  induction a as [|c a IH]; simpl; [reflexivity|].
  destruct (Ascii.eqb c "."); simpl; rewrite IH; [|reflexivity].
  symmetry. apply string_app_assoc.
Qed.

Lemma replace_dots_segments (rep : string) (rest : list string) :
  Forall (fun s => JsString.contains_char "." s = false) rest ->
  JsString.replace_dots rep (append_all (map (fun s => "." +:+ s) rest))
    = append_all (map (fun s => rep +:+ s) rest).
Proof.
  induction 1 as [|s rest Hs _ IH]; [reflexivity|].
  cbn [append_all map]. rewrite !replace_dots_app, IH, (replace_dots_free _ s) by exact Hs.
  change (JsString.replace_dots rep ".") with (rep +:+ "").
  rewrite string_app_empty_r. reflexivity.
Qed.

Lemma replace_first_skip (pat rep a b : string) (c : ascii) :
  pat = String c "" +:+ JsString.drop 1 pat ->
  JsString.contains_char c a = false ->
  JsString.replace_first pat rep (a +:+ b) = a +:+ JsString.replace_first pat rep b.
Proof.
  intros Hpat Ha. induction a as [|x a IH]; [reflexivity|].
  simpl in Ha. apply orb_false_elim in Ha as [Hx Ha].
  simpl String.append. simpl JsString.replace_first.
  assert (Hs : JsString.startsWith (String x (a +:+ b)) pat = false).
  { rewrite Hpat. simpl. rewrite Ascii.eqb_sym, Hx. reflexivity. }
  rewrite Hs, IH by exact Ha. reflexivity.
Qed.

Lemma contains_char_app (c : ascii) (a b : string) :
  JsString.contains_char c (a +:+ b)
    = JsString.contains_char c a || JsString.contains_char c b.
Proof.
  induction a as [|x a IH]; simpl; [reflexivity|].
  rewrite IH. apply orb_assoc.
Qed.

Lemma indexOf_dotted (first : string) (s : string) (rest : list string) :
  JsString.indexOf (dotted first (s :: rest)) "." <> -1.
Proof.
  intros H. apply indexOf_absent in H. unfold dotted in H.
  cbn [map append_all] in H. rewrite !contains_char_app in H.
  change (JsString.contains_char "." ".") with true in H.
  rewrite orb_true_r in H. discriminate H.
Qed.

Lemma append_all_brackets (rest : list string) :
  append_all (map (fun s => "][" +:+ s) rest) +:+ "]"
    = "]" +:+ append_all (map (fun s => "[" +:+ s +:+ "]") rest).
Proof.
  induction rest as [|s rest IH]; [reflexivity|].
  cbn [map append_all]. rewrite !string_app_assoc. rewrite IH. reflexivity.
Qed.

Lemma drop_length (a b : string) : JsString.drop (String.length a) (a +:+ b) = b.
Proof. induction a as [|c a IH]; simpl; [destruct b; reflexivity|exact IH]. Qed.

Lemma replace_first_here (pat rep b : string) :
  JsString.replace_first pat rep (pat +:+ b) = rep +:+ b.
Proof.
  destruct (pat +:+ b) eqn:Eb; simpl; rewrite <- Eb, startsWith_app, drop_length; reflexivity.
Qed.

(** [dotToUrlPath] turns a dotted path into its bracketed form. *)
Lemma dotToUrlPath_dotted (first : string) (rest : list string) :
  JsString.contains_char "." first = false ->
  JsString.contains_char "]" first = false ->
  Forall (fun s => JsString.contains_char "." s = false) rest ->
  dotToUrlPath (dotted first rest) = bracketed first rest.
Proof.
  intros Hdot Hbr Hrest. unfold dotToUrlPath.
  destruct rest as [|s rest].
  - unfold dotted, bracketed. cbn [map append_all]. rewrite string_app_empty_r.
    rewrite (proj2 (indexOf_absent first ".") Hdot). reflexivity.
  - destruct (Z.eqb_spec (JsString.indexOf (dotted first (s :: rest)) ".") (-1)) as [H|_].
    { exfalso. exact (indexOf_dotted _ _ _ H). }
    unfold dotted, bracketed.
    rewrite replace_dots_app, replace_dots_free, replace_dots_segments by assumption.
    rewrite (replace_first_skip "][" "[" first _ "]") by (reflexivity || assumption).
    cbn [map append_all].
    rewrite (string_app_assoc "][" s), replace_first_here.
    rewrite !string_app_assoc. rewrite append_all_brackets. reflexivity.
Qed.

Section QueryString.
Context {RegExp : Type} `{E : RegExpEngine RegExp} `{P : Platform} `{T : TypeSystem}.

Lemma modify_loop_flat_map (ps : list ParsedRouteParameter) (modify : list QueryPush) :
  modify_loop ps modify = modify ++ flat_map parameter_modify ps.
Proof.
  revert modify. induction ps as [|p ps IH]; intros modify; simpl.
  - symmetry. apply app_nil_r.
  - rewrite IH, <- app_assoc. reflexivity.
Qed.

Lemma run_modify_filter (parameters : gmap string value) (modify : list QueryPush)
    (query : list string) :
  run_modify parameters modify query
    = query ++ map query_pair
                   (List.filter (fun b => is_defined (snd b))
                                (map (push_binding parameters) modify)).
Proof.
  revert query. induction modify as [|m modify IH]; intros query; simpl.
  - symmetry. apply app_nil_r.
  - rewrite IH. destruct (is_defined (read_accessor parameters (push_accessor m))); simpl.
    + rewrite <- app_assoc. reflexivity.
    + reflexivity.
Qed.

Lemma parameter_modify_bindings (parameters : gmap string value)
    (ps : list ParsedRouteParameter) :
  map (push_binding parameters) (flat_map parameter_modify ps)
    = query_bindings ps parameters.
Proof.
  induction ps as [|p ps IH]; simpl; [reflexivity|].
  rewrite map_app, IH. f_equal. unfold parameter_modify.
  destruct (is_query p); [|reflexivity].
  destruct (String.eqb (PropertySchema.type (property p)) "class"); [|reflexivity].
  rewrite map_map. reflexivity.
Qed.

(** C7. The URL [resolveUrl] builds for a route is its path with the
    tokens filled in, followed by the query string the specification
    describes: one [key=value] pair for each query-bound parameter, or each
    field of a class-typed one, whose value is not [undefined], and nothing
    for the others; the key of a dotted path is its bracketed form, and
    each value is percent-encoded by itself, so that it holds none of the
    separators.  [resolveUrl] returns this URL whenever its resolver can be
    built, and throws what the build throws otherwise. *)
Theorem resolveUrl_query_string (rc : RouteConfig.t) (parameters : gmap string value) :
  let url :=
    eval_template parameters (tokens (RouteConfig.getFullPath rc))
    +:+ query_string (query_bindings (getParameters (parseRouteControllerAction rc))
                                     parameters) in
  run_case (getRouteUrlResolveCode rc) parameters = url /\
  (forall (r : Router RegExp) pre post,
     resolveFn r = None ->
     routes r = pre ++ rc :: post ->
     Forall (fun rc' => RouteConfig.name rc' <> RouteConfig.name rc) pre ->
     snd (resolveUrl (RouteConfig.name rc) parameters r)
       = match buildUrlResolver (routes r) with
         | Return _ => Return url
         | Throw e => Throw e
         end) /\
  (forall first rest,
     JsString.contains_char "." first = false ->
     JsString.contains_char "]" first = false ->
     Forall (fun s => JsString.contains_char "." s = false) rest ->
     dotToUrlPath (dotted first rest) = bracketed first rest) /\
  (forall v, JsString.forallb_string uri_safe (JsString.encodeURIComponent (ToString v)) = true).
Proof.
  assert (Hcase : run_case (getRouteUrlResolveCode rc) parameters
                  = eval_template parameters (tokens (RouteConfig.getFullPath rc))
                    +:+ query_string
                          (query_bindings (getParameters (parseRouteControllerAction rc))
                                          parameters)).
  { unfold run_case, getRouteUrlResolveCode. simpl.
    rewrite modify_loop_flat_map, run_modify_filter. simpl.
    rewrite parameter_modify_bindings. unfold query_string.
    destruct (List.filter _ _) as [|b bs]; reflexivity. }
  cbv zeta. split; [exact Hcase|].
  split; [|split; [apply dotToUrlPath_dotted|intros v; apply encodeURIComponent_safe]].
  intros r pre post Hfn Hroutes Hpre. unfold resolveUrl. rewrite Hfn.
  destruct (buildUrlResolver (routes r)) as [cases|e] eqn:Hb; [|reflexivity]. cbn [snd].
  apply buildUrlResolver_inv in Hb as ->.
  rewrite run_resolveFn_first_named, Hroutes, (first_named_first _ _ _ Hpre), Hcase.
  reflexivity.
Qed.

End QueryString.

Section QueryStringWitnesses.
#[local] Existing Instances mini_regexp posix demo_types.

Lemma resolveUrl_query_string_witness :
  snd (resolveUrl "search"
         (<["filter" := VObject [("a", VString "x y"); ("c", VNumber 1)]]>
            (<["page" := VNumber 2]> ∅))
         (demo_router [search_route]))
    = Return "/search?value[a]=x%20y&page=2".
Proof.
  rewrite (proj1 (proj2 (resolveUrl_query_string (RegExp := MiniRegExp.re * nat)
                           search_route _))
             (demo_router [search_route]) [] [] eq_refl eq_refl ltac:(constructor)).
  vm_compute. reflexivity.
Defined.

End QueryStringWitnesses.

(** ** Materializing the parameters *)

Section Materialization.
Context `{T : TypeSystem}.

Lemma run_statements_app (env : Environment) (fields : value) (l1 l2 : list Statement)
    (st : ExecState) :
  run_statements env fields (l1 ++ l2) st =
    match run_statements env fields l1 st with
    | Return st' => run_statements env fields l2 st'
    | Throw e => Throw e
    end.
Proof.
  revert st. induction l1 as [|s l1 IH]; intros st; simpl; [reflexivity|].
  destruct (run_statement env fields s st); [apply IH|reflexivity].
Qed.

Lemma eval_arguments_app (env : Environment) (st : ExecState) (l1 l2 : list Argument) :
  eval_arguments env st (l1 ++ l2) =
    match eval_arguments env st l1 with
    | Return vs1 =>
        match eval_arguments env st l2 with
        | Return vs2 => Return (vs1 ++ vs2)
        | Throw e => Throw e
        end
    | Throw e => Throw e
    end.
Proof.
  induction l1 as [|a l1 IH]; simpl.
  - destruct (eval_arguments env st l2); reflexivity.
  - destruct (eval_argument env st a); [|reflexivity].
    rewrite IH. destruct (eval_arguments env st l1); [|reflexivity].
    destruct (eval_arguments env st l2); reflexivity.
Qed.

Ltac solve_error_handling :=
  try rewrite bool_decide_eq_false_2 by (intros [? ?]; congruence);
  try rewrite bool_decide_eq_true_2 by (split; congruence);
  simpl; symmetry; first [apply andb_true_r | apply andb_false_r].

(** What one round of the loop of [getRouteCode] adds to the code, and what
    the added code does when it runs. *)
Lemma parameter_parts_spec (custom : option nat) (i : nat) (p : ParsedRouteParameter)
    (compiler : CompilerContext) (parts : CodeParts) :
  exists a stmts,
    setParameters (snd (parameter_parts custom i p (compiler, parts)))
      = setParameters parts ++ [a] /\
    parameterValidator (snd (parameter_parts custom i p (compiler, parts)))
      = parameterValidator parts ++ stmts /\
    bodyValidationErrorHandling (snd (parameter_parts custom i p (compiler, parts)))
      = bodyValidationErrorHandling parts
        && negb (bool_decide (regexPosition p = None /\ custom = Some i)) /\
    (enableParseBody parts = true ->
     enableParseBody (snd (parameter_parts custom i p (compiler, parts))) = true) /\
    (enableParseBody (snd (parameter_parts custom i p (compiler, parts))) = false ->
     forall fields, parameter_body_errors custom fields i p = []) /\
    (forall env fields st e,
       parameter_errors custom env i p = Some e ->
       exists st',
         run_statements env fields stmts st = Return st' /\
         validationErrors st' = validationErrors st ++ e /\
         bodyErrors st' = bodyErrors st ++ parameter_body_errors custom fields i p) /\
    (forall env st e,
       parameter_errors custom env i p = Some e ->
       exists v, eval_argument env st a = Return v /\
                 (regexPosition p = None -> custom = Some i ->
                  v = VBodyValidation (bodyErrors st))).
Proof.
  unfold parameter_parts, parameter_errors, parameter_body_errors, reserveVariable.
  destruct (regexPosition p) as [position|] eqn:Epos.
  - eexists _, _. simpl. split; [reflexivity|]. split; [reflexivity|].
    split; [solve_error_handling|].
    split; [tauto|]. split; [reflexivity|]. split.
    + intros env fields st e [= <-]. eexists. split; [reflexivity|].
      split; [reflexivity|]. simpl. symmetry. apply app_nil_r.
    + intros env st e _. eexists. split; [reflexivity|]. discriminate.
  - destruct (decide (custom = Some i)) as [Hc|Hc].
    + eexists _, []. simpl. split; [reflexivity|]. split; [symmetry; apply app_nil_r|].
      split; [solve_error_handling|].
      split; [tauto|]. split; [reflexivity|]. split.
      * intros env fields st e [= <-]. eexists. split; [reflexivity|].
        split; symmetry; apply app_nil_r.
      * intros env st e _. eexists. split; [reflexivity|]. reflexivity.
    + destruct (is_body p).
      * eexists _, _. simpl. split; [reflexivity|]. split; [reflexivity|].
        split; [solve_error_handling|].
        split; [reflexivity|]. split; [discriminate|]. split.
        -- intros env fields st e [= <-]. eexists. split; [reflexivity|].
           split; [symmetry; apply app_nil_r|reflexivity].
        -- intros env st e _. eexists. split; [reflexivity|]. contradiction.
      * destruct (is_query p).
        -- eexists _, _. simpl. split; [reflexivity|]. split; [reflexivity|].
           split; [solve_error_handling|].
           split; [tauto|]. split; [reflexivity|]. split.
           ++ intros env fields st e He. unfold query_accessor in He. simpl in *.
              destruct (get_path (_query env) _) as [v|]; [|discriminate].
              injection He as <-. eexists. split; [reflexivity|].
              split; [reflexivity|]. simpl. symmetry. apply app_nil_r.
           ++ intros env st e He. unfold query_accessor in He. simpl in *.
              destruct (get_path (_query env) _) as [v|]; [|discriminate].
              eexists. split; [reflexivity|]. contradiction.
        -- eexists _, []. simpl. split; [reflexivity|]. split; [reflexivity|].
           split; [solve_error_handling|].
           split; [tauto|]. split; [reflexivity|]. split.
           ++ intros env fields st e [= <-]. eexists. split; [reflexivity|].
              split; symmetry; apply app_nil_r.
           ++ intros env st e _. eexists. split; [reflexivity|]. contradiction.
Qed.

Lemma parts_loop_spec (custom : option nat) (ps : list ParsedRouteParameter)
    (i : nat) (compiler : CompilerContext) (parts : CodeParts) :
  exists args stmts,
    setParameters (snd (parts_loop custom i ps (compiler, parts)))
      = setParameters parts ++ args /\
    parameterValidator (snd (parts_loop custom i ps (compiler, parts)))
      = parameterValidator parts ++ stmts /\
    bodyValidationErrorHandling (snd (parts_loop custom i ps (compiler, parts)))
      = bodyValidationErrorHandling parts && negb (has_sink custom i ps) /\
    (enableParseBody parts = true ->
     enableParseBody (snd (parts_loop custom i ps (compiler, parts))) = true) /\
    (enableParseBody (snd (parts_loop custom i ps (compiler, parts))) = false ->
     forall fields, body_errors custom fields i ps = []) /\
    (forall env fields st ve,
       path_query_errors custom env i ps = Some ve ->
       exists st',
         run_statements env fields stmts st = Return st' /\
         validationErrors st' = validationErrors st ++ ve /\
         bodyErrors st' = bodyErrors st ++ body_errors custom fields i ps) /\
    (forall env st ve,
       path_query_errors custom env i ps = Some ve ->
       exists vs,
         eval_arguments env st args = Return vs /\
         length vs = length ps /\
         forall k p, ps !! k = Some p -> regexPosition p = None ->
                     custom = Some (i + k)%nat ->
                     vs !! k = Some (VBodyValidation (bodyErrors st))).
Proof.
  revert i compiler parts. induction ps as [|p ps IH]; intros i compiler parts.
  - exists [], []. simpl. split; [symmetry; apply app_nil_r|].
    split; [symmetry; apply app_nil_r|]. split; [symmetry; apply andb_true_r|].
    split; [tauto|]. split; [reflexivity|]. split.
    + intros env fields st ve [= <-]. exists st. split; [reflexivity|].
      split; symmetry; apply app_nil_r.
    + intros env st ve _. exists []. split; [reflexivity|]. split; [reflexivity|].
      intros k p Hk. discriminate.
  - destruct (parameter_parts_spec custom i p compiler parts)
      as (a & s1 & Ha & Hs & Hb & Hmono & Hnobody & Hrun & Heval).
    change (parts_loop custom i (p :: ps) (compiler, parts))
      with (parts_loop custom (S i) ps (parameter_parts custom i p (compiler, parts))).
    destruct (parameter_parts custom i p (compiler, parts)) as [c1 parts1] eqn:E1.
    simpl snd in *.
    destruct (IH (S i) c1 parts1)
      as (args & s2 & Ha2 & Hs2 & Hb2 & Hmono2 & Hnobody2 & Hrun2 & Heval2).
    exists (a :: args), (s1 ++ s2).
    split; [rewrite Ha2, Ha, <- app_assoc; reflexivity|].
    split; [rewrite Hs2, Hs, <- app_assoc; reflexivity|].
    split; [rewrite Hb2, Hb; simpl; rewrite negb_orb; symmetry; apply andb_assoc|].
    split; [intros H; apply Hmono2, Hmono, H|].
    split.
    { intros Hfalse fields. simpl. rewrite (Hnobody2 Hfalse fields).
      destruct (enableParseBody parts1) eqn:Ep1.
      - rewrite (Hmono2 eq_refl) in Hfalse. discriminate.
      - rewrite (Hnobody eq_refl fields). reflexivity. }
    split.
    + intros env fields st ve Hve. simpl in Hve.
      destruct (parameter_errors custom env i p) as [e|] eqn:Ee; [|discriminate].
      destruct (path_query_errors custom env (S i) ps) as [es|] eqn:Ees; [|discriminate].
      injection Hve as <-.
      destruct (Hrun env fields st e Ee) as (st1 & Hr1 & Hv1 & Hb1).
      destruct (Hrun2 env fields st1 es Ees) as (st2 & Hr2 & Hv2 & Hb2').
      exists st2. rewrite run_statements_app, Hr1. split; [exact Hr2|].
      split; [rewrite Hv2, Hv1, <- app_assoc; reflexivity|].
      rewrite Hb2', Hb1, <- app_assoc. reflexivity.
    + intros env st ve Hve. simpl in Hve.
      destruct (parameter_errors custom env i p) as [e|] eqn:Ee; [|discriminate].
      destruct (path_query_errors custom env (S i) ps) as [es|] eqn:Ees; [|discriminate].
      destruct (Heval env st e Ee) as (v & Hv & Hsink).
      destruct (Heval2 env st es Ees) as (vs & Hvs & Hlen & Hsinks).
      exists (v :: vs). simpl. rewrite Hv, Hvs. split; [reflexivity|].
      split; [simpl; rewrite Hlen; reflexivity|].
      intros [|k] p' Hk Hpos Hc; simpl in *.
      * injection Hk as <-. rewrite Hsink; [reflexivity|exact Hpos|].
        rewrite Hc. f_equal. lia.
      * apply (Hsinks k p' Hk Hpos). rewrite Hc. f_equal. lia.
Qed.

Lemma has_sink_spec (custom : option nat) (ps : list ParsedRouteParameter) (i : nat) :
  has_sink custom i ps = true <->
  exists k p, ps !! k = Some p /\ regexPosition p = None /\ custom = Some (i + k)%nat.
Proof.
  revert i. induction ps as [|p ps IH]; intros i; simpl.
  - split; [discriminate|]. intros (k & p & Hk & _). discriminate.
  - rewrite orb_true_iff, bool_decide_eq_true, IH. split.
    + intros [[Hp Hc]|(k & p' & Hk & Hp & Hc)].
      * exists 0%nat, p. split; [reflexivity|]. split; [exact Hp|].
        rewrite Hc. f_equal. lia.
      * exists (S k), p'. split; [exact Hk|]. split; [exact Hp|].
        rewrite Hc. f_equal. lia.
    + intros ([|k] & p' & Hk & Hp & Hc); simpl in Hk.
      * injection Hk as <-. left. split; [exact Hp|]. rewrite Hc. f_equal. lia.
      * right. exists k, p'. split; [exact Hk|]. split; [exact Hp|].
        rewrite Hc. f_equal. lia.
Qed.

Lemma sink_index_has_sink (custom : option nat) (ps : list ParsedRouteParameter) :
  has_sink custom 0 ps = bool_decide (is_Some (sink_index custom ps)).
Proof.
  destruct (has_sink custom 0 ps) eqn:Eh; symmetry.
  - apply bool_decide_eq_true. apply has_sink_spec in Eh as (k & p & Hk & Hp & Hc).
    unfold sink_index. rewrite Hc. simpl. rewrite Hk. unfold isPartOfPath. rewrite Hp.
    eexists; reflexivity.
  - apply bool_decide_eq_false. intros [k Hk]. unfold sink_index in Hk.
    destruct custom as [k'|]; [|discriminate].
    destruct (ps !! k') as [p|] eqn:Ep; [|discriminate].
    unfold isPartOfPath in Hk. destruct (regexPosition p) eqn:Er; [discriminate|].
    assert (has_sink (Some k') 0 ps = true); [|congruence].
    apply has_sink_spec. exists k', p. repeat split; assumption.
Qed.

Lemma sink_index_inv (custom : option nat) (ps : list ParsedRouteParameter) (k : nat) :
  sink_index custom ps = Some k ->
  custom = Some k /\ exists p, ps !! k = Some p /\ regexPosition p = None.
Proof.
  unfold sink_index. destruct custom as [k'|]; [|discriminate].
  destruct (ps !! k') as [p|] eqn:Ep; [|discriminate].
  unfold isPartOfPath. destruct (regexPosition p) eqn:Er; [discriminate|].
  intros [= <-]. split; [reflexivity|]. exists p. split; assumption.
Qed.

End Materialization.

Section ValidationErrors.
Context {RegExp : Type} `{E : RegExpEngine RegExp} `{P : Platform} `{T : TypeSystem}.

Lemma length_positive {A} (l : list A) : (0 <? length l)%nat = negb (bool_decide (l = [])).
Proof. destruct l; reflexivity. Qed.

(** The generated [parameters] function of a route, in closed form: it
    throws the body errors unless a sink takes them, then the path and
    query errors, and otherwise returns one argument per parameter. *)
Lemma call_parameters_spec (compiler : CompilerContext) (rc : RouteConfig.t)
    (env : Environment) (fields : value) (ve : list ValidationErrorItem) :
  let parsed := getParameters (parseRouteControllerAction rc) in
  let custom := customValidationErrorHandling (parseRouteControllerAction rc) in
  let f := {| requiresAsyncParameters := enableParseBody (route_parts compiler rc);
              parameters_code := route_parts compiler rc |} in
  bodyFields env = Some fields ->
  path_query_errors custom env 0 parsed = Some ve ->
  exists args,
    length args = length parsed /\
    (forall k, sink_index custom parsed = Some k ->
               args !! k = Some (VBodyValidation (body_errors custom fields 0 parsed))) /\
    call_parameters f env =
      if negb (bool_decide (is_Some (sink_index custom parsed)))
         && negb (bool_decide (body_errors custom fields 0 parsed = []))
      then Throw (ValidationError (body_errors custom fields 0 parsed))
      else if negb (bool_decide (ve = []))
           then Throw (ValidationError ve)
           else Return args.
Proof.
  intros parsed custom f Hfields Hve.
  destruct (parts_loop_spec custom parsed 0
              (snd (reserveVariable (snd (reserveVariable compiler)))) initial_parts)
    as (args & stmts & Ha & Hs & Hb & _ & Hnobody & Hrun & Heval).
  fold parsed custom in Ha, Hs, Hb, Hnobody.
  change (snd (parts_loop custom 0 parsed
                 (snd (reserveVariable (snd (reserveVariable compiler))), initial_parts)))
    with (route_parts compiler rc) in Ha, Hs, Hb, Hnobody.
  simpl in Ha, Hs, Hb.
  set (used := if enableParseBody (route_parts compiler rc) then fields else VUndefined).
  assert (Hbe : body_errors custom used 0 parsed = body_errors custom fields 0 parsed).
  { unfold used. destruct (enableParseBody (route_parts compiler rc)) eqn:Ep; [reflexivity|].
    rewrite !(Hnobody eq_refl). reflexivity. }
  destruct (Hrun env used initial_state ve Hve) as (st & Hst & Hv & Hbody).
  simpl in Hv, Hbody. rewrite Hbe in Hbody.
  destruct (Heval env st ve Hve) as (vs & Hvs & Hlen & Hsink).
  exists vs. split; [exact Hlen|]. split.
  - intros k Hk. apply sink_index_inv in Hk as (Hc & p & Hp & Hpos).
    rewrite (Hsink k p Hp Hpos Hc), Hbody. reflexivity.
  - unfold call_parameters, f. cbn [parameters_code].
    assert (Hused : (if enableParseBody (route_parts compiler rc)
                     then bodyFields env else Some VUndefined) = Some used).
    { unfold used. rewrite Hfields. destruct (enableParseBody _); reflexivity. }
    rewrite Hused, Hs, Hst, Hb, Ha, Hv, Hbody, !length_positive.
    rewrite sink_index_has_sink. rewrite Hvs. reflexivity.
Qed.

(** C1, as the code has it. The sink is a sink for body errors. On a route
    with a sink parameter, the body errors never make the call fail: they
    are the value of the sink; path and query errors still fail the call,
    with themselves as the error list.  On a route without one, the call
    fails as soon as there is an error: with the body errors when there are
    any, and otherwise with the path and query errors. *)
Theorem validation_errors_delivery (compiler compiler' : CompilerContext)
    (rc : RouteConfig.t) (code : RouteCode RegExp) (f : ParametersFunction)
    (env : Environment) (fields : value) (ve : list ValidationErrorItem) :
  getRouteCode compiler rc = Return (code, compiler') ->
  code_parameters code = Some f ->
  bodyFields env = Some fields ->
  path_query_errors (customValidationErrorHandling (parseRouteControllerAction rc)) env 0
                    (getParameters (parseRouteControllerAction rc)) = Some ve ->
  let parsed := getParameters (parseRouteControllerAction rc) in
  let custom := customValidationErrorHandling (parseRouteControllerAction rc) in
  let be := body_errors custom fields 0 parsed in
  match sink_index custom parsed with
  | Some k =>
      (ve = [] ->
       exists args, call_parameters f env = Return args /\
                    length args = length parsed /\
                    args !! k = Some (VBodyValidation be)) /\
      (ve <> [] -> call_parameters f env = Throw (ValidationError ve))
  | None =>
      (be <> [] -> call_parameters f env = Throw (ValidationError be)) /\
      (be = [] -> ve <> [] -> call_parameters f env = Throw (ValidationError ve)) /\
      (be = [] -> ve = [] ->
       exists args, call_parameters f env = Return args /\ length args = length parsed)
  end.
Proof.
  intros Hc Hf Hfields Hve parsed custom be.
  destruct (getRouteCode_inv _ _ _ _ Hc) as (re & _ & _ & _ & _ & Hpar).
  rewrite Hf in Hpar.
  destruct (setParameters (route_parts compiler rc)); [discriminate|].
  injection Hpar as ->.
  destruct (call_parameters_spec compiler rc env fields ve Hfields Hve)
    as (args & Hlen & Hsink & Hcall).
  fold parsed custom be in Hlen, Hsink, Hcall.
  destruct (sink_index custom parsed) as [k|] eqn:Ek.
  - rewrite bool_decide_eq_true_2 in Hcall by (eexists; reflexivity). simpl in Hcall.
    split.
    + intros ->. exists args. rewrite Hcall. simpl.
      split; [reflexivity|]. split; [exact Hlen|]. apply Hsink. reflexivity.
    + intros Hne. rewrite Hcall, bool_decide_eq_false_2 by exact Hne. reflexivity.
  - rewrite (bool_decide_eq_false_2 (is_Some None)) in Hcall by (intros [x Hx]; discriminate).
    simpl in Hcall. split; [|split].
    + intros Hne. rewrite Hcall, bool_decide_eq_false_2 by exact Hne. reflexivity.
    + intros Hbe Hne. rewrite Hcall, Hbe. simpl.
      rewrite bool_decide_eq_false_2 by exact Hne. reflexivity.
    + intros Hbe ->. exists args. rewrite Hcall, Hbe. simpl.
      split; [reflexivity|exact Hlen].
Qed.

End ValidationErrors.

Section ValidationErrorsWitnesses.
#[local] Existing Instances mini_regexp posix demo_types.

(** C1 fails as stated. [GET /users/:id] has a [BodyValidation] parameter;
    the request [GET /users/abc] has an invalid [id], and calling the
    parameters fails with the path error instead of handing it to the sink.
    [POST /items/:id] has no sink; with an invalid [id] and a body without
    [name] the call fails with the body error alone, not with both. *)
Lemma sink_counterexample :
  (sink_index (customValidationErrorHandling (parseRouteControllerAction sink_route))
              (getParameters (parseRouteControllerAction sink_route)) = Some 1%nat /\
   exists r,
     snd (resolve "GET" "/users/abc" (demo_router [sink_route])) = Return (Some r) /\
     materialize r (fun _ => VUndefined) None
       = Some (Throw (ValidationError
                        [{| item_path := "id"; item_code := "invalid_number";
                            item_message := "No number given" |}]))) /\
  (sink_index (customValidationErrorHandling (parseRouteControllerAction item_route))
              (getParameters (parseRouteControllerAction item_route)) = None /\
   exists r,
     snd (resolve "POST" "/items/abc" (demo_router [item_route])) = Return (Some r) /\
     path_query_errors (customValidationErrorHandling (parseRouteControllerAction item_route))
       {| _match := resolved_match r; _query := resolved_query r;
          _injector := fun _ => VUndefined; bodyFields := Some (VObject []) |} 0
       (getParameters (parseRouteControllerAction item_route))
       = Some [{| item_path := "id"; item_code := "invalid_number";
                  item_message := "No number given" |}] /\
     materialize r (fun _ => VUndefined) (Some (VObject []))
       = Some (Throw (ValidationError
                        [{| item_path := "name"; item_code := "required";
                            item_message := "Required value is undefined" |}]))).
Proof.
  split.
  - split; [vm_compute; reflexivity|].
    eexists. split; vm_compute; reflexivity.
  - split; [vm_compute; reflexivity|].
    eexists. split; [vm_compute; reflexivity|]. split; vm_compute; reflexivity.
Qed.

Lemma validation_errors_delivery_witness :
  match getRouteCode (RegExp := MiniRegExp.re * nat) {| reserved := 0 |} sink_route with
  | Return (code, _) =>
      match code_parameters code with
      | Some f =>
          call_parameters f abc_environment
            = Throw (ValidationError
                       [{| item_path := "id"; item_code := "invalid_number";
                           item_message := "No number given" |}])
      | None => False
      end
  | Throw _ => False
  end.
Proof.
  destruct (getRouteCode (RegExp := MiniRegExp.re * nat) {| reserved := 0 |} sink_route)
    as [[code compiler']|e] eqn:Hc; [|vm_compute in Hc; discriminate Hc].
  destruct (code_parameters code) as [f|] eqn:Hf.
  - assert (Hve : path_query_errors
                    (customValidationErrorHandling (parseRouteControllerAction sink_route))
                    abc_environment 0
                    (getParameters (parseRouteControllerAction sink_route))
                  = Some [{| item_path := "id"; item_code := "invalid_number";
                             item_message := "No number given" |}])
      by (vm_compute; reflexivity).
    pose proof (validation_errors_delivery _ _ _ _ _ abc_environment VUndefined _
                  Hc Hf eq_refl Hve) as H.
    cbv zeta in H.
    replace (sink_index (customValidationErrorHandling (parseRouteControllerAction sink_route))
               (getParameters (parseRouteControllerAction sink_route)))
      with (Some 1%nat) in H by (vm_compute; reflexivity).
    apply (proj2 H). discriminate.
  - vm_compute in Hc. injection Hc as <- _. discriminate Hf.
Defined.

End ValidationErrorsWitnesses.

(** ** Templates and their literal prefix *)

Lemma render_app (f : string -> string) (ps qs : list piece) :
  render f (ps ++ qs) = render f ps +:+ render f qs.
Proof.
  induction ps as [|[c|n] ps IH]; simpl; [reflexivity|rewrite IH; reflexivity|].
  rewrite IH. symmetry. apply string_app_assoc.
Qed.

Lemma token_names_app (ps qs : list piece) :
  token_names (ps ++ qs) = token_names ps ++ token_names qs.
Proof.
  induction ps as [|[c|n] ps IH]; simpl; [reflexivity|exact IH|].
  rewrite IH. reflexivity.
Qed.

Lemma render_flush (pending : option string) :
  render (fun n => ":" +:+ n) (flush pending) = pending_text pending.
Proof.
  destruct pending as [[|c name]|]; simpl; try reflexivity.
  rewrite string_app_empty_r. reflexivity.
Qed.

(** Putting the colon back before each token gives the template back. *)
Lemma render_scan_tokens (pending : option string) (s : string) :
  render (fun n => ":" +:+ n) (scan_tokens pending s) = pending_text pending +:+ s.
Proof.
  revert pending. induction s as [|c s IH]; intros pending.
  - cbn [scan_tokens]. rewrite render_flush. symmetry. apply string_app_empty_r.
  - change (scan_tokens pending (String c s))
      with (if match pending with Some _ => JsString.is_word c | None => false end
            then scan_tokens (option_map (fun name => name +:+ String c EmptyString) pending) s
            else flush pending ++
                 (if Ascii.eqb c ":" then scan_tokens (Some EmptyString) s
                  else PChar c :: scan_tokens None s)).
    assert (Hrest : render (fun n => ":" +:+ n)
                      (if Ascii.eqb c ":" then scan_tokens (Some EmptyString) s
                       else PChar c :: scan_tokens None s) = String c s).
    { destruct (Ascii.eqb_spec c ":") as [->|_].
      - rewrite IH. reflexivity.
      - cbn [render]. rewrite IH. reflexivity. }
    destruct pending as [name|].
    + destruct (JsString.is_word c).
      * cbn [option_map]. rewrite IH. cbn [pending_text].
        rewrite !string_app_assoc. reflexivity.
      * rewrite render_app, render_flush, Hrest. reflexivity.
    + rewrite render_app, render_flush, Hrest. reflexivity.
Qed.

Lemma render_tokens (s : string) : render (fun n => ":" +:+ n) (tokens s) = s.
Proof. apply (render_scan_tokens None). Qed.

(** A filled template starts with the template's text before its first
    colon. *)
Lemma fill_starts_with (ps : list piece) (captures : list string) (s : string) :
  fill ps captures = Some s ->
  JsString.startsWith s (take_before ":" (render (fun n => ":" +:+ n) ps)) = true.
Proof.
  revert captures s. induction ps as [|[c|n] ps IH]; intros captures s Hs; simpl in *.
  - reflexivity.
  - destruct (fill ps captures) as [s'|] eqn:Ef; [|discriminate]. injection Hs as <-.
    destruct (Ascii.eqb c ":"); [reflexivity|].
    simpl. rewrite Ascii.eqb_refl. apply (IH captures). exact Ef.
  - reflexivity.
Qed.

Section Prefix.
Context `{P : Platform}.

Lemma route_prefix_spec (rc : RouteConfig.t) :
  route_prefix rc = "" \/
  route_prefix rc = take_before ":" (RouteConfig.getFullPath rc).
Proof.
  unfold route_prefix.
  destruct (Z.eq_dec (JsString.indexOf (RouteConfig.getFullPath rc) ":") (-1)) as [H|H].
  - left. rewrite H. apply substr_absent.
  - right. apply substr_indexOf. exact H.
Qed.

Lemma fill_starts_with_prefix (rc : RouteConfig.t) (captures : list string) (s : string) :
  fill (tokens (RouteConfig.getFullPath rc)) captures = Some s ->
  JsString.startsWith s (route_prefix rc) = true.
Proof.
  intros Hs. destruct (route_prefix_spec rc) as [-> | ->].
  - apply startsWith_empty.
  - rewrite <- (render_tokens (RouteConfig.getFullPath rc)) at 1.
    apply (fill_starts_with _ captures). exact Hs.
Qed.

Lemma render_default (rc : RouteConfig.t) (ps : list piece) :
  forallb (fun name => String.eqb (token_regex rc name) default_group) (token_names ps) = true ->
  render (token_regex rc) ps = render (fun _ => default_group) ps.
Proof.
  induction ps as [|[c|n] ps IH]; simpl; [reflexivity|intros H; rewrite IH by exact H; reflexivity|].
  intros H. apply andb_prop in H as [Hn H]. apply String.eqb_eq in Hn.
  rewrite Hn, IH by exact H. reflexivity.
Qed.

End Prefix.

Section PrefixCheck.
Context {RegExp : Type} `{E : RegExpEngine RegExp} `{P : Platform} `{T : TypeSystem}.

Lemma plain_route_source (rc : RouteConfig.t) :
  plain_template rc = true ->
  forallb plain_piece (tokens (RouteConfig.getFullPath rc)) = true /\
  route_regex_source rc
    = "^" +:+ render (fun _ => default_group) (tokens (RouteConfig.getFullPath rc)) +:+ "$".
Proof.
  unfold plain_template. intros H. apply andb_prop in H as [Hplain Hdefault].
  split; [exact Hplain|]. unfold route_regex_source.
  rewrite parseRouteControllerAction_regex, parseRoutePathToRegex_regex.
  rewrite (render_default rc _ Hdefault). reflexivity.
Qed.

(** C8, as far as it holds. For a route with a plain template, matched by
    prefix and regular expression on an engine that is sound on plain
    templates, the prefix test changes nothing: the combined check gives
    exactly what the anchored pattern alone gives. *)
Theorem prefix_check_redundant (compiler compiler' : CompilerContext)
    (rc : RouteConfig.t) (code : RouteCode RegExp) (prefix : string) (re : RegExp) :
  plain_sound E ->
  plain_template rc = true ->
  getRouteCode compiler rc = Return (code, compiler') ->
  code_matcher code = PrefixAndRegex prefix re ->
  forall _path, run_matcher (code_matcher code) _path = RegExp_match _path re.
Proof.
  intros Hsound Hplain Hc Hm _path.
  destruct (getRouteCode_inv _ _ _ _ Hc) as (re0 & Hre & _ & _ & Hmat & _).
  rewrite Hm in Hmat.
  destruct (0 <? length (getParameters (parseRouteControllerAction rc)))%nat;
    [|discriminate]. injection Hmat as -> ->.
  rewrite Hm. simpl.
  destruct (RegExp_match _path re0) as [m|] eqn:Em.
  - destruct (plain_route_source rc Hplain) as [Hpieces Hsource].
    rewrite Hsource in Hre.
    destruct (Hsound _ _ _ _ Hpieces Hre Em) as (captures & _ & Hfill).
    rewrite (fill_starts_with_prefix rc captures _path Hfill). reflexivity.
  - destruct (JsString.startsWith _path (route_prefix rc)); reflexivity.
Qed.

End PrefixCheck.

(** ** The small engine is sound on plain templates *)

Section MiniLexer.
Import MiniRegExp.

Lemma lex_plain_char (c : ascii) (s : string) :
  regex_special c = false ->
  lex LNormal (String c s) = option_map (cons (TChar c)) (lex LNormal s).
Proof.
  intros H. unfold regex_special in H. simpl in H.
  repeat (apply orb_false_elim in H as [? H]).
  simpl. unfold normal_step.
  repeat match goal with Hc : Ascii.eqb c _ = false |- _ => rewrite Hc; clear Hc end.
  simpl. destruct (lex LNormal s); reflexivity.
Qed.

Lemma lex_group (s : string) :
  lex LNormal (default_group +:+ s)
    = option_map (app [TOpen true; TSet true [("/", "/")%char]; TPlus; TClose])
                 (lex LNormal s).
Proof. simpl. destruct (lex LNormal s); reflexivity. Qed.

Lemma lex_render (ps : list piece) (rest : string) :
  forallb plain_piece ps = true ->
  lex LNormal (render (fun _ => default_group) ps +:+ rest)
    = option_map (app (flat_map piece_tokens ps)) (lex LNormal rest).
Proof.
  induction ps as [|[c|n] ps IH]; intros Hp.
  - simpl. destruct (lex LNormal rest); reflexivity.
  - simpl in Hp. apply andb_prop in Hp as [Hc Hp]. apply negb_true_iff in Hc.
    cbn [render]. change (String c (render (fun _ => default_group) ps) +:+ rest)
      with (String c (render (fun _ => default_group) ps +:+ rest)).
    rewrite (lex_plain_char c _ Hc), (IH Hp).
    destruct (lex LNormal rest); reflexivity.
  - simpl in Hp. cbn [render]. rewrite string_app_assoc, lex_group, (IH Hp).
    destruct (lex LNormal rest); reflexivity.
Qed.

Lemma lex_plain_source (ps : list piece) :
  forallb plain_piece ps = true ->
  lex LNormal ("^" +:+ render (fun _ => default_group) ps +:+ "$")
    = Some (TBol :: flat_map piece_tokens ps ++ [TEol]).
Proof.
  intros Hp. change ("^" +:+ render (fun _ => default_group) ps +:+ "$")
    with (String "^" (render (fun _ => default_group) ps +:+ "$")).
  change (lex LNormal (String "^" (render (fun _ => default_group) ps +:+ "$")))
    with (option_map (app [TBol]) (lex LNormal (render (fun _ => default_group) ps +:+ "$"))).
  rewrite (lex_render ps "$" Hp). reflexivity.
Qed.

Lemma parse_pieces (ps : list piece) (g : nat) (atoms : list re) (q : bool)
    (rest : list token) :
  exists q',
    parse {| p_stack := []; p_frame := top_frame atoms q; p_groups := g |}
          (flat_map piece_tokens ps ++ rest)
    = parse {| p_stack := []; p_frame := top_frame (rev (piece_atoms g ps) ++ atoms) q';
               p_groups := (g + length (token_names ps))%nat |}
            rest.
Proof.
  revert g atoms q. induction ps as [|[c|n] ps IH]; intros g atoms q.
  - exists q. simpl. rewrite Nat.add_0_r. reflexivity.
  - destruct (IH g (RChar c :: atoms) true) as [q' Hq']. exists q'.
    cbn [piece_atoms rev token_names]. rewrite <- app_assoc. cbn [app].
    exact Hq'.
  - destruct (IH (S g) (not_slash_group (S g) :: atoms) true) as [q' Hq']. exists q'.
    cbn [piece_atoms rev token_names length]. rewrite <- app_assoc. cbn [app].
    replace (g + S (length (token_names ps)))%nat with (S g + length (token_names ps))%nat by lia.
    exact Hq'.
Qed.

Lemma sequence_rev (atoms : list re) :
  sequence (rev atoms) = fold_right RSeq REmpty atoms.
Proof.
  unfold sequence. rewrite <- fold_left_rev_right, rev_involutive. reflexivity.
Qed.

(** The compiled form of the pattern of a plain template. *)
Lemma compile_plain (ps : list piece) :
  forallb plain_piece ps = true ->
  compile ("^" +:+ render (fun _ => default_group) ps +:+ "$")
    = Some (RSeq RBol (fold_right RSeq REmpty (piece_atoms 0 ps ++ [REol])),
            length (token_names ps)).
Proof.
  intros Hp. unfold compile. rewrite (lex_plain_source ps Hp).
  cbn [parse parse_step]. unfold with_frame, push_atom, new_frame. cbn [p_stack p_frame p_groups f_index f_alts f_atoms].
  destruct (parse_pieces ps 0 [RBol] false [TEol]) as [q' Hq']. unfold top_frame in Hq'.
  rewrite Hq'. simpl. f_equal. f_equal. unfold close_frame. simpl.
  change (REol :: rev (piece_atoms 0 ps) ++ [RBol])
    with ([REol] ++ rev (piece_atoms 0 ps) ++ [RBol]).
  replace ([REol] ++ rev (piece_atoms 0 ps) ++ [RBol])
    with (rev (RBol :: piece_atoms 0 ps ++ [REol])).
  - rewrite sequence_rev. reflexivity.
  - simpl. rewrite rev_app_distr. simpl. reflexivity.
Qed.

End MiniLexer.

Section MiniMatcher.
Import MiniRegExp.

Lemma string_length_app (a b : string) :
  String.length (a +:+ b) = (String.length a + String.length b)%nat.
Proof. induction a as [|c a IH]; simpl; [reflexivity|]. rewrite IH. reflexivity. Qed.

Lemma one_char_inv (p : ascii -> bool) (i : nat) (s : string)
    (caps : list (option string)) (r : position) :
  In r (one_char p i s caps) ->
  exists c s', s = String c s' /\ p c = true /\ r = (S i, s', caps).
Proof.
  unfold one_char. destruct s as [|c s']; [intros []|].
  destruct (p c) eqn:Ep; [|intros []]. intros [<-|[]]. exists c, s'.
  split; [reflexivity|]. split; [exact Ep|reflexivity].
Qed.

(** Iterating a one-character step consumes a prefix of the input and
    leaves the captures alone. *)
Lemma star_one_char (p : ascii -> bool) (fuel : nat) (i : nat) (s : string)
    (caps : list (option string)) (r : position) :
  In r (star (one_char p) fuel i s caps) ->
  exists consumed s',
    s = consumed +:+ s' /\ r = ((i + String.length consumed)%nat, s', caps).
Proof.
  revert i s. induction fuel as [|fuel IH]; intros i s; simpl.
  - intros [<-|[]]. exists "", s. split; [reflexivity|]. rewrite Nat.add_0_r. reflexivity.
  - rewrite in_app_iff, in_flat_map. intros [(x & Hx & Hr)|[<-|[]]].
    + apply one_char_inv in Hx as (c & s1 & -> & _ & ->).
      destruct (i <? S i)%nat; [|destruct Hr].
      apply IH in Hr as (consumed & s' & -> & ->).
      exists (String c consumed), s'. split; [reflexivity|].
      simpl. f_equal. f_equal. lia.
    + exists "", s. split; [reflexivity|]. rewrite Nat.add_0_r. reflexivity.
Qed.

Lemma plus_one_char (neg : bool) (ranges : list (ascii * ascii)) (i : nat) (s : string)
    (caps : list (option string)) (r : position) :
  In r (matches (RPlus (RSet neg ranges)) i s caps) ->
  exists consumed s',
    s = consumed +:+ s' /\ r = ((i + String.length consumed)%nat, s', caps).
Proof.
  cbn [matches]. rewrite in_flat_map. intros (x & Hx & Hr).
  apply one_char_inv in Hx as (c & s1 & -> & _ & ->).
  apply star_one_char in Hr as (consumed & s' & -> & ->).
  exists (String c consumed), s'. split; [reflexivity|].
  simpl. f_equal. f_equal. lia.
Qed.

Lemma group_inv (index : nat) (i : nat) (s : string) (caps : list (option string))
    (r : position) :
  In r (matches (not_slash_group index) i s caps) ->
  exists consumed s',
    s = consumed +:+ s' /\
    r = ((i + String.length consumed)%nat, s', <[index := Some consumed]> caps).
Proof.
  unfold not_slash_group. cbn [matches]. rewrite in_map_iff.
  intros ([[i1 s1] caps1] & <- & Hx). rewrite in_flat_map in Hx.
  destruct Hx as (y & Hy & Hx).
  apply (plus_one_char true) in Hy as (consumed & s' & -> & ->).
  destruct Hx as [[= <- <- <-]|[]].
  exists consumed, s'. split; [reflexivity|].
  replace (i + String.length consumed - i)%nat with (String.length consumed) by lia.
  rewrite take_length. reflexivity.
Qed.

(** Every match of the atoms of a plain template, up to the end of the
    input, reads the input as the template with its tokens filled in. *)
Lemma matches_pieces (ps : list piece) (g i : nat) (s : string)
    (caps : list (option string)) (r : position) :
  In r (matches (fold_right RSeq REmpty (piece_atoms g ps ++ [REol])) i s caps) ->
  exists captures,
    fill ps captures = Some s /\
    r = ((i + String.length s)%nat, EmptyString, set_groups g captures caps).
Proof.
  revert g i s caps. induction ps as [|[c|n] ps IH]; intros g i s caps.
  - simpl. destruct s; [|intros []]. intros [<-|[]].
    exists []. split; [reflexivity|]. rewrite Nat.add_0_r. reflexivity.
  - cbn [piece_atoms app fold_right matches]. rewrite in_flat_map.
    intros (x & Hx & Hr). apply one_char_inv in Hx as (c' & s' & -> & Hc & ->).
    apply Ascii.eqb_eq in Hc. subst c'.
    apply IH in Hr as (captures & Hfill & ->).
    exists captures. cbn [fill]. rewrite Hfill. split; [reflexivity|].
    simpl. f_equal. f_equal. lia.
  - cbn [piece_atoms app fold_right]. cbn [matches]. rewrite in_flat_map.
    intros (x & Hx & Hr).
    apply group_inv in Hx as (consumed & s' & -> & ->).
    apply IH in Hr as (captures & Hfill & ->).
    exists (consumed :: captures). cbn [fill]. rewrite Hfill. split; [reflexivity|].
    rewrite string_length_app. cbn [set_groups]. f_equal. f_equal. lia.
Qed.

Lemma fill_length (ps : list piece) (captures : list string) (s : string) :
  fill ps captures = Some s -> length captures = length (token_names ps).
Proof.
  revert captures s. induction ps as [|[c|n] ps IH]; intros captures s; simpl.
  - destruct captures; [reflexivity|discriminate].
  - destruct (fill ps captures) as [s'|] eqn:Ef; [|discriminate].
    intros _. apply (IH _ _ Ef).
  - destruct captures as [|capture captures]; [discriminate|].
    destruct (fill ps captures) as [s'|] eqn:Ef; [|discriminate].
    intros _. simpl. f_equal. apply (IH _ _ Ef).
Qed.

Lemma set_groups_fresh (captures : list string) (g : nat) (done : list (option string)) :
  length done = S g ->
  set_groups g captures (done ++ replicate (length captures) None)
    = done ++ map Some captures.
Proof.
  revert g done. induction captures as [|c captures IH]; intros g done Hd; simpl.
  - reflexivity.
  - rewrite <- Hd. rewrite (insert_app_r_alt done _ (length done)) by lia.
    rewrite Nat.sub_diag. simpl.
    change (done ++ Some c :: replicate (length captures) None)
      with (done ++ [Some c] ++ replicate (length captures) None).
    rewrite app_assoc, Hd. rewrite (IH (S g) (done ++ [Some c])).
    + rewrite <- app_assoc. reflexivity.
    + rewrite length_app, Hd. simpl. lia.
Qed.

Lemma search_after_start (r : re) (groups : nat) (i : nat) (s : string) :
  search (RSeq RBol r) groups (S i) s = None.
Proof.
  revert i. induction s as [|c s IH]; intros i; simpl; [reflexivity|apply IH].
Qed.

Lemma search_unfold (r : re) (groups : nat) (i : nat) (s : string) :
  search r groups i s =
    match matches r i s (replicate (S groups) None) with
    | (i', _, caps) :: _ => Some (<[0%nat := Some (JsString.take (i' - i) s)]> caps)
    | [] =>
        match s with
        | EmptyString => None
        | String _ s' => search r groups (S i) s'
        end
    end.
Proof. destruct s; reflexivity. Qed.

(** The small engine is sound on plain templates. *)
Lemma mini_regexp_plain_sound : plain_sound mini_regexp.
Proof.
  intros ps re s m Hp Hre Hm.
  change (compile ("^" +:+ render (fun _ => default_group) ps +:+ "$") = Some re) in Hre.
  change (exec s re = Some m) in Hm.
  rewrite (compile_plain ps Hp) in Hre. injection Hre as <-.
  unfold exec in Hm. cbn [fst snd] in Hm. rewrite search_unfold in Hm.
  remember (matches (RSeq RBol (fold_right RSeq REmpty (piece_atoms 0 ps ++ [REol])))
                    0 s (replicate (S (length (token_names ps))) None)) as ms eqn:Ems.
  assert (Hres : forall r, In r ms ->
            exists captures,
              fill ps captures = Some s /\
              r = (String.length s, EmptyString,
                   set_groups 0 captures (replicate (S (length (token_names ps))) None))).
  { intros r Hr. rewrite Ems in Hr. cbn [matches] in Hr. simpl in Hr.
    rewrite app_nil_r in Hr.
    apply matches_pieces in Hr as (captures & Hfill & ->).
    exists captures. split; [exact Hfill|reflexivity]. }
  destruct ms as [|[[i' s'] caps'] l].
  - destruct s as [|c s]; [discriminate|].
    rewrite search_after_start in Hm. discriminate.
  - destruct (Hres (i', s', caps')) as (captures & Hfill & Hr); [left; reflexivity|].
    injection Hm as <-. injection Hr as -> -> ->.
    exists captures. split; [|exact Hfill].
    rewrite <- (fill_length _ _ _ Hfill).
    change (None :: replicate (length captures) (@None string))
      with ([None] ++ replicate (length captures) (@None string)).
    rewrite (set_groups_fresh captures 0 [None] eq_refl). simpl.
    rewrite Nat.sub_0_r, take_all by lia. reflexivity.
Qed.

End MiniMatcher.

Section PrefixCheckWitnesses.
#[local] Existing Instances mini_regexp posix demo_types.

(** C8 fails as stated: in [/v1.0/:x] the dot of the prefix is a wildcard
    for the pattern and a dot for the prefix test; the pattern accepts
    [/v1X0/5] and the prefix test rejects it. *)
Lemma prefix_check_counterexample :
  exists code compiler' prefix re,
    getRouteCode (RegExp := MiniRegExp.re * nat) {| reserved := 0 |} versioned_route
      = Return (code, compiler') /\
    code_matcher code = PrefixAndRegex prefix re /\
    RegExp_match "/v1X0/5" re = Some [Some "/v1X0/5"; Some "5"] /\
    run_matcher (code_matcher code) "/v1X0/5" = None.
Proof.
  eexists _, _, _, _. split; [vm_compute; reflexivity|].
  split; [reflexivity|]. split; vm_compute; reflexivity.
Qed.

Lemma prefix_check_redundant_witness :
  match getRouteCode (RegExp := MiniRegExp.re * nat) {| reserved := 0 |} user_route with
  | Return (code, _) =>
      match code_matcher code with
      | PrefixAndRegex prefix re =>
          run_matcher (code_matcher code) "/users/42" = RegExp_match "/users/42" re
      | ExactPath _ => False
      end
  | Throw _ => False
  end.
Proof.
  destruct (getRouteCode (RegExp := MiniRegExp.re * nat) {| reserved := 0 |} user_route)
    as [[code compiler']|e] eqn:Hc; [|vm_compute in Hc; discriminate Hc].
  destruct (code_matcher code) as [path|prefix re] eqn:Hm.
  - vm_compute in Hc. injection Hc as <- _. discriminate Hm.
  - rewrite <- Hm.
    assert (Hplain : plain_template user_route = true) by (vm_compute; reflexivity).
    apply (prefix_check_redundant _ _ user_route _ prefix re
             mini_regexp_plain_sound Hplain Hc Hm).
Defined.

End PrefixCheckWitnesses.

(** ** Round trip: from a request to a URL and back *)

Section PathParameters.
Context `{T : TypeSystem}.






End PathParameters.





Section RoundTrip.
Context {RegExp : Type} `{E : RegExpEngine RegExp} `{P : Platform} `{T : TypeSystem}.


Lemma parsed_parameter_position (rc : RouteConfig.t) (p : PropertySchema.t) :
  regexPosition (parsed_parameter rc p)
    = last_index (PropertySchema.name p) (token_names (tokens (RouteConfig.getFullPath rc))).
Proof.
  unfold parsed_parameter. cbn [regexPosition].
  rewrite parseRoutePathToRegex_names. f_equal.
  destruct (RouteConfig.parameters rc !! PropertySchema.name p) as [d|]; [|reflexivity].
  destruct (RouteParameterConfig.optional d); reflexivity.
Qed.

End RoundTrip.



Section RoundTripTheorem.
Context {RegExp : Type} `{E : RegExpEngine RegExp} `{P : Platform} `{T : TypeSystem}.





End RoundTripTheorem.

Section RoundTripWitnesses.
#[local] Existing Instances mini_regexp posix demo_types.


(** The round trip needs the resolver to know the route: a route registered
    after the first [resolveUrl] is dispatched to, and [resolveUrl] does not
    find its name. *)
Lemma round_trip_needs_known_route :
  let r := apply_operations [ResolveUrl "home" ∅; AddRoute user_route] (demo_router []) in
  dispatched r "/users/42" = Some ("/users/:x", Some (Return [VString "42"])) /\
  snd (resolveUrl "user" (named_arguments user_route [VString "42"]) r)
    = Throw (NoRouteForName "user").
Proof. split; vm_compute; reflexivity. Qed.

(** It needs a resolver that can be built: beside a route whose token is a
    number, [resolveUrl] throws for every name. *)
Lemma round_trip_needs_resolver :
  let r := demo_router [user_route; numbered_route] in
  dispatched r "/users/42" = Some ("/users/:x", Some (Return [VString "42"])) /\
  snd (resolveUrl "user" (named_arguments user_route [VString "42"]) r)
    = Throw CouldNotBuildFunction.
Proof. split; vm_compute; reflexivity. Qed.

(** It needs a pattern that matches only the template filled in: [/7/aa]
    matches [/:x/a+], the URL resolved for it is [/7/a+], and that matches
    no route. *)
Lemma round_trip_needs_template_sound :
  let r := demo_router [quantified_route] in
  dispatched r "/7/aa" = Some ("/:x/a+", Some (Return [VString "7"])) /\
  snd (resolveUrl "many" (named_arguments quantified_route [VString "7"]) r)
    = Return "/7/a+" /\
  dispatched r "/7/a+" = None.
Proof. split; [|split]; vm_compute; reflexivity. Qed.

(** It needs tokens with distinct names: on [/:z-:x/:x] the request
    [/a-b/c-d] gives [z = a] and [x = c-d], the URL resolved for them is
    [/a-c-d/c-d], and that gives [z = a-c]. *)
Lemma round_trip_needs_distinct_tokens :
  let r := demo_router [repeated_route] in
  dispatched r "/a-b/c-d" = Some ("/:z-:x/:x", Some (Return [VString "a"; VString "c-d"])) /\
  snd (resolveUrl "pair" (named_arguments repeated_route [VString "a"; VString "c-d"]) r)
    = Return "/a-c-d/c-d" /\
  dispatched r "/a-c-d/c-d"
    = Some ("/:z-:x/:x", Some (Return [VString "a-c"; VString "c-d"])).
Proof. split; [|split]; vm_compute; reflexivity. Qed.

(** It needs a parameter for every token: on [/:x:u], whose handler takes
    [x] only, the request [/abc] gives [x = ab], the URL resolved for it is
    [/abundefined], and that gives [x = abundefine]. *)
Lemma round_trip_needs_bound_tokens :
  let r := demo_router [unbound_route] in
  dispatched r "/abc" = Some ("/:x:u", Some (Return [VString "ab"])) /\
  snd (resolveUrl "loose" (named_arguments unbound_route [VString "ab"]) r)
    = Return "/abundefined" /\
  dispatched r "/abundefined" = Some ("/:x:u", Some (Return [VString "abundefine"])).
Proof. split; [|split]; vm_compute; reflexivity. Qed.

(** It needs values that print as the text they are converted from: with a
    converter that decodes the escape of the slash, the request
    [/files/a%2Fb] gives [name = a/b], the URL resolved for it is
    [/files/a/b], and that matches no route. *)
Lemma round_trip_needs_printing :
  let r := demo_router [file_route] in
  dispatched (T := decoding_types) r "/files/a%2Fb"
    = Some ("/files/:name", Some (Return [VString "a/b"])) /\
  snd (resolveUrl (T := decoding_types) "file"
         (named_arguments (T := decoding_types) file_route [VString "a/b"]) r)
    = Return "/files/a/b" /\
  dispatched (T := decoding_types) r "/files/a/b" = None.
Proof. split; [|split]; vm_compute; reflexivity. Qed.



End RoundTripWitnesses.


(** ** The methods of [BodyValidation] *)

Lemma startsWith_trans (s q p : string) :
  JsString.startsWith s q = true -> JsString.startsWith q p = true ->
  JsString.startsWith s p = true.
Proof.
  intros Hs Hq. apply startsWith_inv in Hs as [r ->]. apply startsWith_inv in Hq as [r' ->].
  rewrite string_app_assoc. apply startsWith_app.
Qed.

Lemma getErrors_filter (errors : list ValidationErrorItem) (prefix : option string) :
  getErrors errors prefix
    = List.filter (fun v => JsString.startsWith (item_path v) (default "" prefix)) errors.
Proof.
  assert (Hall : List.filter (fun v => JsString.startsWith (item_path v) "") errors = errors).
  { induction errors as [|v errors IH]; cbn [List.filter]; [reflexivity|].
    rewrite startsWith_empty, IH. reflexivity. }
  unfold getErrors. destruct prefix as [p|]; simpl; [|symmetry; exact Hall].
  destruct (String.eqb_spec p "") as [->|_]; [symmetry; exact Hall|reflexivity].
Qed.

Lemma filter_filter_implied {A} (f g : A -> bool) (l : list A) :
  (forall x, g x = true -> f x = true) ->
  List.filter g (List.filter f l) = List.filter g l.
Proof.
  intros Hfg. induction l as [|x l IH]; simpl; [reflexivity|].
  destruct (f x) eqn:Ef; simpl.
  - destruct (g x); rewrite IH; reflexivity.
  - destruct (g x) eqn:Eg; [|exact IH]. rewrite (Hfg x Eg) in Ef. discriminate.
Qed.

Lemma filter_length_le {A} (f g : A -> bool) (l : list A) :
  (forall x, g x = true -> f x = true) ->
  (length (List.filter g l) <= length (List.filter f l))%nat.
Proof.
  intros Hfg. induction l as [|x l IH]; simpl; [lia|].
  destruct (g x) eqn:Eg.
  - rewrite (Hfg x Eg). simpl. lia.
  - destruct (f x); simpl; lia.
Qed.

(** X1. [getErrors(prefix)] returns, in their order, the errors whose path
    starts with the prefix, and all of them when the prefix is left out or
    empty.  Narrowing composes: the errors under a prefix [q] that extends
    [prefix] are found among the errors under [prefix], so that
    [hasErrors(q)] implies [hasErrors(prefix)]. *)
Theorem getErrors_prefix (errors : list ValidationErrorItem) (prefix : option string)
    (q : string) :
  getErrors errors prefix
    = List.filter (fun v => JsString.startsWith (item_path v) (default "" prefix)) errors /\
  (hasErrors errors prefix = true <->
   exists v, In v errors /\ JsString.startsWith (item_path v) (default "" prefix) = true) /\
  (JsString.startsWith q (default "" prefix) = true ->
   getErrors (getErrors errors prefix) (Some q) = getErrors errors (Some q) /\
   (hasErrors errors (Some q) = true -> hasErrors errors prefix = true)).
Proof.
  split; [apply getErrors_filter|]. split.
  - unfold hasErrors. rewrite getErrors_filter. split.
    + intros Hlen.
      destruct (List.filter _ errors) as [|v l] eqn:Ef; [discriminate|].
      assert (Hin : In v (List.filter
                (fun v => JsString.startsWith (item_path v) (default "" prefix)) errors))
        by (rewrite Ef; left; reflexivity).
      apply filter_In in Hin. exists v. exact Hin.
    + intros (v & Hin & Hv).
      assert (Hf : In v (List.filter
                (fun v => JsString.startsWith (item_path v) (default "" prefix)) errors))
        by (apply filter_In; split; assumption).
      destruct (List.filter _ errors); [contradiction|reflexivity].
  - intros Hq.
    assert (Himp : forall v : ValidationErrorItem,
               JsString.startsWith (item_path v) (default "" (Some q)) = true ->
               JsString.startsWith (item_path v) (default "" prefix) = true).
    { intros v Hv. exact (startsWith_trans _ _ _ Hv Hq). }
    split.
    + rewrite (getErrors_filter (getErrors errors prefix)), (getErrors_filter errors prefix),
        (getErrors_filter errors (Some q)).
      apply filter_filter_implied, Himp.
    + unfold hasErrors. rewrite (getErrors_filter errors prefix), (getErrors_filter errors (Some q)).
      intros Hlen. apply Nat.ltb_lt. apply Nat.ltb_lt in Hlen.
      pose proof (filter_length_le _ _ errors Himp). lia.
Qed.

Lemma startsWith_refl (s : string) : JsString.startsWith s s = true.
Proof. rewrite <- (string_app_empty_r s) at 1. apply startsWith_app. Qed.

(** X2. [getErrorsForPath(path)] returns the errors whose path is [path]; they
    are among [getErrors(path)], so that without errors under the prefix
    [path] the message for [path] is empty.  The message of a path with one
    error is that error's message. *)
Theorem getErrorsForPath_exact (errors : list ValidationErrorItem) (path : string) :
  (forall v, In v (getErrorsForPath errors path) <-> In v errors /\ item_path v = path) /\
  getErrorsForPath (getErrors errors (Some path)) path = getErrorsForPath errors path /\
  (hasErrors errors (Some path) = false -> getErrorMessageForPath errors path = "") /\
  (forall v, getErrorsForPath errors path = [v] ->
             getErrorMessageForPath errors path = item_message v).
Proof.
  assert (Hsub : getErrorsForPath (getErrors errors (Some path)) path
                 = getErrorsForPath errors path).
  { unfold getErrorsForPath. rewrite getErrors_filter. apply filter_filter_implied.
    intros v Hv. apply String.eqb_eq in Hv. rewrite Hv. apply startsWith_refl. }
  split; [|split; [exact Hsub|split]].
  - intros v. unfold getErrorsForPath. rewrite filter_In, String.eqb_eq. reflexivity.
  - unfold hasErrors. intros Hlen. unfold getErrorMessageForPath. rewrite <- Hsub.
    destruct (getErrors errors (Some path)); [reflexivity|discriminate].
  - intros v Hv. unfold getErrorMessageForPath. rewrite Hv. reflexivity.
Qed.

(** ** Looking up a parameter by name *)

Lemma getParameter_loop_app (name : string) (ps qs : list ParsedRouteParameter) :
  getParameter_loop name (ps ++ qs)
    = match getParameter_loop name ps with
      | inl found => inl found
      | inr _ => getParameter_loop name qs
      end.
Proof.
  induction ps as [|p ps IH]; simpl; [reflexivity|].
  destruct (String.eqb (getName p) name); [reflexivity|exact IH].
Qed.

Lemma getParameter_loop_message (name : string) (ps : list ParsedRouteParameter)
    (message : string) :
  getParameter_loop name ps = inr message ->
  message = "No route parameter with name " +:+ name +:+ " defined.".
Proof.
  induction ps as [|p ps IH]; simpl.
  - intros [= <-]. reflexivity.
  - destruct (String.eqb (getName p) name); [discriminate|exact IH].
Qed.

(** What [getParameter_loop] finds is the first parameter of the name. *)
Lemma getParameter_loop_spec (name : string) (ps : list ParsedRouteParameter) :
  match getParameter_loop name ps with
  | inl parameter =>
      exists k, ps !! k = Some parameter /\ getName parameter = name /\
                forall j q, (j < k)%nat -> ps !! j = Some q -> getName q <> name
  | inr _ => Forall (fun q => getName q <> name) ps
  end.
Proof.
  induction ps as [|p ps IH]; simpl; [constructor|].
  destruct (String.eqb_spec (getName p) name) as [Heq|Hne].
  - exists 0%nat. split; [reflexivity|]. split; [exact Heq|]. intros j q Hj. lia.
  - destruct (getParameter_loop name ps) as [parameter|message].
    + destruct IH as (k & Hk & Hn & Hbefore). exists (S k).
      split; [exact Hk|]. split; [exact Hn|].
      intros [|j] q Hj Hq; simpl in Hq.
      * injection Hq as <-. exact Hne.
      * apply (Hbefore j q); [lia|exact Hq].
    + constructor; assumption.
Qed.

(** X3. Adding a parameter and looking a name up: a parameter found before is
    still the one found, the first of a name winning; a name not found
    before is found exactly when it is the name of the added parameter, and
    then the added parameter is returned. *)
Theorem getParameter_addParameter (prop : PropertySchema.t)
    (config : option RouteParameterConfig.t) (parsedRoute : ParsedRoute) (name : string) :
  getParameters (fst (addParameter prop config parsedRoute))
    = getParameters parsedRoute ++ [snd (addParameter prop config parsedRoute)] /\
  getParameter (fst (addParameter prop config parsedRoute)) name
    = match getParameter parsedRoute name with
      | inl found => inl found
      | inr message =>
          if String.eqb (PropertySchema.name prop) name
          then inl (snd (addParameter prop config parsedRoute))
          else inr message
      end.
Proof.
  split; [reflexivity|].
  unfold getParameter, addParameter. cbn [fst snd getParameters].
  rewrite getParameter_loop_app.
  destruct (getParameter_loop name (getParameters parsedRoute)) as [found|message] eqn:Ef;
    [reflexivity|].
  cbn [getParameter_loop]. unfold getName. cbn [property].
  destruct (String.eqb (PropertySchema.name prop) name); [reflexivity|].
  rewrite (getParameter_loop_message _ _ _ Ef). reflexivity.
Qed.

Lemma getName_parsed_parameter `{P : Platform} (rc : RouteConfig.t)
    (prop : PropertySchema.t) :
  getName (parsed_parameter rc prop) = PropertySchema.name prop.
Proof.
  unfold getName, parsed_parameter. cbn [property].
  destruct (RouteConfig.parameters rc !! PropertySchema.name prop) as [d|];
    [|reflexivity].
  destruct (RouteParameterConfig.optional d); reflexivity.
Qed.

Section ParameterLookup.
Context `{P : Platform} `{T : TypeSystem}.

(** X4. [getParameter] on a parsed route: a name is found exactly when the
    handler has a parameter of that name; the parameter returned is the
    first of that name, and it carries the decorator data and the path
    position registered under the name.  For any other name the lookup
    fails with the message [No route parameter with name ... defined.] *)
Theorem getParameter_parsed_route (rc : RouteConfig.t) (name : string) :
  match getParameter (parseRouteControllerAction rc) name with
  | inl parameter =>
      In name (map PropertySchema.name (handler_properties rc)) /\
      getName parameter = name /\
      config parameter = RouteConfig.parameters rc !! name /\
      regexPosition parameter = parameterNames (parseRoutePathToRegex rc) !! name /\
      exists k,
        getParameters (parseRouteControllerAction rc) !! k = Some parameter /\
        forall j q, (j < k)%nat ->
                    getParameters (parseRouteControllerAction rc) !! j = Some q ->
                    getName q <> name
  | inr message =>
      ~ In name (map PropertySchema.name (handler_properties rc)) /\
      message = "No route parameter with name " +:+ name +:+ " defined."
  end.
Proof.
  unfold getParameter.
  pose proof (getParameter_loop_spec name (getParameters (parseRouteControllerAction rc)))
    as Hspec.
  destruct (getParameter_loop name (getParameters (parseRouteControllerAction rc)))
    as [parameter|message] eqn:Ef.
  - destruct Hspec as (k & Hk & Hn & Hbefore).
    pose proof Hk as Hk'. rewrite parseRouteControllerAction_parameters in Hk'.
    rewrite list_lookup_fmap in Hk'.
    destruct (handler_properties rc !! k) as [prop|] eqn:Ep; [|discriminate].
    injection Hk' as Hparam.
    assert (Hname : PropertySchema.name prop = name).
    { rewrite <- Hn, <- Hparam. symmetry. apply getName_parsed_parameter. }
    split; [|split; [exact Hn|split; [|split]]].
    + apply in_map_iff. exists prop. split; [exact Hname|].
      apply list_elem_of_In. apply (list_elem_of_lookup_2 _ k). exact Ep.
    + rewrite <- Hparam, <- Hname. reflexivity.
    + rewrite <- Hparam, <- Hname. unfold parsed_parameter. cbn [regexPosition].
      destruct (RouteConfig.parameters rc !! PropertySchema.name prop) as [d|];
        [|reflexivity].
      destruct (RouteParameterConfig.optional d); reflexivity.
    + exists k. split; [exact Hk|exact Hbefore].
  - split; [|exact (getParameter_loop_message _ _ _ Ef)].
    intros Hin. apply in_map_iff in Hin as (prop & Hname & Hin).
    rewrite parseRouteControllerAction_parameters in Hspec.
    rewrite Forall_forall in Hspec.
    apply (Hspec (parsed_parameter rc prop)).
    + apply list_elem_of_In, in_map_iff. exists prop. split; [reflexivity|exact Hin].
    + rewrite getName_parsed_parameter. exact Hname.
Qed.

End ParameterLookup.

(** ** Routers made of controllers *)

Section Controllers.
Context {RegExp : Type} `{E : RegExpEngine RegExp} `{P : Platform} `{T : TypeSystem}
        `{D : Decorators}.

Lemma addRoute_fold (rcs : list RouteConfig.t) (r : Router RegExp) :
  fold_left (fun r rc => addRoute rc r) rcs r
    = {| fn := match rcs with [] => fn r | _ => None end;
         resolveFn := resolveFn r;
         routes := routes r ++ rcs |}.
Proof.
  revert r. induction rcs as [|rc rcs IH]; intros r.
  - simpl. rewrite app_nil_r. destruct r; reflexivity.
  - cbn [fold_left]. rewrite IH. unfold addRoute. cbn [fn resolveFn routes].
    rewrite <- app_assoc. destruct rcs; reflexivity.
Qed.

Lemma addRouteForController_closed (controller : ClassType) (r : Router RegExp) :
  addRouteForController controller r
    = {| fn := match controller_routes controller with [] => fn r | _ => None end;
         resolveFn := resolveFn r;
         routes := routes r ++ controller_routes controller |}.
Proof.
  unfold addRouteForController, controller_routes.
  destruct (httpClass_fetch controller) as [data|].
  - rewrite <- (addRoute_fold (map (action_route controller data)
                                   (HttpController.getActions data)) r).
    generalize (HttpController.getActions data) r.
    intros actions. induction actions as [|a actions IH]; intros r0; [reflexivity|].
    simpl. apply IH.
  - rewrite app_nil_r. destruct r; reflexivity.
Qed.

(** X5. [addRouteForController] appends one route per action of the
    controller, in the order of the actions, each with the controller's
    base URL; the dispatch function is cleared when a route was added and
    the URL resolver is kept.  For a class without the decorator, and for a
    controller without actions, the router is left as it is, caches
    included. *)
Theorem addRouteForController_routes (classType : ClassType) (r : Router RegExp) :
  routes (addRouteForController classType r) = routes r ++ controller_routes classType /\
  resolveFn (addRouteForController classType r) = resolveFn r /\
  fn (addRouteForController classType r)
    = match controller_routes classType with [] => fn r | _ => None end /\
  (controller_routes classType = [] -> addRouteForController classType r = r) /\
  (forall data,
     httpClass_fetch classType = Some data ->
     controller_routes classType
       = map (action_route classType data) (HttpController.getActions data) /\
     Forall (fun rc => RouteConfig.baseUrl rc = HttpController.baseUrl data /\
                       controller (RouteConfig.action rc) = classType)
            (controller_routes classType)) /\
  (httpClass_fetch classType = None -> controller_routes classType = []).
Proof.
  rewrite addRouteForController_closed. cbn [fn resolveFn routes].
  split; [reflexivity|]. split; [reflexivity|]. split; [reflexivity|].
  split; [|split].
  - intros ->. rewrite app_nil_r. destruct r; reflexivity.
  - intros data Hd. unfold controller_routes. rewrite Hd. split; [reflexivity|].
    apply Forall_forall. intros rc Hrc.
    apply list_elem_of_In, in_map_iff in Hrc as (a & <- & _). split; reflexivity.
  - intros Hd. unfold controller_routes. rewrite Hd. reflexivity.
Qed.

Lemma new_Router_fold (controllers : list ClassType) (r : Router RegExp) :
  fold_left (fun r controller => addRouteForController controller r) controllers r
    = {| fn := match flat_map controller_routes controllers with [] => fn r | _ => None end;
         resolveFn := resolveFn r;
         routes := routes r ++ flat_map controller_routes controllers |}.
Proof.
  revert r. induction controllers as [|c cs IH]; intros r.
  - simpl. rewrite app_nil_r. destruct r; reflexivity.
  - cbn [fold_left flat_map]. rewrite IH, addRouteForController_closed.
    cbn [fn resolveFn routes]. rewrite <- app_assoc. f_equal.
    destruct (controller_routes c); [reflexivity|].
    destruct (flat_map controller_routes cs); reflexivity.
Qed.

(** X6. The constructor of [Router] registers the routes of the controllers in
    the order of the controllers, and starts without caches.  A controller
    added to the [HttpControllers] before the router is constructed has the
    effect of [addRouteForController] on the constructed router.  The
    first dispatch builds from all these routes. *)
Theorem forControllers_routes (controllers : list ClassType) (controller : ClassType)
    (request : HttpRequest) :
  forControllers controllers
    = router_of (RegExp := RegExp) (flat_map controller_routes controllers) /\
  new_Router (RegExp := RegExp)
             (HttpControllers.add controller (HttpControllers.mk controllers))
    = addRouteForController controller (forControllers controllers) /\
  snd (resolveRequest request (forControllers controllers))
    = match build (flat_map controller_routes controllers) with
      | Return codes => Return (run_fn codes request)
      | Throw e => Throw e
      end.
Proof.
  assert (Hfor : forControllers controllers
                 = router_of (RegExp := RegExp) (flat_map controller_routes controllers)).
  { unfold forControllers, new_Router. cbn [HttpControllers.controllers].
    rewrite new_Router_fold. unfold router_of, empty_router. cbn [fn resolveFn routes app].
    destruct (flat_map controller_routes controllers); reflexivity. }
  split; [exact Hfor|]. split.
  - unfold forControllers, new_Router, HttpControllers.add.
    cbn [HttpControllers.controllers]. rewrite fold_left_app. reflexivity.
  - rewrite Hfor. unfold resolveRequest, router_of. cbn [fn routes resolveFn].
    destruct (build (flat_map controller_routes controllers)); reflexivity.
Qed.

End Controllers.

(** ** A build that fails, requests without a route, and the query *)

Section DispatchEdges.
Context {RegExp : Type} `{E : RegExpEngine RegExp} `{P : Platform} `{T : TypeSystem}.




(** X8. A request no route accepts resolves to [undefined]; it is not an
    error.  In particular a request whose method, lower-cased, is the
    lower-cased method of no route resolves to [undefined], whatever its
    URL is. *)
Theorem resolveRequest_unmatched (r : Router RegExp) (request : HttpRequest)
    (codes : list (RouteCode RegExp)) :
  fn_consistent r ->
  build (routes r) = Return codes ->
  (snd (resolveRequest request r) = Return None <->
   Forall (fun code =>
             run_route code (JsString.toLowerCase (getMethod request))
                       (url_path (getUrl request)) = None) codes) /\
  (Forall (fun rc => JsString.toLowerCase (RouteConfig.httpMethod rc)
                     <> JsString.toLowerCase (getMethod request)) (routes r) ->
   snd (resolveRequest request r) = Return None).
Proof.
  intros Hr Hb.
  assert (Hiff : snd (resolveRequest request r) = Return None <->
                 Forall (fun code =>
                           run_route code (JsString.toLowerCase (getMethod request))
                                     (url_path (getUrl request)) = None) codes).
  { rewrite (resolveRequest_build _ _ Hr), Hb. unfold run_fn.
    rewrite <- run_routes_none with (_query := url_query (getUrl request)).
    split; [intros [= H]; exact H|intros ->; reflexivity]. }
  split; [exact Hiff|].
  intros Hmethods. apply Hiff. apply Forall_forall. intros code Hcode.
  apply list_elem_of_lookup in Hcode as [i Hi].
  destruct (build_loop_lookup _ _ _ _ _ Hb Hi) as (c & c' & Hrc & Hc).
  destruct (getRouteCode_inv _ _ _ _ Hc) as (re & _ & Hm & _).
  unfold run_route. rewrite Hm.
  destruct (String.eqb_spec (JsString.toLowerCase (getMethod request))
              (JsString.toLowerCase (RouteConfig.httpMethod (code_routeConfig code))))
    as [Heq|_]; [|reflexivity].
  rewrite Forall_forall in Hmethods. exfalso.
  apply (Hmethods (code_routeConfig code)).
  - apply (list_elem_of_lookup_2 _ i). exact Hrc.
  - symmetry. exact Heq.
Qed.

Lemma run_routes_query (codes : list (RouteCode RegExp)) (_method _path : string)
    (_query : value) (res : ResolvedController) :
  run_routes codes _method _path _query = Some res -> resolved_query res = _query.
Proof.
  induction codes as [|code codes IH]; simpl; [discriminate|].
  destruct (run_route code _method _path); [|exact IH].
  intros [= <-]. reflexivity.
Qed.

End DispatchEdges.

Lemma indexOf_app (p q : string) (c : ascii) :
  JsString.contains_char c p = false ->
  JsString.indexOf (p +:+ String c q) c = Z.of_nat (String.length p).
Proof.
  induction p as [|a p IH]; intros Hp.
  - simpl. rewrite Ascii.eqb_refl. reflexivity.
  - simpl in Hp. apply orb_false_elim in Hp as [Ha Hp].
    cbn [String.append JsString.indexOf String.length]. rewrite Ha, (IH Hp).
    destruct (Z.eqb_spec (Z.of_nat (String.length p)) (-1)); lia.
Qed.

Lemma substr_from_app (p q : string) (c : ascii) :
  JsString.substr_from (p +:+ String c q) (Z.of_nat (String.length p) + 1) = q.
Proof.
  unfold JsString.substr_from, JsString.substr.
  rewrite string_length_app. cbn [String.length].
  destruct (Z.ltb_spec (Z.of_nat (String.length p) + 1) 0) as [Hlt|_]; [lia|].
  assert (H1 : Z.min (Z.of_nat (String.length p) + 1)
                     (Z.of_nat (String.length p + S (String.length q)))
               = Z.of_nat (S (String.length p))) by lia.
  rewrite H1.
  assert (H2 : Z.min (Z.max (Z.of_nat (String.length p + S (String.length q))) 0)
                     (Z.of_nat (String.length p + S (String.length q))
                      - Z.of_nat (S (String.length p)))
               = Z.of_nat (String.length q)) by lia.
  rewrite H2, !Nat2Z.id.
  assert (H3 : JsString.drop (S (String.length p)) (p +:+ String c q) = q).
  { clear. induction p as [|a p IH]; simpl; [destruct q; reflexivity|exact IH]. }
  rewrite H3. apply take_all. lia.
Qed.

Section Query.
Context {RegExp : Type} `{E : RegExpEngine RegExp} `{P : Platform} `{T : TypeSystem}.

(** X9. The URL of a request is split at its first [?]: the resolved route
    holds as its query what [parseQueryString] makes of the text after it,
    further [?] included, and the empty object when the URL has no [?]. *)
Theorem resolveRequest_query (r : Router RegExp) (method path qs : string)
    (res : ResolvedController) :
  JsString.contains_char "?" path = false ->
  (snd (resolve method (path +:+ "?" +:+ qs) r) = Return (Some res) ->
   resolved_query res = parseQueryString qs) /\
  (snd (resolve method path r) = Return (Some res) -> resolved_query res = VObject []).
Proof.
  intros Hpath.
  assert (Hfn : forall url, snd (resolve method url r) = Return (Some res) ->
                            resolved_query res = url_query url).
  { intros url. unfold resolve, resolveRequest.
    destruct (fn r) as [codes|].
    - cbn [snd]. intros [= H]. exact (run_routes_query _ _ _ _ _ H).
    - destruct (build (routes r)) as [codes|e]; cbn [snd]; [|discriminate].
      intros [= H]. exact (run_routes_query _ _ _ _ _ H). }
  split; intros Hres; rewrite (Hfn _ Hres); unfold url_query.
  - change ("?" +:+ qs) with (String "?" qs).
    rewrite (indexOf_app path qs "?" Hpath).
    destruct (Z.eqb_spec (Z.of_nat (String.length path)) (-1)) as [Hneg|_]; [lia|].
    rewrite substr_from_app. reflexivity.
  - rewrite (proj2 (indexOf_absent path "?") Hpath). reflexivity.
Qed.


End Query.

Section DispatchEdgesWitnesses.
#[local] Existing Instances mini_regexp posix demo_types.


Lemma resolveRequest_unmatched_witness :
  snd (resolveRequest {| getMethod := "POST"; getUrl := "/health" |}
         (demo_router overlapping_routes))
    = Return None.
Proof.
  destruct (build (RegExp := MiniRegExp.re * nat) overlapping_routes) as [codes|e] eqn:Hb;
    [|vm_compute in Hb; discriminate Hb].
  apply (proj2 (resolveRequest_unmatched (demo_router overlapping_routes)
                  {| getMethod := "POST"; getUrl := "/health" |} codes
                  (fun _ H => False_ind _ (eq_ind None (fun o => match o with
                                                                  | None => True
                                                                  | Some _ => False
                                                                  end) I _ H))
                  Hb)).
  repeat constructor; intros H; vm_compute in H; discriminate H.
Defined.

Lemma resolveRequest_query_witness :
  match snd (resolve "GET" ("/users/7" +:+ "?" +:+ "a=1?b") (demo_router [user_route])) with
  | Return (Some res) => resolved_query res = VObject [("a", VString "1?b")]
  | _ => False
  end.
Proof.
  destruct (snd (resolve "GET" ("/users/7" +:+ "?" +:+ "a=1?b") (demo_router [user_route])))
    as [[res|]|e] eqn:Hres; try (vm_compute in Hres; discriminate Hres).
  exact (proj1 (resolveRequest_query (demo_router [user_route]) "GET" "/users/7" "a=1?b" res
                  eq_refl) Hres).
Defined.


End DispatchEdgesWitnesses.

(** ** The arguments of a handler *)

Section Bindings.
Context `{T : TypeSystem}.

Lemma parameter_parts_closed (custom : option nat) (i : nat) (p : ParsedRouteParameter)
    (compiler : CompilerContext) (parts : CodeParts) :
  parameter_parts custom i p (compiler, parts)
    = ({| reserved := reserved compiler + reserved_variables (binding_of custom i p) |},
       {| setParameters :=
            setParameters parts
            ++ [binding_argument (reserved compiler) p (binding_of custom i p)];
          parameterValidator :=
            parameterValidator parts
            ++ binding_statements (reserved compiler) p (binding_of custom i p);
          bodyValidationErrorHandling :=
            bodyValidationErrorHandling parts
            && negb (is_error_sink (binding_of custom i p));
          enableParseBody :=
            enableParseBody parts || is_body_bound (binding_of custom i p) |}).
Proof.
  unfold parameter_parts, binding_of, reserveVariable, push_code, query_accessor.
  destruct (regexPosition p) as [position|].
  - cbn. rewrite andb_true_r, orb_false_r. do 2 f_equal. lia.
  - destruct (decide (custom = Some i)).
    + cbn. rewrite andb_false_r, orb_false_r, app_nil_r, Nat.add_0_r.
      destruct compiler; reflexivity.
    + destruct (is_body p).
      * cbn. rewrite andb_true_r, orb_true_r. do 2 f_equal. lia.
      * destruct (is_query p).
        -- cbn. rewrite andb_true_r, orb_false_r. do 2 f_equal. lia.
        -- cbn. rewrite andb_true_r, orb_false_r, app_nil_r. do 2 f_equal. lia.
Qed.

Lemma parts_loop_closed (custom : option nat) (ps : list ParsedRouteParameter)
    (i : nat) (compiler : CompilerContext) (parts : CodeParts) :
  parts_loop custom i ps (compiler, parts)
    = ({| reserved := loop_variables custom i (reserved compiler) ps |},
       {| setParameters :=
            setParameters parts ++ loop_arguments custom i (reserved compiler) ps;
          parameterValidator :=
            parameterValidator parts ++ loop_statements custom i (reserved compiler) ps;
          bodyValidationErrorHandling :=
            bodyValidationErrorHandling parts && negb (has_sink custom i ps);
          enableParseBody := enableParseBody parts || has_body custom i ps |}).
Proof.
  revert i compiler parts. induction ps as [|p ps IH]; intros i compiler parts.
  - cbn. rewrite !app_nil_r, andb_true_r, orb_false_r.
    destruct compiler, parts; reflexivity.
  - cbn [parts_loop]. rewrite parameter_parts_closed, IH.
    cbn [reserved setParameters parameterValidator bodyValidationErrorHandling
         enableParseBody loop_variables loop_arguments loop_statements has_sink has_body].
    rewrite <- !app_assoc, <- andb_assoc, <- orb_assoc, negb_orb.
    do 3 f_equal. f_equal.
    unfold binding_of, is_error_sink.
    destruct (regexPosition p) as [position|].
    + rewrite bool_decide_eq_false_2 by (intros [? ?]; congruence). reflexivity.
    + destruct (decide (custom = Some i)) as [Hc|Hc].
      * rewrite bool_decide_eq_true_2 by (split; congruence). reflexivity.
      * rewrite bool_decide_eq_false_2 by (intros [? ?]; congruence).
        destruct (is_body p); [reflexivity|]. destruct (is_query p); reflexivity.
Qed.


Lemma parameter_body_errors_binding (custom : option nat) (fields : value) (i : nat)
    (p : ParsedRouteParameter) :
  parameter_body_errors custom fields i p
    = match binding_of custom i p with
      | BodyBound =>
          jitValidateProperty (property p)
            (getPropertyXtoClassFunction (property p) fields)
            (Some (default "" (typePath p)))
      | _ => []
      end.
Proof.
  unfold parameter_body_errors, binding_of.
  destruct (regexPosition p); [reflexivity|].
  destruct (decide (custom = Some i)); [reflexivity|].
  destruct (is_body p); [reflexivity|]. destruct (is_query p); reflexivity.
Qed.

(** Running the statements of one parameter: only a query that cannot be
    read stops them, and only the variable of a body parameter is written. *)
Lemma run_binding_statements (env : Environment) (fields : value) (n : nat)
    (p : ParsedRouteParameter) (b : Binding) (st : ExecState) :
  match run_statements env fields (binding_statements n p b) st with
  | Return st' =>
      (b = QueryBound -> is_Some (get_path (_query env) (query_accessor p))) /\
      bodyErrors st'
        = bodyErrors st
          ++ match b with
             | BodyBound =>
                 jitValidateProperty (property p)
                   (getPropertyXtoClassFunction (property p) fields)
                   (Some (default "" (typePath p)))
             | _ => []
             end /\
      (forall m, m <> n -> variables st' !! m = variables st !! m) /\
      (b = BodyBound ->
       variables st' !! n = Some (getPropertyXtoClassFunction (property p) fields))
  | Throw e =>
      e = TypeError /\ b = QueryBound /\
      get_path (_query env) (query_accessor p) = None
  end.
Proof.
  destruct b as [position| | | |]; cbn [binding_statements run_statements run_statement
                                        read_source apply_converter apply_validator].
  - cbn [bodyErrors variables]. rewrite app_nil_r.
    split; [discriminate|]. split; [reflexivity|]. split; [reflexivity|discriminate].
  - rewrite app_nil_r.
    split; [discriminate|]. split; [reflexivity|]. split; [reflexivity|discriminate].
  - cbn [bodyErrors variables].
    split; [discriminate|]. split; [reflexivity|]. split.
    + intros m Hm. apply lookup_insert_ne. congruence.
    + intros _. apply lookup_insert_eq.
  - destruct (get_path (_query env) (query_accessor p)) as [v|] eqn:Hq.
    + cbn [bodyErrors variables]. rewrite app_nil_r.
      split; [intros _; eexists; reflexivity|]. split; [reflexivity|].
      split; [reflexivity|discriminate].
    + split; [reflexivity|]. split; reflexivity.
  - rewrite app_nil_r.
    split; [discriminate|]. split; [reflexivity|]. split; [reflexivity|discriminate].
Qed.

(** Running the statements of the parameters from index [i] on, and then
    evaluating their arguments in the state reached. *)
Lemma run_loop_statements (env : Environment) (fields : value) (custom : option nat)
    (ps : list ParsedRouteParameter) (i n : nat) (st : ExecState) :
  match run_statements env fields (loop_statements custom i n ps) st with
  | Return st' =>
      (forall k p, ps !! k = Some p -> binding_of custom (i + k) p = QueryBound ->
                   is_Some (get_path (_query env) (query_accessor p))) /\
      bodyErrors st' = bodyErrors st ++ body_errors custom fields i ps /\
      (forall m, (m < n)%nat -> variables st' !! m = variables st !! m) /\
      (forall k p, ps !! k = Some p ->
         exists a v,
           loop_arguments custom i n ps !! k = Some a /\
           eval_argument env st' a = Return v /\
           argument_value env fields (bodyErrors st') p (binding_of custom (i + k) p)
             = Some v)
  | Throw e =>
      e = TypeError /\
      exists k p, ps !! k = Some p /\ binding_of custom (i + k) p = QueryBound /\
                  get_path (_query env) (query_accessor p) = None
  end.
Proof.
  revert i n st. induction ps as [|p ps IH]; intros i n st.
  - cbn. split; [intros k p Hk; discriminate|]. split; [symmetry; apply app_nil_r|].
    split; [reflexivity|]. intros k p Hk. discriminate.
  - cbn [loop_statements]. rewrite run_statements_app.
    pose proof (run_binding_statements env fields n p (binding_of custom i p) st) as Hhead.
    destruct (run_statements env fields (binding_statements n p (binding_of custom i p)) st)
      as [st1|e].
    + destruct Hhead as (Hq1 & Hb1 & Hv1 & Hn1).
      specialize (IH (S i) (n + reserved_variables (binding_of custom i p))%nat st1).
      destruct (run_statements env fields
                  (loop_statements custom (S i)
                     (n + reserved_variables (binding_of custom i p)) ps) st1) as [st'|e].
      * destruct IH as (Hq & Hb & Hv & Ha).
        split; [|split; [|split]].
        -- intros [|k] q Hk Hbind.
           ++ injection Hk as <-. rewrite Nat.add_0_r in Hbind. exact (Hq1 Hbind).
           ++ apply (Hq k q Hk). rewrite <- Hbind. f_equal. lia.
        -- rewrite Hb, Hb1. cbn [body_errors].
           rewrite parameter_body_errors_binding, <- app_assoc. reflexivity.
        -- intros m Hm. rewrite Hv by lia. apply Hv1. lia.
        -- intros [|k] q Hk.
           ++ injection Hk as <-. rewrite Nat.add_0_r. cbn [loop_arguments lookup list_lookup].
              destruct (binding_of custom i p) as [position| | | |] eqn:Hbind.
              ** eexists _, _. split; [reflexivity|]. split; reflexivity.
              ** eexists _, _. split; [reflexivity|]. split; reflexivity.
              ** eexists _, _. split; [reflexivity|].
                 cbn [binding_argument eval_argument argument_value].
                 rewrite Hv by (cbn; lia). rewrite (Hn1 eq_refl). split; reflexivity.
              ** destruct (Hq1 eq_refl) as [v Hval].
                 eexists _, _. split; [reflexivity|].
                 cbn [binding_argument eval_argument read_source argument_value].
                 rewrite Hval. split; reflexivity.
              ** eexists _, _. split; [reflexivity|]. split; reflexivity.
           ++ cbn [loop_arguments lookup list_lookup].
              destruct (Ha k q Hk) as (a & v & Hak & Hev & Hval).
              exists a, v. split; [exact Hak|]. split; [exact Hev|].
              rewrite <- Hval. f_equal. f_equal. lia.
      * destruct IH as (-> & k & q & Hk & Hbind & Hnone).
        split; [reflexivity|]. exists (S k), q. split; [exact Hk|].
        split; [|exact Hnone]. rewrite <- Hbind. f_equal. lia.
    + destruct Hhead as (-> & Hbind & Hnone).
      split; [reflexivity|]. exists 0%nat, p. split; [reflexivity|].
      split; [|exact Hnone]. rewrite Nat.add_0_r. exact Hbind.
Qed.

End Bindings.

Section ArgumentValues.
Context {RegExp : Type} `{E : RegExpEngine RegExp} `{P : Platform} `{T : TypeSystem}.

Lemma route_parts_closed (compiler : CompilerContext) (rc : RouteConfig.t) :
  let parsed := getParameters (parseRouteControllerAction rc) in
  let custom := customValidationErrorHandling (parseRouteControllerAction rc) in
  route_parts compiler rc
    = {| setParameters := loop_arguments custom 0 (S (S (reserved compiler))) parsed;
         parameterValidator := loop_statements custom 0 (S (S (reserved compiler))) parsed;
         bodyValidationErrorHandling := negb (has_sink custom 0 parsed);
         enableParseBody := has_body custom 0 parsed |}.
Proof.
  intros parsed custom. unfold route_parts. fold parsed custom.
  rewrite parts_loop_closed. reflexivity.
Qed.

(** The [parameters] function of a compiled route is made of the route's
    code parts. *)
Lemma code_parameters_inv (compiler compiler' : CompilerContext) (rc : RouteConfig.t)
    (code : RouteCode RegExp) (f : ParametersFunction) :
  getRouteCode compiler rc = Return (code, compiler') ->
  code_parameters code = Some f ->
  f = {| requiresAsyncParameters := enableParseBody (route_parts compiler rc);
         parameters_code := route_parts compiler rc |}.
Proof.
  intros Hc Hf. destruct (getRouteCode_inv _ _ _ _ Hc) as (re & _ & _ & _ & _ & Hpar).
  rewrite Hf in Hpar. destruct (setParameters (route_parts compiler rc)); [discriminate|].
  injection Hpar as ->. reflexivity.
Qed.

Lemma eval_arguments_lookup (env : Environment) (st : ExecState) (l : list Argument)
    (vs : list value) :
  eval_arguments env st l = Return vs ->
  length vs = length l /\
  forall k a, l !! k = Some a ->
              exists v, vs !! k = Some v /\ eval_argument env st a = Return v.
Proof.
  revert vs. induction l as [|a l IH]; intros vs; simpl.
  - intros [= <-]. split; [reflexivity|]. intros k a Hk. discriminate.
  - destruct (eval_argument env st a) as [v|e] eqn:Ha; [|discriminate].
    destruct (eval_arguments env st l) as [vs'|e] eqn:Hl; [|discriminate].
    intros [= <-]. destruct (IH vs' eq_refl) as [Hlen Hlook].
    split; [simpl; rewrite Hlen; reflexivity|].
    intros [|k] a' Hk; simpl in Hk.
    + injection Hk as <-. exists v. split; [reflexivity|exact Ha].
    + exact (Hlook k a' Hk).
Qed.

Lemma eval_arguments_total (env : Environment) (st : ExecState) (l : list Argument) :
  (forall k a, l !! k = Some a -> exists v, eval_argument env st a = Return v) ->
  exists vs, eval_arguments env st l = Return vs.
Proof.
  induction l as [|a l IH]; intros Hall; simpl.
  - eexists. reflexivity.
  - destruct (Hall 0%nat a eq_refl) as [v ->].
    destruct IH as [vs ->]; [|eexists; reflexivity].
    intros k a' Hk. exact (Hall (S k) a' Hk).
Qed.

Lemma loop_arguments_length (custom : option nat) (ps : list ParsedRouteParameter)
    (i n : nat) :
  length (loop_arguments custom i n ps) = length ps.
Proof.
  revert i n. induction ps as [|p ps IH]; intros i n; simpl; [reflexivity|].
  rewrite IH. reflexivity.
Qed.

Lemma has_body_false (custom : option nat) (ps : list ParsedRouteParameter) (i : nat) :
  has_body custom i ps = false ->
  (forall fields, body_errors custom fields i ps = []) /\
  forall k p, ps !! k = Some p -> binding_of custom (i + k) p <> BodyBound.
Proof.
  revert i. induction ps as [|p ps IH]; intros i; simpl.
  - intros _. split; [reflexivity|]. intros k p Hk. discriminate.
  - intros Hb. apply orb_false_elim in Hb as [Hp Hrest].
    destruct (IH (S i) Hrest) as [Herr Hbind]. split.
    + intros fields. rewrite Herr, parameter_body_errors_binding.
      destruct (binding_of custom i p); try reflexivity. discriminate.
    + intros [|k] q Hk; simpl in Hk.
      * injection Hk as <-. rewrite Nat.add_0_r. intros Heq. rewrite Heq in Hp. discriminate.
      * replace (i + S k)%nat with (S i + k)%nat by lia. exact (Hbind k q Hk).
Qed.

Lemma argument_value_fields (env : Environment) (fields fields' : value)
    (errors : list ValidationErrorItem) (p : ParsedRouteParameter) (b : Binding) :
  b <> BodyBound ->
  argument_value env fields errors p b = argument_value env fields' errors p b.
Proof. destruct b; try reflexivity. contradiction. Qed.

Lemma read_source_with_bodyFields (env : Environment) (b : option value) (s : Source) :
  read_source (with_bodyFields env b) s = read_source env s.
Proof. destruct s; reflexivity. Qed.

Lemma run_statements_with_bodyFields (env : Environment) (b : option value)
    (fields : value) (l : list Statement) (st : ExecState) :
  run_statements (with_bodyFields env b) fields l st = run_statements env fields l st.
Proof.
  revert st. induction l as [|s l IH]; intros st; simpl; [reflexivity|].
  assert (Hs : run_statement (with_bodyFields env b) fields s st
               = run_statement env fields s st).
  { destruct s; simpl; [rewrite read_source_with_bodyFields|]; reflexivity. }
  rewrite Hs. destruct (run_statement env fields s st); [apply IH|reflexivity].
Qed.

Lemma eval_arguments_with_bodyFields (env : Environment) (b : option value)
    (st : ExecState) (l : list Argument) :
  eval_arguments (with_bodyFields env b) st l = eval_arguments env st l.
Proof.
  induction l as [|a l IH]; simpl; [reflexivity|].
  assert (Ha : eval_argument (with_bodyFields env b) st a = eval_argument env st a).
  { destruct a; simpl; [rewrite read_source_with_bodyFields| | |]; reflexivity. }
  rewrite Ha, IH. reflexivity.
Qed.

(** X11. The body is parsed exactly for the routes with a body-bound parameter:
    the [parameters] function of a route is [async] when a parameter is
    bound to the body; it then fails when parsing the body fails, before
    anything is validated; the function of any other route never looks at
    the body. *)
Theorem body_parsed_when_bound (compiler compiler' : CompilerContext)
    (rc : RouteConfig.t) (code : RouteCode RegExp) (f : ParametersFunction) :
  getRouteCode compiler rc = Return (code, compiler') ->
  code_parameters code = Some f ->
  let bound := has_body (customValidationErrorHandling (parseRouteControllerAction rc)) 0
                        (getParameters (parseRouteControllerAction rc)) in
  requiresAsyncParameters f = bound /\
  (bound = true ->
   forall env, bodyFields env = None -> call_parameters f env = Throw BodyParseError) /\
  (bound = false ->
   forall env fields,
     call_parameters f (with_bodyFields env fields) = call_parameters f env).
Proof.
  intros Hc Hf bound. rewrite (code_parameters_inv _ _ _ _ _ Hc Hf).
  pose proof (route_parts_closed compiler rc) as Hparts. cbv zeta in Hparts.
  fold bound in Hparts. unfold call_parameters.
  cbn [requiresAsyncParameters parameters_code]. rewrite Hparts.
  cbn [enableParseBody parameterValidator setParameters bodyValidationErrorHandling].
  split; [reflexivity|]. split.
  - intros -> env ->. reflexivity.
  - intros -> env fields. rewrite run_statements_with_bodyFields.
    destruct (run_statements env VUndefined _ initial_state) as [st|e]; [|reflexivity].
    rewrite eval_arguments_with_bodyFields. reflexivity.
Qed.

(** X12. What the handler receives.  When the [parameters] function of a route
    returns, it returns one argument per parameter of the handler, in their
    order, and the argument of each parameter is the value of its binding:
    a parameter named by a path token gets the converted capture, whatever
    its decorator says; otherwise the last [BodyValidation] parameter gets
    the body errors, a body parameter the converted fields of the body (each
    through its own converter), a query parameter the converted value under
    its path in the query, and every other parameter what the injector
    gives for it. *)
Theorem call_parameters_arguments (compiler compiler' : CompilerContext)
    (rc : RouteConfig.t) (code : RouteCode RegExp) (f : ParametersFunction)
    (env : Environment) (fields : value) (args : list value) :
  getRouteCode compiler rc = Return (code, compiler') ->
  code_parameters code = Some f ->
  let parsed := getParameters (parseRouteControllerAction rc) in
  let custom := customValidationErrorHandling (parseRouteControllerAction rc) in
  (has_body custom 0 parsed = true -> bodyFields env = Some fields) ->
  call_parameters f env = Return args ->
  length args = length parsed /\
  forall k p,
    parsed !! k = Some p ->
    exists v, args !! k = Some v /\
              argument_value env fields (body_errors custom fields 0 parsed) p
                             (binding_of custom k p) = Some v.
Proof.
  intros Hc Hf parsed custom Hfields.
  rewrite (code_parameters_inv _ _ _ _ _ Hc Hf).
  pose proof (route_parts_closed compiler rc) as Hparts. cbv zeta in Hparts.
  fold parsed custom in Hparts. unfold call_parameters.
  cbn [parameters_code]. rewrite Hparts.
  cbn [enableParseBody parameterValidator setParameters bodyValidationErrorHandling].
  set (used := if has_body custom 0 parsed then fields else VUndefined).
  assert (Hused : (if has_body custom 0 parsed then bodyFields env else Some VUndefined)
                  = Some used).
  { unfold used. destruct (has_body custom 0 parsed); [apply Hfields|]; reflexivity. }
  rewrite Hused.
  pose proof (run_loop_statements env used custom parsed 0 (S (S (reserved compiler)))
                initial_state) as Hrun.
  destruct (run_statements env used _ initial_state) as [st|e]; [|discriminate].
  destruct Hrun as (_ & Hb & _ & Hvalues).
  destruct (negb (has_sink custom 0 parsed) && (0 <? length (bodyErrors st))%nat);
    [discriminate|].
  destruct (0 <? length (validationErrors st))%nat; [discriminate|].
  intros Hargs. apply eval_arguments_lookup in Hargs as [Hlen Hlook].
  split; [rewrite Hlen; apply loop_arguments_length|].
  intros k p Hk. destruct (Hvalues k p Hk) as (a & v & Ha & Hev & Hval).
  destruct (Hlook k a Ha) as (v' & Hv' & Hev'). rewrite Hev in Hev'. injection Hev' as <-.
  exists v. split; [exact Hv'|]. rewrite <- Hval, Hb. cbn [bodyErrors initial_state app plus].
  unfold used. destruct (has_body custom 0 parsed) eqn:Hbody; [reflexivity|].
  destruct (has_body_false custom parsed 0 Hbody) as [Herr Hbind].
  rewrite !Herr. apply argument_value_fields. exact (Hbind k p Hk).
Qed.

End ArgumentValues.

Lemma split_aux_free (sep : ascii) (cur s : string) :
  JsString.contains_char sep s = false -> JsString.split_aux sep cur s = [cur +:+ s].
Proof.
  revert cur. induction s as [|c s IH]; intros cur; simpl.
  - intros _. rewrite string_app_empty_r. reflexivity.
  - intros Hc. apply orb_false_elim in Hc as [Hc Hs]. rewrite Hc, (IH _ Hs).
    rewrite string_app_assoc. reflexivity.
Qed.

Lemma get_path_object (fields : list (string * value)) (keys : list string) :
  (length keys <= 1)%nat -> is_Some (get_path (VObject fields) keys).
Proof.
  destruct keys as [|k [|k' keys]]; simpl; intros Hlen; try lia; eexists; reflexivity.
Qed.

Section QueryAccess.
Context {RegExp : Type} `{E : RegExpEngine RegExp} `{P : Platform} `{T : TypeSystem}.

(** X13. Reading the query: the [parameters] function throws a [TypeError]
    exactly when the path of a query-bound parameter cannot be read in the
    query, because a key before its last one is missing; this happens before
    any validation error is raised, also for an optional parameter.  A
    query-bound parameter whose path has no dot is read by one key and never
    throws. *)
Theorem unreadable_query_throws (compiler compiler' : CompilerContext)
    (rc : RouteConfig.t) (code : RouteCode RegExp) (f : ParametersFunction)
    (env : Environment) :
  getRouteCode compiler rc = Return (code, compiler') ->
  code_parameters code = Some f ->
  let parsed := getParameters (parseRouteControllerAction rc) in
  let custom := customValidationErrorHandling (parseRouteControllerAction rc) in
  (has_body custom 0 parsed = true -> is_Some (bodyFields env)) ->
  (call_parameters f env = Throw TypeError <->
   exists k p, parsed !! k = Some p /\ binding_of custom k p = QueryBound /\
               get_path (_query env) (query_accessor p) = None) /\
  (forall fields,
     _query env = VObject fields ->
     (forall k p, parsed !! k = Some p -> binding_of custom k p = QueryBound ->
                  JsString.contains_char "." (queryPath p) = false) ->
     call_parameters f env <> Throw TypeError).
Proof.
  intros Hc Hf parsed custom Hfields.
  assert (Hiff : call_parameters f env = Throw TypeError <->
                 exists k p, parsed !! k = Some p /\ binding_of custom k p = QueryBound /\
                             get_path (_query env) (query_accessor p) = None).
  { rewrite (code_parameters_inv _ _ _ _ _ Hc Hf).
    pose proof (route_parts_closed compiler rc) as Hparts. cbv zeta in Hparts.
    fold parsed custom in Hparts. unfold call_parameters.
    cbn [parameters_code]. rewrite Hparts.
    cbn [enableParseBody parameterValidator setParameters bodyValidationErrorHandling].
    assert (Hused : exists used,
               (if has_body custom 0 parsed then bodyFields env else Some VUndefined)
               = Some used).
    { destruct (has_body custom 0 parsed); [apply Hfields; reflexivity|].
      eexists; reflexivity. }
    destruct Hused as [used ->].
    pose proof (run_loop_statements env used custom parsed 0 (S (S (reserved compiler)))
                  initial_state) as Hrun.
    destruct (run_statements env used _ initial_state) as [st|e].
    - destruct Hrun as (Hread & _ & _ & Hvalues).
      split.
      + destruct (negb (has_sink custom 0 parsed) && (0 <? length (bodyErrors st))%nat);
          [discriminate|].
        destruct (0 <? length (validationErrors st))%nat; [discriminate|].
        intros Hthrow. exfalso.
        destruct (eval_arguments_total env st
                    (loop_arguments custom 0 (S (S (reserved compiler))) parsed))
          as [vs Hvs]; [|congruence].
        intros k a Ha.
        assert (Hk : (k < length parsed)%nat).
        { rewrite <- (loop_arguments_length custom parsed 0 (S (S (reserved compiler)))).
          apply lookup_lt_is_Some. eexists; exact Ha. }
        apply lookup_lt_is_Some in Hk as [p Hp].
        destruct (Hvalues k p Hp) as (a' & v & Ha' & Hev & _).
        rewrite Ha in Ha'. injection Ha' as <-. exists v. exact Hev.
      + intros (k & p & Hk & Hbind & Hnone).
        destruct (Hread k p Hk Hbind) as [v Hv]. congruence.
    - destruct Hrun as (-> & Hex). split; [intros _; exact Hex|reflexivity]. }
  split; [exact Hiff|].
  intros fields Hq Hplain Hthrow. apply Hiff in Hthrow as (k & p & Hk & Hbind & Hnone).
  rewrite Hq in Hnone.
  destruct (get_path_object fields (query_accessor p)) as [v Hv]; [|congruence].
  unfold query_accessor. destruct (String.eqb (queryPath p) ""); [simpl; lia|].
  unfold JsString.split_dots, JsString.split.
  rewrite (split_aux_free "." "" _ (Hplain k p Hk Hbind)). simpl. lia.
Qed.

End QueryAccess.

Section ArgumentValuesWitnesses.
#[local] Existing Instances mini_regexp posix demo_types.

Lemma body_parsed_when_bound_witness :
  match getRouteCode (RegExp := MiniRegExp.re * nat) {| reserved := 0 |} item_route with
  | Return (code, _) =>
      match code_parameters code with
      | Some f =>
          requiresAsyncParameters f = true /\
          call_parameters f (with_bodyFields item_environment None) = Throw BodyParseError
      | None => False
      end
  | Throw _ => False
  end.
Proof.
  destruct (getRouteCode (RegExp := MiniRegExp.re * nat) {| reserved := 0 |} item_route)
    as [[code compiler']|e] eqn:Hc; [|vm_compute in Hc; discriminate Hc].
  destruct (code_parameters code) as [f|] eqn:Hf.
  - pose proof (body_parsed_when_bound _ _ _ _ _ Hc Hf) as H. cbv zeta in H.
    replace (has_body (customValidationErrorHandling (parseRouteControllerAction item_route))
               0 (getParameters (parseRouteControllerAction item_route)))
      with true in H by (vm_compute; reflexivity).
    destruct H as (Hasync & Hfail & _). split; [exact Hasync|].
    apply (Hfail eq_refl). reflexivity.
  - vm_compute in Hc. injection Hc as <- _. discriminate Hf.
Defined.

Lemma call_parameters_arguments_witness :
  match getRouteCode (RegExp := MiniRegExp.re * nat) {| reserved := 0 |}
                     paged_search_route with
  | Return (code, _) =>
      match code_parameters code with
      | Some f =>
          match call_parameters f search_environment with
          | Return args =>
              length args = 2%nat /\
              args !! 0%nat = Some (VString "x") /\
              args !! 1%nat = Some (VString "2")
          | Throw _ => False
          end
      | None => False
      end
  | Throw _ => False
  end.
Proof.
  destruct (getRouteCode (RegExp := MiniRegExp.re * nat) {| reserved := 0 |}
              paged_search_route)
    as [[code compiler']|e] eqn:Hc; [|vm_compute in Hc; discriminate Hc].
  destruct (code_parameters code) as [f|] eqn:Hf.
  - destruct (call_parameters f search_environment) as [args|e] eqn:Hcall.
    + pose proof (call_parameters_arguments _ _ _ _ _ search_environment
                    VUndefined args Hc Hf) as H.
      cbv zeta in H.
      destruct H as [Hlen Hargs]; [intros Hbody; vm_compute in Hbody; discriminate Hbody
                                  |exact Hcall|].
      split; [rewrite Hlen; vm_compute; reflexivity|].
      split.
      * destruct (getParameters (parseRouteControllerAction paged_search_route) !! 0%nat)
          as [p|] eqn:Hp; [|vm_compute in Hp; discriminate Hp].
        destruct (Hargs 0%nat p Hp) as (v & Hv & Hval).
        vm_compute in Hp. injection Hp as <-.
        vm_compute in Hval. injection Hval as <-. exact Hv.
      * destruct (getParameters (parseRouteControllerAction paged_search_route) !! 1%nat)
          as [p|] eqn:Hp; [|vm_compute in Hp; discriminate Hp].
        destruct (Hargs 1%nat p Hp) as (v & Hv & Hval).
        vm_compute in Hp. injection Hp as <-.
        vm_compute in Hval. injection Hval as <-. exact Hv.
    + vm_compute in Hc. injection Hc as <- _. vm_compute in Hf. injection Hf as <-.
      vm_compute in Hcall. discriminate Hcall.
  - vm_compute in Hc. injection Hc as <- _. discriminate Hf.
Defined.

Lemma unreadable_query_throws_witness :
  match getRouteCode (RegExp := MiniRegExp.re * nat) {| reserved := 0 |} nested_query_route with
  | Return (code, _) =>
      match code_parameters code with
      | Some f => call_parameters f abc_environment = Throw TypeError
      | None => False
      end
  | Throw _ => False
  end.
Proof.
  destruct (getRouteCode (RegExp := MiniRegExp.re * nat) {| reserved := 0 |}
              nested_query_route)
    as [[code compiler']|e] eqn:Hc; [|vm_compute in Hc; discriminate Hc].
  destruct (code_parameters code) as [f|] eqn:Hf.
  - pose proof (unreadable_query_throws _ _ _ _ _ abc_environment Hc Hf) as H.
    cbv zeta in H.
    destruct H as [[_ Hthrow] _]; [intros _; eexists; reflexivity|].
    apply Hthrow.
    destruct (getParameters (parseRouteControllerAction nested_query_route) !! 0%nat)
      as [p|] eqn:Hp; [|vm_compute in Hp; discriminate Hp].
    exists 0%nat, p. split; [exact Hp|].
    vm_compute in Hp. injection Hp as <-. split; vm_compute; reflexivity.
  - vm_compute in Hc. injection Hc as <- _. discriminate Hf.
Defined.

End ArgumentValuesWitnesses.

(** ** What a resolution says about the request *)

Section Soundness.
Context {RegExp : Type} `{E : RegExpEngine RegExp} `{P : Platform} `{T : TypeSystem}.

(** X14. A resolution is never made up: the route [resolveRequest] returns is
    one of the registered routes; its method is the method of the request
    up to case; when its handler has no parameters the path of the request
    is the route's full path and the match is empty; when it has, the path
    starts with the route's literal prefix and the match is what the route's
    regular expression gives for the path. *)
Theorem resolveRequest_sound (r : Router RegExp) (request : HttpRequest)
    (res : ResolvedController) :
  fn_consistent r ->
  snd (resolveRequest request r) = Return (Some res) ->
  let rc := resolved_routeConfig res in
  let _path := url_path (getUrl request) in
  exists i re,
    routes r !! i = Some rc /\
    RegExp_new (route_regex_source rc) = Some re /\
    JsString.toLowerCase (getMethod request)
      = JsString.toLowerCase (RouteConfig.httpMethod rc) /\
    match handler_properties rc with
    | [] => _path = RouteConfig.getFullPath rc /\
            resolved_match res = [] /\ resolved_parameters res = None
    | _ => JsString.startsWith _path (route_prefix rc) = true /\
           RegExp_match _path re = Some (resolved_match res) /\
           is_Some (resolved_parameters res)
    end.
Proof.
  intros Hr Hres rc _path.
  rewrite (resolveRequest_build _ _ Hr) in Hres.
  destruct (build (routes r)) as [codes|e] eqn:Hb; [|discriminate].
  injection Hres as Hres. unfold run_fn in Hres.
  apply run_routes_some in Hres as (i & code & m & Hi & Hm & _ & ->).
  destruct (build_loop_lookup _ _ _ _ _ Hb Hi) as (c & c' & Hrc & Hc).
  destruct (getRouteCode_inv _ _ _ _ Hc) as (re & Hre & Hmethod & _ & Hmat & Hpar).
  unfold rc, _path. cbn [resolution resolved_routeConfig resolved_match resolved_parameters].
  exists i, re. split; [exact Hrc|]. split; [exact Hre|].
  unfold run_route in Hm. rewrite Hmethod in Hm.
  destruct (String.eqb_spec (JsString.toLowerCase (getMethod request))
              (JsString.toLowerCase (RouteConfig.httpMethod (code_routeConfig code))))
    as [Heq|_]; [|discriminate].
  split; [exact Heq|].
  rewrite Hmat, parseRouteControllerAction_parameters, length_map in Hm.
  assert (Hlen : length (setParameters (route_parts c (code_routeConfig code)))
                 = length (handler_properties (code_routeConfig code))).
  { unfold route_parts. rewrite parts_loop_length.
    rewrite parseRouteControllerAction_parameters, length_map. reflexivity. }
  destruct (handler_properties (code_routeConfig code)) as [|prop props].
  - cbn in Hm.
    destruct (String.eqb_spec (url_path (getUrl request))
                (RouteConfig.getFullPath (code_routeConfig code))) as [Hp|_];
      [|discriminate].
    injection Hm as <-. split; [exact Hp|]. split; [reflexivity|].
    rewrite Hpar. destruct (setParameters _); [reflexivity|discriminate].
  - cbn in Hm.
    destruct (JsString.startsWith (url_path (getUrl request))
                (route_prefix (code_routeConfig code))); [|discriminate].
    split; [reflexivity|]. split; [exact Hm|].
    rewrite Hpar. destruct (setParameters _); [discriminate|eexists; reflexivity].
Qed.

End Soundness.

Section SoundnessWitnesses.
#[local] Existing Instances mini_regexp posix demo_types.

Lemma resolveRequest_sound_witness :
  match snd (resolveRequest {| getMethod := "get"; getUrl := "/users/me?x=1" |}
               (demo_router overlapping_routes)) with
  | Return (Some res) =>
      exists i re,
        overlapping_routes !! i = Some (resolved_routeConfig res) /\
        RegExp_new (route_regex_source (resolved_routeConfig res)) = Some re /\
        "get" = JsString.toLowerCase (RouteConfig.httpMethod (resolved_routeConfig res)) /\
        match handler_properties (resolved_routeConfig res) with
        | [] => "/users/me" = RouteConfig.getFullPath (resolved_routeConfig res) /\
                resolved_match res = [] /\ resolved_parameters res = None
        | _ => JsString.startsWith "/users/me" (route_prefix (resolved_routeConfig res))
                 = true /\
               RegExp_match "/users/me" re = Some (resolved_match res) /\
               is_Some (resolved_parameters res)
        end
  | _ => False
  end.
Proof.
  destruct (snd (resolveRequest {| getMethod := "get"; getUrl := "/users/me?x=1" |}
                   (demo_router overlapping_routes)))
    as [[res|]|e] eqn:Hres; try (vm_compute in Hres; discriminate Hres).
  exact (resolveRequest_sound (demo_router overlapping_routes) _ res
           (fun _ H => False_ind _ (eq_ind None (fun o => match o with
                                                           | None => True
                                                           | Some _ => False
                                                           end) I _ H))
           Hres).
Defined.

End SoundnessWitnesses.

(** ** What [resolveUrl] reads, and the shape of its result *)

Lemma eval_template_ext `{P : Platform} (parameters parameters' : gmap string value) (ps : list piece) :
  (forall name, In name (token_names ps) -> parameters !! name = parameters' !! name) ->
  eval_template parameters ps = eval_template parameters' ps.
Proof.
  induction ps as [|[c|n] ps IH]; intros Hagree; simpl.
  - reflexivity.
  - rewrite IH by exact Hagree. reflexivity.
  - unfold read_parameter. rewrite (Hagree n) by (left; reflexivity).
    rewrite IH; [reflexivity|]. intros name Hin. apply Hagree. right. exact Hin.
Qed.

Lemma run_modify_ext `{P : Platform} (parameters parameters' : gmap string value) (modify : list QueryPush)
    (query : list string) :
  (forall m, In m modify ->
             read_accessor parameters (push_accessor m)
             = read_accessor parameters' (push_accessor m)) ->
  run_modify parameters modify query = run_modify parameters' modify query.
Proof.
  revert query. induction modify as [|m modify IH]; intros query Hagree; simpl; [reflexivity|].
  rewrite (Hagree m) by (left; reflexivity).
  apply IH. intros m' Hin. apply Hagree. right. exact Hin.
Qed.

Section ResolverNames.
Context {RegExp : Type} `{E : RegExpEngine RegExp} `{P : Platform} `{T : TypeSystem}.

Lemma parameter_modify_reads (parameters parameters' : gmap string value)
    (p : ParsedRouteParameter) (m : QueryPush) :
  In m (parameter_modify p) ->
  parameters !! getName p = parameters' !! getName p ->
  is_query p = true /\
  read_accessor parameters (push_accessor m) = read_accessor parameters' (push_accessor m).
Proof.
  unfold parameter_modify. destruct (is_query p); [|contradiction].
  intros Hin Hagree. split; [reflexivity|].
  destruct (String.eqb (PropertySchema.type (property p)) "class").
  - apply in_map_iff in Hin as (field & <- & _). cbn [push_accessor read_accessor].
    unfold read_parameter. rewrite Hagree. reflexivity.
  - destruct Hin as [<-|[]]. cbn [push_accessor read_accessor].
    unfold read_parameter. rewrite Hagree. reflexivity.
Qed.

(** X15. [resolveUrl] reads in its [parameters] only the names of the tokens of
    the template and the names of the query parameters of the route: two
    objects that agree on these names give the same URL, whatever else they
    hold. *)
Theorem resolveUrl_reads_bound_names (rc : RouteConfig.t)
    (parameters parameters' : gmap string value) :
  (forall name, In name (resolver_names rc) -> parameters !! name = parameters' !! name) ->
  run_case (getRouteUrlResolveCode rc) parameters
    = run_case (getRouteUrlResolveCode rc) parameters' /\
  forall (r : Router RegExp) pre post,
    resolveFn r = None ->
    routes r = pre ++ rc :: post ->
    Forall (fun rc' => RouteConfig.name rc' <> RouteConfig.name rc) pre ->
    snd (resolveUrl (RouteConfig.name rc) parameters r)
      = snd (resolveUrl (RouteConfig.name rc) parameters' r).
Proof.
  intros Hagree.
  assert (Hcase : run_case (getRouteUrlResolveCode rc) parameters
                  = run_case (getRouteUrlResolveCode rc) parameters').
  { unfold run_case, getRouteUrlResolveCode. cbn [case_url case_modify].
    rewrite (eval_template_ext parameters parameters').
    2:{ intros name Hin. apply Hagree. unfold resolver_names. apply in_or_app. left.
        exact Hin. }
    rewrite (run_modify_ext parameters parameters'); [reflexivity|].
    intros m Hin. rewrite modify_loop_flat_map in Hin. cbn [app] in Hin.
    apply in_flat_map in Hin as (p & Hp & Hm).
    assert (Hq : is_query p = true).
    { unfold parameter_modify in Hm. destruct (is_query p); [reflexivity|contradiction]. }
    apply (parameter_modify_reads parameters parameters' p m Hm).
    apply Hagree. unfold resolver_names. apply in_or_app. right.
    apply in_map. apply filter_In. split; assumption. }
  split; [exact Hcase|].
  intros r pre post Hfn Hroutes Hpre.
  assert (Hfirst : forall ps, snd (resolveUrl (RouteConfig.name rc) ps r)
                              = match buildUrlResolver (routes r) with
                                | Return _ => Return (run_case (getRouteUrlResolveCode rc) ps)
                                | Throw e => Throw e
                                end).
  { intros ps. unfold resolveUrl. rewrite Hfn.
    destruct (buildUrlResolver (routes r)) as [cases|e] eqn:Hb; [|reflexivity]. cbn [snd].
    apply buildUrlResolver_inv in Hb as ->.
    rewrite run_resolveFn_first_named, Hroutes, (first_named_first _ _ _ Hpre).
    reflexivity. }
  rewrite !Hfirst, Hcase. reflexivity.
Qed.

Lemma tokens_slash (s : string) : tokens (String "/" s) = PChar "/" :: tokens s.
Proof. reflexivity. Qed.

(** X16. The full path of a route starts with a slash: without a base URL it is
    the path, with a slash put before it when it has none.  So does every
    URL [resolveUrl] makes for the route. *)
Theorem getFullPath_slash (rc : RouteConfig.t) (parameters : gmap string value) :
  JsString.startsWith (RouteConfig.getFullPath rc) "/" = true /\
  (RouteConfig.baseUrl rc = "" ->
   RouteConfig.getFullPath rc
     = if JsString.startsWith (RouteConfig.path rc) "/" then RouteConfig.path rc
       else "/" +:+ RouteConfig.path rc) /\
  JsString.startsWith (run_case (getRouteUrlResolveCode rc) parameters) "/" = true.
Proof.
  assert (Hslash : JsString.startsWith (RouteConfig.getFullPath rc) "/" = true).
  { unfold RouteConfig.getFullPath.
    set (path := if String.eqb (RouteConfig.baseUrl rc) "" then RouteConfig.path rc
                 else join (RouteConfig.baseUrl rc) (RouteConfig.path rc)).
    destruct (JsString.startsWith path "/") eqn:Hs; [exact Hs|reflexivity]. }
  split; [exact Hslash|]. split.
  - intros Hbase. unfold RouteConfig.getFullPath. rewrite Hbase. reflexivity.
  - unfold run_case, getRouteUrlResolveCode. cbn [case_url case_modify].
    apply startsWith_inv in Hslash as [rest ->].
    change ("/" +:+ rest) with (String "/" rest). rewrite tokens_slash. reflexivity.
Qed.

End ResolverNames.

Section ResolverNamesWitnesses.
#[local] Existing Instances mini_regexp posix demo_types.

Lemma resolveUrl_reads_bound_names_witness :
  run_case (getRouteUrlResolveCode search_route)
           (<["page" := VNumber 2]> (<["sort" := VString "name"]> ∅))
    = run_case (getRouteUrlResolveCode search_route) (<["page" := VNumber 2]> ∅).
Proof.
  refine (proj1 (resolveUrl_reads_bound_names (RegExp := MiniRegExp.re * nat)
                   search_route _ _ _)).
  intros name Hin. vm_compute in Hin.
  destruct Hin as [<-|[<-|[]]]; vm_compute; reflexivity.
Defined.

End ResolverNamesWitnesses.

(** ** [dotToUrlPath] leaves no dot *)

Lemma contains_char_replace_dots (rep s : string) :
  JsString.contains_char "." rep = false ->
  JsString.contains_char "." (JsString.replace_dots rep s) = false.
Proof.
  intros Hrep. induction s as [|c s IH]; simpl; [reflexivity|].
  destruct (Ascii.eqb c ".") eqn:Hc.
  - rewrite contains_char_app, Hrep, IH. reflexivity.
  - simpl. rewrite Hc, IH. reflexivity.
Qed.

Lemma contains_char_drop (c : ascii) (n : nat) (s : string) :
  JsString.contains_char c s = false -> JsString.contains_char c (JsString.drop n s) = false.
Proof.
  revert n. induction s as [|x s IH]; intros n Hs; destruct n; simpl in *; try exact Hs.
  apply orb_false_elim in Hs as [_ Hs]. apply IH. exact Hs.
Qed.

Lemma contains_char_replace_first (c : ascii) (pat rep s : string) :
  JsString.contains_char c rep = false ->
  JsString.contains_char c s = false ->
  JsString.contains_char c (JsString.replace_first pat rep s) = false.
Proof.
  intros Hrep. induction s as [|x s IH]; intros Hs.
  - simpl. destruct (JsString.startsWith "" pat); [|reflexivity].
    rewrite contains_char_app, Hrep. apply contains_char_drop. reflexivity.
  - cbn [JsString.replace_first]. destruct (JsString.startsWith (String x s) pat).
    + rewrite contains_char_app, Hrep. apply contains_char_drop. exact Hs.
    + simpl in Hs. apply orb_false_elim in Hs as [Hx Hs]. simpl. rewrite Hx.
      apply IH. exact Hs.
Qed.

(** X17. The result of [dotToUrlPath] holds no dot; so the function changes
    nothing when it is applied again, and the paths it leaves as they are
    are the paths without a dot. *)
Theorem dotToUrlPath_idempotent (dotPath : string) :
  JsString.contains_char "." (dotToUrlPath dotPath) = false /\
  dotToUrlPath (dotToUrlPath dotPath) = dotToUrlPath dotPath /\
  (dotToUrlPath dotPath = dotPath <-> JsString.contains_char "." dotPath = false).
Proof.
  assert (Hfree : JsString.contains_char "." (dotToUrlPath dotPath) = false).
  { unfold dotToUrlPath.
    destruct (Z.eqb_spec (JsString.indexOf dotPath ".") (-1)) as [Hi|_].
    - apply indexOf_absent. exact Hi.
    - rewrite contains_char_app.
      rewrite contains_char_replace_first;
        [reflexivity|reflexivity|apply contains_char_replace_dots; reflexivity]. }
  assert (Hfix : forall s, JsString.contains_char "." s = false -> dotToUrlPath s = s).
  { intros s Hs. unfold dotToUrlPath.
    rewrite (proj2 (indexOf_absent s ".") Hs). reflexivity. }
  split; [exact Hfree|]. split; [apply Hfix, Hfree|].
  split; [intros Heq; rewrite <- Heq; exact Hfree|apply Hfix].
Qed.

(** ** The parameters bound to the path *)

Section PathBound.
Context `{P : Platform} `{T : TypeSystem}.


End PathBound.

Section PathBoundWitnesses.
#[local] Existing Instances mini_regexp posix demo_types.


End PathBoundWitnesses.

(** ** The tokens of a template *)

Lemma is_word_colon : JsString.is_word ":" = false.
Proof. reflexivity. Qed.

Lemma scan_tokens_step (pending : option string) (c : ascii) (s : string) :
  scan_tokens pending (String c s)
    = if match pending with Some _ => JsString.is_word c | None => false end
      then scan_tokens (option_map (fun name => name +:+ String c EmptyString) pending) s
      else flush pending ++
           (if Ascii.eqb c ":" then scan_tokens (Some EmptyString) s
            else PChar c :: scan_tokens None s).
Proof. reflexivity. Qed.

Lemma flush_names (pending : option string) :
  (forall name, pending = Some name ->
                JsString.forallb_string JsString.is_word name = true) ->
  Forall (fun name => name <> "" /\ JsString.forallb_string JsString.is_word name = true)
         (token_names (flush pending)).
Proof.
  intros Hword. destruct pending as [[|c name]|]; cbn; try constructor.
  - split; [discriminate|]. apply (Hword _ eq_refl).
  - constructor.
Qed.

Lemma scan_tokens_names (pending : option string) (s : string) :
  (forall name, pending = Some name ->
                JsString.forallb_string JsString.is_word name = true) ->
  Forall (fun name => name <> "" /\ JsString.forallb_string JsString.is_word name = true)
         (token_names (scan_tokens pending s)).
Proof.
  revert pending. induction s as [|c s IH]; intros pending Hword.
  - cbn [scan_tokens]. apply flush_names, Hword.
  - rewrite scan_tokens_step.
    assert (Hrest : Forall (fun name => name <> "" /\
                              JsString.forallb_string JsString.is_word name = true)
                      (token_names (if Ascii.eqb c ":" then scan_tokens (Some EmptyString) s
                                    else PChar c :: scan_tokens None s))).
    { destruct (Ascii.eqb c ":").
      - apply IH. intros name [= <-]. reflexivity.
      - cbn [token_names]. apply IH. intros name Hn. discriminate Hn. }
    destruct pending as [name|].
    + destruct (JsString.is_word c) eqn:Hc.
      * apply IH. intros name' [= <-]. rewrite forallb_string_app, (Hword _ eq_refl).
        cbn. rewrite Hc. reflexivity.
      * rewrite token_names_app. apply Forall_app. split; [apply flush_names, Hword|exact Hrest].
    + exact Hrest.
Qed.

Lemma scan_tokens_munch (pending : option string) (s : string) :
  (pending <> None ->
   forall c, scan_tokens pending s !! 0%nat = Some (PChar c) -> JsString.is_word c = false) /\
  (forall k name c,
     scan_tokens pending s !! k = Some (PToken name) ->
     scan_tokens pending s !! S k = Some (PChar c) -> JsString.is_word c = false).
Proof.
  assert (Hcons : forall (a : piece) (rest : list piece),
             (forall name, a = PToken name ->
                forall c, rest !! 0%nat = Some (PChar c) -> JsString.is_word c = false) ->
             (forall k name c, rest !! k = Some (PToken name) ->
                rest !! S k = Some (PChar c) -> JsString.is_word c = false) ->
             forall k name c, (a :: rest) !! k = Some (PToken name) ->
                (a :: rest) !! S k = Some (PChar c) -> JsString.is_word c = false).
  { intros a rest Hhead Hrest [|k] name c Hk Hk'; simpl in Hk, Hk'.
    - injection Hk as ->. exact (Hhead name eq_refl c Hk').
    - exact (Hrest k name c Hk Hk'). }
  revert pending. induction s as [|c s IH]; intros pending.
  - cbn [scan_tokens]. destruct pending as [[|x name]|]; cbn.
    + split; [intros _ c [= <-]; reflexivity|]. intros [|k] name c Hk Hk'; discriminate.
    + split; [intros _ c Hc; discriminate|]. intros [|k] name' c Hk Hk'; discriminate.
    + split; [intros Hp; contradiction|]. intros k name c Hk; discriminate.
  - rewrite scan_tokens_step.
    set (rest := if Ascii.eqb c ":" then scan_tokens (Some EmptyString) s
                 else PChar c :: scan_tokens None s).
    assert (Hmunch : forall k name x, rest !! k = Some (PToken name) ->
                       rest !! S k = Some (PChar x) -> JsString.is_word x = false).
    { unfold rest. destruct (Ascii.eqb c ":").
      - apply (IH (Some EmptyString)).
      - apply Hcons; [intros name Hn; discriminate Hn|apply (IH None)]. }
    destruct pending as [name|].
    + destruct (JsString.is_word c) eqn:Hc.
      * cbn [option_map].
        destruct (IH (Some (name +:+ String c EmptyString))) as [Hhead Hm].
        split; [intros _; apply Hhead; discriminate|exact Hm].
      * assert (Hhead : forall x, rest !! 0%nat = Some (PChar x) -> JsString.is_word x = false).
        { unfold rest. destruct (Ascii.eqb c ":").
          - apply (IH (Some EmptyString)). discriminate.
          - intros x [= <-]. exact Hc. }
        destruct name as [|x name]; cbn [flush app].
        -- split; [intros _ y [= <-]; reflexivity|].
           apply Hcons; [intros n Hn; discriminate Hn|exact Hmunch].
        -- split; [intros _ y Hy; discriminate Hy|].
           apply Hcons; [intros n _; exact Hhead|exact Hmunch].
    + cbn [flush app]. split; [intros Hp; contradiction|exact Hmunch].
Qed.

Lemma scan_tokens_literal (s : string) :
  JsString.contains_char ":" s = false -> token_names (scan_tokens None s) = [].
Proof.
  induction s as [|c s IH]; [reflexivity|].
  intros Hs. simpl in Hs. apply orb_false_elim in Hs as [Hc Hs].
  rewrite scan_tokens_step. cbn [flush app]. rewrite Hc. cbn [token_names]. exact (IH Hs).
Qed.

(** X19. The tokens of a template are what [/:(\w+)/g] matches: each token is a
    colon with the longest run of word characters after it, which is not
    empty; a colon without a word character after it is text; the text
    between the tokens is kept as it is, so that putting the tokens back
    gives the template; a template without a colon has no token. *)
Theorem tokens_scan (s : string) :
  render (fun name => ":" +:+ name) (tokens s) = s /\
  Forall (fun name => name <> "" /\ JsString.forallb_string JsString.is_word name = true)
         (token_names (tokens s)) /\
  (forall k name c,
     tokens s !! k = Some (PToken name) -> tokens s !! S k = Some (PChar c) ->
     JsString.is_word c = false) /\
  (JsString.contains_char ":" s = false -> token_names (tokens s) = []).
Proof.
  split; [apply render_tokens|]. split; [|split].
  - apply scan_tokens_names. intros name Hn. discriminate Hn.
  - apply (scan_tokens_munch None s).
  - apply scan_tokens_literal.
Qed.


Section LiteralTemplates.
Context `{P : Platform} `{T : TypeSystem}.


End LiteralTemplates.

Section LiteralTemplatesWitnesses.
#[local] Existing Instances mini_regexp posix demo_types.


End LiteralTemplatesWitnesses.

(** ** The parameter that receives the errors *)

Lemma last_sink_spec (ps : list ParsedRouteParameter) (i : nat) (found : option nat) :
  match last_sink i ps found with
  | Some k =>
      (exists j p, k = (i + j)%nat /\ ps !! j = Some p /\
                   is_sink_type (property p) = true /\
                   forall j' q, (j < j')%nat -> ps !! j' = Some q ->
                                is_sink_type (property q) = false) \/
      (found = Some k /\ Forall (fun q => is_sink_type (property q) = false) ps)
  | None => found = None /\ Forall (fun q => is_sink_type (property q) = false) ps
  end.
Proof.
  revert i found. induction ps as [|p ps IH]; intros i found; cbn [last_sink].
  - destruct found as [k|]; [right|]; split; (reflexivity || constructor).
  - specialize (IH (S i) (if is_sink_type (property p) then Some i else found)).
    destruct (last_sink (S i) ps _) as [k|].
    + destruct IH as [(j & q & -> & Hj & Hq & Hlast)|[Hfound Hnone]].
      * left. exists (S j), q. split; [lia|]. split; [exact Hj|]. split; [exact Hq|].
        intros [|j'] q' Hlt Hq'; [lia|]. apply (Hlast j' q'); [lia|exact Hq'].
      * destruct (is_sink_type (property p)) eqn:Hp.
        -- injection Hfound as <-. left. exists 0%nat, p.
           split; [lia|]. split; [reflexivity|]. split; [exact Hp|].
           intros [|j'] q' Hlt Hq'; [lia|]. simpl in Hq'.
           rewrite Forall_forall in Hnone. apply Hnone.
           apply (list_elem_of_lookup_2 _ j'). exact Hq'.
        -- right. split; [exact Hfound|]. constructor; assumption.
    + destruct IH as [Hfound Hnone].
      destruct (is_sink_type (property p)) eqn:Hp; [discriminate|].
      split; [exact Hfound|]. constructor; assumption.
Qed.

Section ErrorSink.
Context `{P : Platform} `{T : TypeSystem}.

(** X21. The parameter that receives the errors is the last parameter of
    the handler whose type is the class [BodyValidation]: when the handler
    has several, only the last one is the sink, and the ones before it are
    bound like any other parameter; when it has none, there is no sink. *)
Theorem last_BodyValidation_is_sink (rc : RouteConfig.t) :
  let parsed := getParameters (parseRouteControllerAction rc) in
  match customValidationErrorHandling (parseRouteControllerAction rc) with
  | Some k =>
      (exists p, parsed !! k = Some p /\ is_sink_type (property p) = true) /\
      (forall j q, (k < j)%nat -> parsed !! j = Some q ->
                   is_sink_type (property q) = false) /\
      (forall j q, parsed !! j = Some q -> j <> k ->
                   binding_of (Some k) j q <> ErrorSink)
  | None => Forall (fun q => is_sink_type (property q) = false) parsed
  end.
Proof.
  intros parsed. rewrite parseRouteControllerAction_custom.
  unfold parsed. rewrite parseRouteControllerAction_parameters.
  pose proof (last_sink_spec (map (parsed_parameter rc) (handler_properties rc)) 0 None)
    as Hspec.
  destruct (last_sink 0 (map (parsed_parameter rc) (handler_properties rc)) None) as [k|].
  - destruct Hspec as [(j & p & -> & Hj & Hp & Hlast)|[Hfound _]]; [|discriminate].
    split; [exists p; split; assumption|]. split; [exact Hlast|].
    intros j' q _ Hne. unfold binding_of. destruct (regexPosition q); [discriminate|].
    destruct (decide (Some (0 + j)%nat = Some j')) as [Heq|_]; [congruence|].
    destruct (is_body q); [discriminate|]. destruct (is_query q); discriminate.
  - exact (proj2 Hspec).
Qed.

End ErrorSink.

(** ** From the path of a request to the arguments of the handler *)

Section PathExtraction.
Context {RegExp : Type} `{E : RegExpEngine RegExp} `{P : Platform} `{T : TypeSystem}.

(** The argument of a path-bound parameter is the converted capture of its
    group. *)
Lemma call_parameters_path_bound (compiler compiler' : CompilerContext)
    (rc : RouteConfig.t) (code : RouteCode RegExp) (f : ParametersFunction)
    (env : Environment) (args : list value) (k : nat) (p : ParsedRouteParameter)
    (position : nat) :
  getRouteCode compiler rc = Return (code, compiler') ->
  code_parameters code = Some f ->
  call_parameters f env = Return args ->
  getParameters (parseRouteControllerAction rc) !! k = Some p ->
  regexPosition p = Some position ->
  args !! k = Some (apply_converter (converter_of (property p))
                                    (capture_value (_match env) position)).
Proof.
  intros Hc Hf Hcall Hk Hpos.
  rewrite (code_parameters_inv _ _ _ _ _ Hc Hf) in Hcall.
  pose proof (route_parts_closed compiler rc) as Hparts. cbv zeta in Hparts.
  unfold call_parameters in Hcall. cbn [parameters_code] in Hcall. rewrite Hparts in Hcall.
  cbn [enableParseBody parameterValidator setParameters bodyValidationErrorHandling] in Hcall.
  destruct (if has_body _ 0 _ then bodyFields env else Some VUndefined) as [used|];
    [|discriminate].
  pose proof (run_loop_statements env used
                (customValidationErrorHandling (parseRouteControllerAction rc))
                (getParameters (parseRouteControllerAction rc)) 0
                (S (S (reserved compiler))) initial_state) as Hrun.
  destruct (run_statements env used _ initial_state) as [st|e]; [|discriminate].
  destruct Hrun as (_ & _ & _ & Hvalues).
  destruct (negb _ && (0 <? length (bodyErrors st))%nat); [discriminate|].
  destruct (0 <? length (validationErrors st))%nat; [discriminate|].
  apply eval_arguments_lookup in Hcall as [_ Hlook].
  destruct (Hvalues k p Hk) as (a & v & Ha & Hev & Hval).
  destruct (Hlook k a Ha) as (v' & Hv' & Hev'). rewrite Hev in Hev'. injection Hev' as <-.
  rewrite Hv'. unfold binding_of in Hval. rewrite Hpos in Hval.
  cbn [argument_value] in Hval. symmetry. exact Hval.
Qed.

(** X22. From the path to the handler.  On an engine that is sound on plain
    templates, when a route with a plain template accepts a path, the path
    is the template with its tokens filled in, and, when the [parameters]
    function returns, the argument of every path-bound parameter is the
    conversion of the text that fills the last token of the parameter's
    name. *)
Theorem path_parameter_extraction (compiler compiler' : CompilerContext)
    (rc : RouteConfig.t) (code : RouteCode RegExp) (f : ParametersFunction)
    (_method _path : string) (env : Environment) (args : list value) :
  plain_sound E ->
  plain_template rc = true ->
  getRouteCode compiler rc = Return (code, compiler') ->
  code_parameters code = Some f ->
  run_route code _method _path = Some (_match env) ->
  call_parameters f env = Return args ->
  let names := token_names (tokens (RouteConfig.getFullPath rc)) in
  exists captures,
    fill (tokens (RouteConfig.getFullPath rc)) captures = Some _path /\
    length captures = length names /\
    forall k p position,
      getParameters (parseRouteControllerAction rc) !! k = Some p ->
      regexPosition p = Some position ->
      exists capture,
        captures !! position = Some capture /\
        names !! position = Some (getName p) /\
        (forall j, (position < j)%nat -> names !! j <> Some (getName p)) /\
        args !! k = Some (apply_converter (converter_of (property p)) (VString capture)).
Proof.
  intros Hsound Hplain Hc Hf Hm Hcall names.
  destruct (getRouteCode_inv _ _ _ _ Hc) as (re & Hre & _ & _ & Hmat & Hpar).
  assert (Hlen : length (setParameters (route_parts compiler rc))
                 = length (getParameters (parseRouteControllerAction rc))).
  { unfold route_parts. rewrite parts_loop_length. reflexivity. }
  rewrite Hf in Hpar.
  destruct (setParameters (route_parts compiler rc)) as [|a0 l0]; [discriminate|].
  assert (Hpos : (0 <? length (getParameters (parseRouteControllerAction rc)))%nat = true).
  { rewrite <- Hlen. reflexivity. }
  rewrite Hpos in Hmat.
  unfold run_route in Hm.
  destruct (String.eqb _method (code_method code)); [|discriminate].
  rewrite Hmat in Hm. cbn [run_matcher] in Hm.
  destruct (JsString.startsWith _path (route_prefix rc)); [|discriminate].
  destruct (plain_route_source rc Hplain) as [Hpieces Hsource].
  rewrite Hsource in Hre.
  destruct (Hsound _ _ _ _ Hpieces Hre Hm) as (captures & Hmatch & Hfill).
  exists captures. split; [exact Hfill|].
  pose proof (fill_length _ _ _ Hfill) as Hcaptures. split; [exact Hcaptures|].
  intros k p position Hk Hp.
  assert (Hlast : last_index (getName p) names = Some position).
  { pose proof Hk as Hk'. rewrite parseRouteControllerAction_parameters in Hk'.
    rewrite list_lookup_fmap in Hk'.
    destruct (handler_properties rc !! k) as [prop|]; [|discriminate].
    injection Hk' as <-. rewrite getName_parsed_parameter. unfold names.
    rewrite <- parsed_parameter_position. exact Hp. }
  apply last_index_spec in Hlast as [Hname Hafter].
  assert (Hcapture : is_Some (captures !! position)).
  { apply lookup_lt_is_Some. rewrite Hcaptures. apply lookup_lt_is_Some.
    eexists; exact Hname. }
  destruct Hcapture as [capture Hcapture].
  exists capture. split; [exact Hcapture|]. split; [exact Hname|]. split; [exact Hafter|].
  rewrite (call_parameters_path_bound _ _ _ _ _ _ _ _ _ _ Hc Hf Hcall Hk Hp).
  unfold capture_value. rewrite Hmatch.
  change ((Some _path :: map Some captures) !! S position)
    with ((Some <$> captures) !! position).
  rewrite list_lookup_fmap, Hcapture. reflexivity.
Qed.

End PathExtraction.

Section PathExtractionWitnesses.
#[local] Existing Instances mini_regexp posix demo_types.

Lemma path_parameter_extraction_witness :
  match getRouteCode (RegExp := MiniRegExp.re * nat) {| reserved := 0 |}
                     paged_search_route with
  | Return (code, _) =>
      match code_parameters code with
      | Some f =>
          match call_parameters f search_environment with
          | Return args =>
              fill (tokens (RouteConfig.getFullPath paged_search_route)) ["2"]
                = Some "/search/2" /\
              args !! 1%nat = Some (VString "2")
          | Throw _ => False
          end
      | None => False
      end
  | Throw _ => False
  end.
Proof.
  destruct (getRouteCode (RegExp := MiniRegExp.re * nat) {| reserved := 0 |}
              paged_search_route)
    as [[code compiler']|e] eqn:Hc; [|vm_compute in Hc; discriminate Hc].
  destruct (code_parameters code) as [f|] eqn:Hf.
  - destruct (call_parameters f search_environment) as [args|e] eqn:Hcall.
    + assert (Hplain : plain_template paged_search_route = true) by (vm_compute; reflexivity).
      assert (Hm : run_route code "get" "/search/2" = Some (_match search_environment)).
      { pose proof Hc as Hc'. vm_compute in Hc'. injection Hc' as <- _.
        vm_compute. reflexivity. }
      destruct (path_parameter_extraction _ _ paged_search_route code f "get" "/search/2"
                  search_environment args mini_regexp_plain_sound Hplain Hc Hf Hm Hcall)
        as (captures & Hfill & Hlen & Hargs).
      destruct captures as [|capture [|c captures]]; try discriminate Hlen.
      assert (Hcapture : capture = "2").
      { cbn in Hfill. injection Hfill as Hfill. rewrite string_app_empty_r in Hfill.
        exact Hfill. }
      subst capture. split; [exact Hfill|].
      destruct (getParameters (parseRouteControllerAction paged_search_route) !! 1%nat)
        as [p|] eqn:Hp; [|vm_compute in Hp; discriminate Hp].
      assert (Hposition : regexPosition p = Some 0%nat).
      { vm_compute in Hp. injection Hp as <-. reflexivity. }
      destruct (Hargs 1%nat p 0%nat Hp Hposition) as (capture & Hcap & _ & _ & Hv).
      injection Hcap as <-. rewrite Hv.
      vm_compute in Hp. injection Hp as <-. reflexivity.
    + vm_compute in Hc. injection Hc as <- _. vm_compute in Hf. injection Hf as <-.
      vm_compute in Hcall. discriminate Hcall.
  - vm_compute in Hc. injection Hc as <- _. discriminate Hf.
Defined.

End PathExtractionWitnesses.

(** ** From the query of a request to the arguments of the handler *)

Section QueryExtraction.
Context {RegExp : Type} `{E : RegExpEngine RegExp} `{P : Platform} `{T : TypeSystem}.

(** Every argument the [parameters] function returns is the value of the
    binding of its parameter, for the body fields and the body errors of
    the call. *)
Lemma call_parameters_binding (compiler compiler' : CompilerContext)
    (rc : RouteConfig.t) (code : RouteCode RegExp) (f : ParametersFunction)
    (env : Environment) (args : list value) (k : nat) (p : ParsedRouteParameter) :
  getRouteCode compiler rc = Return (code, compiler') ->
  code_parameters code = Some f ->
  call_parameters f env = Return args ->
  getParameters (parseRouteControllerAction rc) !! k = Some p ->
  exists v used errors,
    args !! k = Some v /\
    argument_value env used errors p
      (binding_of (customValidationErrorHandling (parseRouteControllerAction rc)) k p)
      = Some v.
Proof.
  intros Hc Hf Hcall Hk.
  rewrite (code_parameters_inv _ _ _ _ _ Hc Hf) in Hcall.
  pose proof (route_parts_closed compiler rc) as Hparts. cbv zeta in Hparts.
  unfold call_parameters in Hcall. cbn [parameters_code] in Hcall. rewrite Hparts in Hcall.
  cbn [enableParseBody parameterValidator setParameters bodyValidationErrorHandling] in Hcall.
  destruct (if has_body _ 0 _ then bodyFields env else Some VUndefined) as [used|];
    [|discriminate].
  pose proof (run_loop_statements env used
                (customValidationErrorHandling (parseRouteControllerAction rc))
                (getParameters (parseRouteControllerAction rc)) 0
                (S (S (reserved compiler))) initial_state) as Hrun.
  destruct (run_statements env used _ initial_state) as [st|e]; [|discriminate].
  destruct Hrun as (_ & _ & _ & Hvalues).
  destruct (negb _ && (0 <? length (bodyErrors st))%nat); [discriminate|].
  destruct (0 <? length (validationErrors st))%nat; [discriminate|].
  apply eval_arguments_lookup in Hcall as [_ Hlook].
  destruct (Hvalues k p Hk) as (a & v & Ha & Hev & Hval).
  destruct (Hlook k a Ha) as (v' & Hv' & Hev'). rewrite Hev in Hev'. injection Hev' as <-.
  exists v, used, (bodyErrors st). split; [exact Hv'|exact Hval].
Qed.

(** X23. From the query to the handler.  When a request whose URL is
    [path?qs] is resolved and the [parameters] function of the resolution
    returns, the argument of every query-bound parameter is the conversion
    of the value found under the parameter's path in
    [parseQueryString(qs)], the query of this very request. *)
Theorem query_parameter_extraction (r : Router RegExp) (method path qs : string)
    (res : ResolvedController) (injector : PropertySchema.t -> value)
    (fields : option value) (args : list value) :
  fn_consistent r ->
  JsString.contains_char "?" path = false ->
  snd (resolve method (path +:+ "?" +:+ qs) r) = Return (Some res) ->
  materialize res injector fields = Some (Return args) ->
  let parsed := parseRouteControllerAction (resolved_routeConfig res) in
  forall k p,
    getParameters parsed !! k = Some p ->
    binding_of (customValidationErrorHandling parsed) k p = QueryBound ->
    exists v,
      get_path (parseQueryString qs) (query_accessor p) = Some v /\
      args !! k = Some (apply_converter (converter_of (property p)) v).
Proof.
  intros Hr Hpath Hres Hmat parsed k p Hk Hbind.
  unfold resolve in Hres. rewrite (resolveRequest_build _ _ Hr) in Hres.
  destruct (build (routes r)) as [codes|e] eqn:Hb; [|discriminate].
  injection Hres as Hres. unfold run_fn in Hres. cbn [getMethod getUrl] in Hres.
  apply run_routes_some in Hres as (i & code & m & Hi & _ & _ & ->).
  destruct (build_loop_lookup _ _ _ _ _ Hb Hi) as (c & c' & _ & Hc).
  unfold materialize in Hmat.
  cbn [resolution resolved_parameters resolved_match resolved_query] in Hmat.
  unfold parsed in Hk, Hbind. cbn [resolution resolved_routeConfig] in Hk, Hbind.
  destruct (code_parameters code) as [f|] eqn:Hf; [|discriminate].
  injection Hmat as Hcall.
  destruct (call_parameters_binding _ _ _ _ _ _ _ _ _ Hc Hf Hcall Hk)
    as (v & used & errors & Hv & Hval).
  rewrite Hbind in Hval. cbn [argument_value _query] in Hval.
  assert (Hquery : url_query (path +:+ "?" +:+ qs) = parseQueryString qs).
  { unfold url_query. change ("?" +:+ qs) with (String "?" qs).
    rewrite (indexOf_app path qs "?" Hpath).
    destruct (Z.eqb_spec (Z.of_nat (String.length path)) (-1)) as [Hneg|_]; [lia|].
    rewrite substr_from_app. reflexivity. }
  change (path +:+ "?" +:+ qs) with (path +:+ String "?" qs) in Hquery.
  rewrite Hquery in Hval.
  destruct (get_path (parseQueryString qs) (query_accessor p)) as [v0|]; [|discriminate].
  injection Hval as <-. exists v0. split; [reflexivity|exact Hv].
Qed.

End QueryExtraction.

Section QueryExtractionWitnesses.
#[local] Existing Instances mini_regexp posix demo_types.

Lemma query_parameter_extraction_witness :
  match snd (resolve "GET" ("/search" +:+ "?" +:+ "page=2")
               (demo_router [optional_search_route])) with
  | Return (Some res) =>
      match materialize res (fun _ => VUndefined) None with
      | Some (Return args) => args !! 1%nat = Some (VString "2")
      | _ => False
      end
  | _ => False
  end.
Proof.
  destruct (snd (resolve "GET" ("/search" +:+ "?" +:+ "page=2")
                   (demo_router [optional_search_route])))
    as [[res|]|e] eqn:Hres; try (vm_compute in Hres; discriminate Hres).
  assert (Hrc : resolved_routeConfig res = optional_search_route).
  { vm_compute in Hres. injection Hres as <-. reflexivity. }
  destruct (materialize res (fun _ => VUndefined) None) as [[args|e]|] eqn:Hmat.
  - pose proof (query_parameter_extraction (demo_router [optional_search_route])
                  "GET" "/search" "page=2" res (fun _ => VUndefined) None args
                  (fun _ H => False_ind _ (eq_ind None (fun o => match o with
                                                                  | None => True
                                                                  | Some _ => False
                                                                  end) I _ H))
                  eq_refl Hres Hmat) as H.
    cbv zeta in H. rewrite Hrc in H.
    destruct (getParameters (parseRouteControllerAction optional_search_route) !! 1%nat)
      as [p|] eqn:Hp; [|vm_compute in Hp; discriminate Hp].
    assert (Hbind : binding_of (customValidationErrorHandling
                                  (parseRouteControllerAction optional_search_route)) 1 p
                    = QueryBound).
    { vm_compute in Hp. injection Hp as <-. vm_compute. reflexivity. }
    destruct (H 1%nat p Hp Hbind) as (v & Hv & Hargs).
    vm_compute in Hp. injection Hp as <-.
    vm_compute in Hv. injection Hv as <-. exact Hargs.
  - vm_compute in Hres. injection Hres as <-. vm_compute in Hmat. discriminate Hmat.
  - vm_compute in Hres. injection Hres as <-. vm_compute in Hmat. discriminate Hmat.
Defined.

End QueryExtractionWitnesses.

(** ** The dispatch function is never stale *)

Section Reachable.
Context {RegExp : Type} `{E : RegExpEngine RegExp} `{P : Platform} `{T : TypeSystem}
        `{D : Decorators}.

(** X24. The cached dispatch function always belongs to the current
    routes.  On a router made by the constructor and then used in any way,
    by calls of [addRoute], [resolveUrl] and [resolveRequest], the routes
    are those of the controllers followed by the added ones, none is ever
    removed or reordered, and [resolveRequest] answers as the dispatch
    function built from exactly these routes does, whatever was cached
    before. *)
Theorem dispatch_cache_never_stale (controllers : list ClassType) (ops : list operation)
    (request : HttpRequest) :
  let r := apply_operations ops (forControllers (RegExp := RegExp) controllers) in
  routes r = flat_map controller_routes controllers ++ added_routes ops /\
  (forall codes, fn r = Some codes -> build (routes r) = Return codes) /\
  snd (resolveRequest request r)
    = match build (flat_map controller_routes controllers ++ added_routes ops) with
      | Return codes => Return (run_fn codes request)
      | Throw e => Throw e
      end.
Proof.
  intros r.
  assert (Hfor : forControllers controllers
                 = router_of (RegExp := RegExp) (flat_map controller_routes controllers)).
  { unfold forControllers, new_Router. cbn [HttpControllers.controllers].
    rewrite new_Router_fold. unfold router_of, empty_router. cbn [fn resolveFn routes app].
    destruct (flat_map controller_routes controllers); reflexivity. }
  assert (Hroutes : routes r = flat_map controller_routes controllers ++ added_routes ops).
  { unfold r. rewrite apply_operations_routes, Hfor. reflexivity. }
  assert (Hcons : fn_consistent r).
  { unfold r. apply apply_operations_consistent. rewrite Hfor.
    intros codes Hcodes. discriminate Hcodes. }
  split; [exact Hroutes|]. split; [exact Hcons|].
  rewrite (resolveRequest_build _ _ Hcons), Hroutes. reflexivity.
Qed.

End Reachable.

Section ControllersWitnesses.
#[local] Existing Instances mini_regexp posix demo_types demo_decorators.

Lemma forControllers_routes_witness :
  map RouteConfig.getFullPath
      (routes (forControllers (RegExp := MiniRegExp.re * nat) ["Users"; "Other"]))
    = ["/users"; "/users/:x"] /\
  selected (snd (resolveRequest {| getMethod := "GET"; getUrl := "/users/7" |}
                   (forControllers (RegExp := MiniRegExp.re * nat) ["Users"; "Other"])))
    = selected (snd (resolveRequest {| getMethod := "GET"; getUrl := "/users/7" |}
                       (demo_router (controller_routes "Users")))).
Proof.
  destruct (forControllers_routes (RegExp := MiniRegExp.re * nat) ["Users"; "Other"]
              "Other" {| getMethod := "GET"; getUrl := "/users/7" |})
    as (Hrouter & _ & Hdispatch).
  split.
  - rewrite Hrouter. vm_compute. reflexivity.
  - rewrite Hdispatch. vm_compute. reflexivity.
Defined.

End ControllersWitnesses.
